(** * Context (prefill) attention over unpadded sequences with a paged KV cache

    A shallow embedding of [colossalai/kernel/triton/context_attn_unpad.py]:
    the Triton kernel [_fwd_context_paged_attention_kernel] and its host
    wrapper [context_attention_unpadded].

    Modelling conventions.
    - Floating-point values are real numbers, so results about computed
      values hold in exact real arithmetic: rounding and overflow are not
      part of this embedding.  The only special value the kernel
      manufactures itself, [float("-inf")], is kept apart in [ext].  A row
      whose running maximum would stay at -inf makes IEEE arithmetic
      produce a NaN ([-inf - -inf]); such a row is [None] here.
      What an overflowed score does to the loop is followed separately,
      over float32 values with infinities and NaN ([f32_row_body]).
    - A tensor is the function from its logical index to its element.  The
      kernel's pointer arithmetic [base + i * stride_i + ...] is the access
      at logical index [(i, ...)]; an access outside the allocation, such
      as a block id beyond the cache, is not represented.
    - The units of the launch grid run one after the other, in the order of
      [grid_units]; a unit only reads Q, K, V, the context lengths and the
      block table, none of which a unit writes, and [schedule_irrelevant]
      shows that any other order leaves the same memory when the block
      table gives distinct blocks to distinct (sequence, tile) pairs. *)

From Stdlib Require Import Reals Lra Lia List Arith ZArith Bool.
Import ListNotations.

(** ** Extended reals: the score domain *)

Inductive ext : Type :=
| NegInf
| Fin (x : R).

(** [tl.maximum] / the combining step of [tl.max]. *)
Definition emax (a b : ext) : ext :=
  match a, b with
  | NegInf, _ => b
  | _, NegInf => a
  | Fin x, Fin y => Fin (Rmax x y)
  end.

(** Addition; there is no +inf in [ext], so -inf absorbs. *)
Definition eadd (a b : ext) : ext :=
  match a, b with
  | Fin x, Fin y => Fin (x + y)
  | _, _ => NegInf
  end.

(** Subtracting a finite number. *)
Definition esub_fin (a : ext) (y : R) : ext :=
  match a with
  | NegInf => NegInf
  | Fin x => Fin (x - y)
  end.

(** [tl.exp], with exp(-inf) = 0. *)
Definition eexp (a : ext) : R :=
  match a with
  | NegInf => 0%R
  | Fin x => exp x
  end.

(** The order on [ext]; -inf is least. *)
Definition ele (a b : ext) : Prop :=
  match a, b with
  | NegInf, _ => True
  | Fin _, NegInf => False
  | Fin x, Fin y => (x <= y)%R
  end.

(** ** Reductions over one axis of a tile *)

(** [tl.sum(x, axis)] over the first [n] entries. *)
Fixpoint tl_sum (n : nat) (f : nat -> R) : R :=
  match n with
  | 0 => 0%R
  | S j => (tl_sum j f + f j)%R
  end.

(** [tl.max(x, axis)] over the first [n] entries. *)
Fixpoint tl_max (n : nat) (f : nat -> ext) : ext :=
  match n with
  | 0 => NegInf
  | S j => emax (tl_max j f) (f j)
  end.

(** One entry of [tl.dot]: the inner product over [n] indices. *)
Definition tl_dot (n : nat) (a b : nat -> R) : R :=
  tl_sum n (fun j => (a j * b j)%R).

(** ** Host-side helpers of the Triton library *)

(** [triton.cdiv(x, y) = (x + y - 1) // y]. *)
Definition cdiv (x y : nat) : nat := (x + y - 1) / y.

(** [triton.next_power_of_2]: the bit-smearing routine on Python integers. *)
Definition next_power_of_2 (n : Z) : Z :=
  let n := (n - 1)%Z in
  let n := Z.lor n (Z.shiftr n 1) in
  let n := Z.lor n (Z.shiftr n 2) in
  let n := Z.lor n (Z.shiftr n 4) in
  let n := Z.lor n (Z.shiftr n 8) in
  let n := Z.lor n (Z.shiftr n 16) in
  let n := Z.lor n (Z.shiftr n 32) in
  (n + 1)%Z.

(** Python's [range(0, stop, step)] for a positive step. *)
Definition py_range (stop step : nat) : list nat :=
  map (fun i => i * step) (seq 0 (cdiv stop step)).

(** ** Tensors *)

(** [num_tokens, num_heads, head_dim]. *)
Definition tensor3 : Type := nat -> nat -> nat -> R.
(** [num_blocks, num_kv_heads, head_dim, block_size]. *)
Definition tensor4 : Type := nat -> nat -> nat -> nat -> R.

(** ** The kernel *)

Module Kernel.

(** The kernel's read-only arguments.  The strides are subsumed by the
    logical indexing.  [pad] is what a boundary-checked block load yields
    outside the shape of its block pointer: the loads name no padding
    option, so Triton leaves these entries unspecified. *)
Record args : Type := {
  Q : tensor3;
  K : tensor3;
  V : tensor3;
  BLOCK_TABLES : nat -> nat -> nat;
  batch_size : nat;
  context_lengths : list nat;
  sm_scale : R;
  KV_GROUPS : nat;
  BLOCK_SIZE : nat;
  HEAD_DIM : nat;
  BLOCK_M : nat;
  BLOCK_N : nat;
  pad : nat -> nat -> R
}.

(** The memory the kernel writes; [Out] is the kernel's argument [O]. *)
Record mem : Type := {
  Out : tensor3;
  KCache : tensor4;
  VCache : tensor4
}.

(** Running statistics of one query row. *)
Record row : Type := {
  m_i : ext;
  l_i : R;
  acc : nat -> R
}.

(** The loop-carried state: the rows of the tile and the two block
    pointers, each given by its offset along the token axis. *)
Record loop_state : Type := {
  rows : nat -> option row;
  K_block_ptr : nat;
  V_block_ptr : nat
}.

Section Unit.

Variable a : args.
(** [tl.program_id(0)], [tl.program_id(1)], [tl.program_id(2)]. *)
Variables cur_seq_idx cur_head_idx block_start_m : nat.

Definition cur_kv_head_idx : nat := cur_head_idx / KV_GROUPS a.

(** [tl.load(context_lengths + i)]. *)
Definition load_len (i : nat) : nat := nth i (context_lengths a) 0.

Definition cur_seq_len : nat := load_len cur_seq_idx.

(** [for i in range(0, n): prev_seq_len_sum += tl.load(context_lengths + i)]. *)
Fixpoint seq_len_sum (n : nat) : nat :=
  match n with
  | 0 => 0
  | S i => seq_len_sum i + load_len i
  end.

Definition prev_seq_len_sum : nat := seq_len_sum cur_seq_idx.

(** [tl.load] through a block pointer of shape [(cur_seq_len, HEAD_DIM)]
    based at token [prev_seq_len_sum] and head [h], at row offset [off],
    with boundary check: entry [(i, d)] of the loaded block. *)
Definition load_block (T : tensor3) (h off : nat) (i d : nat) : R :=
  if (off + i <? cur_seq_len) && (d <? HEAD_DIM a)
  then T (prev_seq_len_sum + (off + i)) h d
  else pad a (off + i) d.

Definition Q_i : nat -> nat -> R :=
  load_block (Q a) cur_head_idx (block_start_m * BLOCK_M a).

Definition cur_block_id : nat := BLOCK_TABLES a cur_seq_idx block_start_m.

Definition offsets_m (i : nat) : nat := block_start_m * BLOCK_M a + i.

(** The loop body on one query row [i]; [k] is indexed [(d, j)] and [v]
    is indexed [(j, d)], as loaded. *)
Definition row_body (block_start_n : nat) (k v : nat -> nat -> R)
    (i : nat) (r : row) : option row :=
  let S_ij := fun j =>
    eadd (Fin (tl_dot (HEAD_DIM a) (Q_i i) (fun d => k d j) * sm_scale a))
         (if block_start_n + j <=? offsets_m i then Fin 0 else NegInf) in
  let m_ij := emax (m_i r) (tl_max (BLOCK_N a) S_ij) in
  match m_ij with
  | NegInf => None
  | Fin mx =>
      let p_ij_hat := fun j => eexp (esub_fin (S_ij j) mx) in
      let scale := eexp (esub_fin (m_i r) mx) in
      let l_ij := (scale * l_i r + tl_sum (BLOCK_N a) p_ij_hat)%R in
      let acc1 := fun d => (acc r d * scale)%R in
      let acc2 := fun d =>
        (acc1 d + tl_dot (BLOCK_N a) p_ij_hat (fun j => v j d))%R in
      Some {| m_i := m_ij; l_i := l_ij; acc := acc2 |}
  end.

(** One iteration of [for block_start_n in range(...)]. *)
Definition loop_body (st : loop_state) (block_start_n : nat) : loop_state :=
  let k := fun d j => load_block (K a) cur_kv_head_idx (K_block_ptr st) j d in
  let v := load_block (V a) cur_kv_head_idx (V_block_ptr st) in
  {| rows := fun i =>
       match rows st i with
       | None => None
       | Some r => row_body block_start_n k v i r
       end;
     K_block_ptr := K_block_ptr st + BLOCK_N a;
     V_block_ptr := V_block_ptr st + BLOCK_N a |}.

Definition loop_init : loop_state :=
  {| rows := fun _ =>
       Some {| m_i := NegInf; l_i := 0%R; acc := fun _ => 0%R |};
     K_block_ptr := 0;
     V_block_ptr := 0 |}.

(** The state after the whole loop over the key tiles. *)
Definition loop_final : loop_state :=
  fold_left loop_body
    (py_range ((block_start_m + 1) * BLOCK_M a) (BLOCK_N a)) loop_init.

(** [acc = acc / l_i[:, None]] on row [i]. *)
Definition out_row (r : row) (d : nat) : R := (acc r d / l_i r)%R.

(** Writing one token row of one head into a [tensor3]. *)
Definition store_row (T : tensor3) (t h : nat) (x : nat -> R) : tensor3 :=
  fun t' h' d' =>
    if (t' =? t) && (h' =? h) && (d' <? HEAD_DIM a) then x d' else T t' h' d'.

(** [tl.store(O_block_ptr, acc, boundary_check=(1, 0))] on the first [n]
    rows of the tile: rows at or past [cur_seq_len] are not written. *)
Fixpoint store_block (n : nat) (rs : nat -> option row) (T : tensor3)
    : option tensor3 :=
  match n with
  | 0 => Some T
  | S i =>
      match store_block i rs T with
      | None => None
      | Some T1 =>
          if offsets_m i <? cur_seq_len then
            match rs i with
            | None => None
            | Some r =>
                Some (store_row T1 (prev_seq_len_sum + offsets_m i)
                        cur_head_idx (out_row r))
            end
          else Some T1
      end
  end.

(** The masked load of the tile's own keys (or values), at the token
    offsets [block_start_m * blk + tl.arange(0, blk)]: entry [d] of the
    token at column [j], [other=0.0] past the sequence. *)
Definition load_kv (T : tensor3) (blk : nat) (j d : nat) : R :=
  if block_start_m * blk + j <? cur_seq_len
  then T (prev_seq_len_sum + (block_start_m * blk + j)) cur_kv_head_idx d
  else 0%R.

(** The masked store into the cache block [cur_block_id] for head
    [cur_kv_head_idx]. *)
Definition store_cache (C : tensor4) (x : nat -> nat -> R) : tensor4 :=
  fun b h d s =>
    if (b =? cur_block_id) && (h =? cur_kv_head_idx) && (d <? HEAD_DIM a)
       && (s <? BLOCK_SIZE a)
       && (s <? cur_seq_len - block_start_m * BLOCK_SIZE a)
    then x s d else C b h d s.

(** The two [tl.static_assert]s. *)
Definition static_asserts : bool :=
  (BLOCK_M a =? BLOCK_N a) && (BLOCK_N a =? BLOCK_SIZE a).

(** One unit of the launch grid.  [None]: the kernel does not compile
    (a static assertion fails) or a stored row is a NaN. *)
Definition _fwd_context_paged_attention_kernel (st : mem) : option mem :=
  if negb static_asserts then None
  else if batch_size a <=? cur_seq_idx then Some st
  else if cur_seq_len <=? block_start_m * BLOCK_M a then Some st
  else
    match store_block (BLOCK_M a) (rows loop_final) (Out st) with
    | None => None
    | Some O1 =>
        if cur_head_idx mod KV_GROUPS a =? 0 then
          Some {| Out := O1;
                  KCache :=
                    store_cache (KCache st) (load_kv (K a) (BLOCK_M a));
                  VCache :=
                    store_cache (VCache st) (load_kv (V a) (BLOCK_N a)) |}
        else
          Some {| Out := O1; KCache := KCache st; VCache := VCache st |}
    end.

End Unit.

End Kernel.

(** ** The host wrapper *)

(** The arguments of [context_attention_unpadded]: every tensor with its
    [shape]; the contents of [k_cache] and [v_cache] are those on entry. *)
Record call : Type := {
  q : tensor3;
  q_shape : nat * nat * nat;
  k : tensor3;
  k_shape : nat * nat * nat;
  v : tensor3;
  v_shape : nat * nat * nat;
  k_cache : tensor4;
  k_cache_shape : nat * nat * nat * nat;
  v_cache : tensor4;
  v_cache_shape : nat * nat * nat * nat;
  context_lengths : list nat;
  block_tables : nat -> nat -> nat;
  block_tables_shape : nat * nat;
  block_size : nat;
  max_seq_len_in_b : option nat
}.

Inductive error : Type :=
| AssertionError
| RuntimeError
| KernelFault.

Definition shape4_eqb (x y : nat * nat * nat * nat) : bool :=
  let '(x0, x1, x2, x3) := x in
  let '(y0, y1, y2, y3) := y in
  (x0 =? y0) && (x1 =? y1) && (x2 =? y2) && (x3 =? y3).

(** [x in {...}] for a set of integer literals. *)
Definition in_set (x : nat) (l : list nat) : bool := existsb (Nat.eqb x) l.

Section Host.

Variable c : call.

Definition Lq : nat := snd (q_shape c).
Definition Lk : nat := snd (k_shape c).
Definition Lv : nat := snd (v_shape c).
Definition num_tokens : nat := fst (fst (q_shape c)).
Definition num_heads : nat := snd (fst (q_shape c)).
Definition num_kv_heads : nat := snd (fst (k_shape c)).
Definition num_kv_group : nat := num_heads / num_kv_heads.
Definition num_seqs : nat := fst (block_tables_shape c).
Definition max_blocks_per_seq : nat := snd (block_tables_shape c).

(** [context_lengths.max().item() if max_seq_len_in_b is None else
    max_seq_len_in_b]; PyTorch's [max()] raises on an empty tensor. *)
Definition max_seq_len : option nat :=
  match max_seq_len_in_b c with
  | Some n => Some n
  | None =>
      match context_lengths c with
      | [] => None
      | _ :: _ => Some (list_max (context_lengths c))
      end
  end.

(** [sm_scale = 1.0 / (Lq**0.5)]. *)
Definition host_sm_scale : R := (1 / sqrt (INR Lq))%R.

(** [(triton.next_power_of_2(num_seqs), num_heads,
     triton.cdiv(max_seq_len, BLOCK_M))]. *)
Definition grid (msl : nat) : nat * nat * nat :=
  (Z.to_nat (next_power_of_2 (Z.of_nat num_seqs)), num_heads,
   cdiv msl (block_size c)).

(** The arguments the wrapper hands to the kernel. *)
Definition kernel_args (pad : nat -> nat -> R) : Kernel.args :=
  {| Kernel.Q := q c;
     Kernel.K := k c;
     Kernel.V := v c;
     Kernel.BLOCK_TABLES := block_tables c;
     Kernel.batch_size := num_seqs;
     Kernel.context_lengths := context_lengths c;
     Kernel.sm_scale := host_sm_scale;
     Kernel.KV_GROUPS := num_kv_group;
     Kernel.BLOCK_SIZE := block_size c;
     Kernel.HEAD_DIM := Lk;
     Kernel.BLOCK_M := block_size c;
     Kernel.BLOCK_N := block_size c;
     Kernel.pad := pad |}.

End Host.

(** All program ids of a grid. *)
Definition grid_units (g : nat * nat * nat) : list (nat * nat * nat) :=
  let '(g0, g1, g2) := g in
  flat_map (fun s =>
    flat_map (fun h => map (fun t => (s, h, t)) (seq 0 g2)) (seq 0 g1))
    (seq 0 g0).

Definition run_unit (a : Kernel.args) (u : nat * nat * nat)
    (st : Kernel.mem) : option Kernel.mem :=
  let '(s, h, t) := u in Kernel._fwd_context_paged_attention_kernel a s h t st.

(** Running the units of a schedule in turn; the flag tells whether every
    unit completed, the memory is the one reached. *)
Fixpoint run_grid (run : nat * nat * nat -> Kernel.mem -> option Kernel.mem)
    (us : list (nat * nat * nat)) (st : Kernel.mem) : bool * Kernel.mem :=
  match us with
  | [] => (true, st)
  | u :: us' =>
      match run u st with
      | None => (false, st)
      | Some st' => run_grid run us' st'
      end
  end.

(** [kernel[grid](...)]. *)
Definition launch (a : Kernel.args) (us : list (nat * nat * nat))
    (st : Kernel.mem) : bool * Kernel.mem :=
  run_grid (run_unit a) us st.

(** [torch.zeros_like(q)]. *)
Definition zeros_like (_ : tensor3) : tensor3 := fun _ _ _ => 0%R.

(** The wrapper: the returned tensor or the raised error, and the contents
    of the two caches afterwards. *)
Definition context_attention_unpadded (pad : nat -> nat -> R) (c : call)
    : (error + tensor3) * (tensor4 * tensor4) :=
  let caches := (k_cache c, v_cache c) in
  if negb ((Lq c =? Lk c) && (Lk c =? Lv c)) then (inl AssertionError, caches)
  else if negb (in_set (Lk c) [32; 64; 128; 256])
  then (inl AssertionError, caches)
  else if negb ((fst (fst (q_shape c)) =? fst (fst (k_shape c)))
                && (fst (fst (k_shape c)) =? fst (fst (v_shape c))))
  then (inl AssertionError, caches)
  else if negb (shape4_eqb (k_cache_shape c) (v_cache_shape c))
  then (inl AssertionError, caches)
  else if negb (length (context_lengths c) =? fst (block_tables_shape c))
  then (inl AssertionError, caches)
  else if negb ((0 <? num_kv_heads c) && (num_heads c mod num_kv_heads c =? 0))
  then (inl AssertionError, caches)
  else
    match max_seq_len c with
    | None => (inl RuntimeError, caches)
    | Some msl =>
        let output := zeros_like (q c) in
        if negb (in_set (block_size c) [16; 32; 64; 128])
        then (inl AssertionError, caches)
        else
          let st := {| Kernel.Out := output;
                       Kernel.KCache := k_cache c;
                       Kernel.VCache := v_cache c |} in
          match launch (kernel_args c pad) (grid_units (grid c msl)) st with
          | (true, st') =>
              (inr (Kernel.Out st'), (Kernel.KCache st', Kernel.VCache st'))
          | (false, st') =>
              (inl KernelFault, (Kernel.KCache st', Kernel.VCache st'))
          end
    end.

(** ** Reference: dense causal softmax attention, as the specification words it *)

(** The maximum of [f 0 .. f n]. *)
Fixpoint max_upto (f : nat -> R) (n : nat) : R :=
  match n with
  | 0 => f 0
  | S j => Rmax (max_upto f j) (f (S j))
  end.

Section Dense.

Variable c : call.

(** Sequence locator: the lengths of the sequences before [s], summed. *)
Definition seq_start (s : nat) : nat :=
  list_sum (firstn s (context_lengths c)).

Definition seq_length (s : nat) : nat := nth s (context_lengths c) 0.

(** Sequence [s], query head [h], query position [p] of the sequence. *)
Variables s h p : nat.

Definition kv_head : nat := h / (num_heads c / num_kv_heads c).

(** [s_q = (1/sqrt head_dim) * <Q_p, K_q>]. *)
Definition dense_score (j : nat) : R :=
  (1 / sqrt (INR (Lq c)) *
   tl_sum (Lq c) (fun d =>
     q c (seq_start s + p)%nat h d * k c (seq_start s + j)%nat kv_head d))%R.

(** [max_{q <= p} s_q]. *)
Definition dense_max : R := max_upto dense_score p.

Definition dense_weight (j : nat) : R := exp (dense_score j - dense_max).

(** The softmax denominator [sum_{q <= p} exp (s_q - max)]. *)
Definition dense_den : R := tl_sum (S p) dense_weight.

(** The softmax numerator [sum_{q <= p} exp (s_q - max) * V_q]. *)
Definition dense_num (d : nat) : R :=
  tl_sum (S p) (fun j =>
    (dense_weight j * v c (seq_start s + j)%nat kv_head d)%R).

Definition dense_attention (d : nat) : R := (dense_num d / dense_den)%R.

End Dense.

(** ** Closed forms of the kernel's loop, used to state its invariant *)

Section RowClosedForm.

Variable a : Kernel.args.
Variables cur_seq_idx cur_head_idx block_start_m : nat.
(** The row of the tile. *)
Variable i : nat.

(** The masked score of the row against the key at position [j] of the
    sequence, as [row_body] computes it in the iteration that covers [j]. *)
Definition S_row (j : nat) : ext :=
  eadd
    (Fin (tl_dot (Kernel.HEAD_DIM a)
            (Kernel.Q_i a cur_seq_idx cur_head_idx block_start_m i)
            (fun d => Kernel.load_block a cur_seq_idx (Kernel.K a)
                        (Kernel.cur_kv_head_idx a cur_head_idx) 0 j d)
          * Kernel.sm_scale a))
    (if j <=? Kernel.offsets_m a block_start_m i then Fin 0 else NegInf).

(** The running maximum once the first [n] keys are folded in. *)
Definition E_row (n : nat) : ext := tl_max n S_row.

(** The weight of key [j] relative to the running maximum over [n] keys. *)
Definition W_row (n j : nat) : R :=
  match E_row n with
  | NegInf => 0%R
  | Fin mx => eexp (esub_fin (S_row j) mx)
  end.

Definition V_row (j d : nat) : R :=
  Kernel.load_block a cur_seq_idx (Kernel.V a)
    (Kernel.cur_kv_head_idx a cur_head_idx) 0 j d.

(** [r] is the state of the row once the first [n] keys are folded in. *)
Definition row_at (n : nat) (r : Kernel.row) : Prop :=
  Kernel.m_i r = E_row n /\
  Kernel.l_i r = tl_sum n (W_row n) /\
  forall d, Kernel.acc r d = tl_sum n (fun j => (W_row n j * V_row j d)%R).

End RowClosedForm.

(** ** The effect of a unit, cell by cell *)

(** A cell of the memory the kernel writes. *)
Inductive cell : Type :=
| OutCell (tk hd d : nat)
| KCell (b hd d sl : nat)
| VCell (b hd d sl : nat).

Definition read (st : Kernel.mem) (x : cell) : R :=
  match x with
  | OutCell tk hd d => Kernel.Out st tk hd d
  | KCell b hd d sl => Kernel.KCache st b hd d sl
  | VCell b hd d sl => Kernel.VCache st b hd d sl
  end.

Section UnitEffect.

Variable a : Kernel.args.
(** The program ids of the unit. *)
Variables s h t : nat.

(** The unit passes both early returns. *)
Definition live : bool :=
  (s <? Kernel.batch_size a) &&
  (t * Kernel.BLOCK_M a <? Kernel.cur_seq_len a s).

(** The unit reaches the cache copy. *)
Definition cache_writer : bool :=
  live && (h mod Kernel.KV_GROUPS a =? 0).

(** The output region of the unit: the rows of its query tile that lie
    inside the sequence, for its head. *)
Definition writes_out (tk hd d : nat) : bool :=
  live && (hd =? h) && (d <? Kernel.HEAD_DIM a)
  && (Kernel.prev_seq_len_sum a s + t * Kernel.BLOCK_M a <=? tk)
  && (tk <? Kernel.prev_seq_len_sum a s + t * Kernel.BLOCK_M a
            + Kernel.BLOCK_M a)
  && (tk <? Kernel.prev_seq_len_sum a s + Kernel.cur_seq_len a s).

(** The cache slots the unit stores to. *)
Definition writes_cache (b hd d sl : nat) : bool :=
  cache_writer
  && (b =? Kernel.cur_block_id a s t)
  && (hd =? Kernel.cur_kv_head_idx a h)
  && (d <? Kernel.HEAD_DIM a)
  && (sl <? Kernel.BLOCK_SIZE a)
  && (sl <? Kernel.cur_seq_len a s - t * Kernel.BLOCK_SIZE a).

Definition writes (x : cell) : bool :=
  match x with
  | OutCell tk hd d => writes_out tk hd d
  | KCell b hd d sl => writes_cache b hd d sl
  | VCell b hd d sl => writes_cache b hd d sl
  end.

(** The state of row [i] after the whole loop, in closed form. *)
Definition row_closed (i : nat) : Kernel.row :=
  let n := (t + 1) * Kernel.BLOCK_N a in
  {| Kernel.m_i := E_row a s h t i n;
     Kernel.l_i := tl_sum n (W_row a s h t i n);
     Kernel.acc := fun d =>
       tl_sum n (fun j => (W_row a s h t i n j * V_row a s h j d)%R) |}.

(** The value the unit stores to a cell of its write set. *)
Definition stored (x : cell) : R :=
  match x with
  | OutCell tk hd d =>
      Kernel.out_row
        (row_closed
           (tk - Kernel.prev_seq_len_sum a s - t * Kernel.BLOCK_M a)) d
  | KCell b hd d sl =>
      Kernel.load_kv a s h t (Kernel.K a) (Kernel.BLOCK_M a) sl d
  | VCell b hd d sl =>
      Kernel.load_kv a s h t (Kernel.V a) (Kernel.BLOCK_N a) sl d
  end.

End UnitEffect.

Definition writes_u (a : Kernel.args) (u : nat * nat * nat) (x : cell)
    : bool :=
  let '(s, h, t) := u in writes a s h t x.

Definition stored_u (a : Kernel.args) (u : nat * nat * nat) (x : cell) : R :=
  let '(s, h, t) := u in stored a s h t x.

(** The last unit of a schedule that stores to a cell, if any. *)
Definition last_writer (a : Kernel.args) (us : list (nat * nat * nat))
    (x : cell) : option (nat * nat * nat) :=
  find (fun u => writes_u a u x) (rev us).

(** ** The precondition contract *)

(** The conditions the wrapper asserts. *)
Definition contract (c : call) : Prop :=
  (Lq c = Lk c /\ Lk c = Lv c) /\
  In (Lk c) [32; 64; 128; 256] /\
  (fst (fst (q_shape c)) = fst (fst (k_shape c)) /\
   fst (fst (k_shape c)) = fst (fst (v_shape c))) /\
  k_cache_shape c = v_cache_shape c /\
  length (context_lengths c) = fst (block_tables_shape c) /\
  (0 < num_kv_heads c /\ num_heads c mod num_kv_heads c = 0) /\
  In (block_size c) [16; 32; 64; 128].

(** The contract with the head condition read as the specification words
    it: the query head count is a positive exact multiple of the kv-head
    count. *)
Definition contract_as_worded (c : call) : Prop :=
  (Lq c = Lk c /\ Lk c = Lv c) /\
  In (Lk c) [32; 64; 128; 256] /\
  (fst (fst (q_shape c)) = fst (fst (k_shape c)) /\
   fst (fst (k_shape c)) = fst (fst (v_shape c))) /\
  k_cache_shape c = v_cache_shape c /\
  length (context_lengths c) = fst (block_tables_shape c) /\
  (0 < num_heads c /\ exists g, num_heads c = g * num_kv_heads c) /\
  In (block_size c) [16; 32; 64; 128].

(** The call raises. *)
Definition fails (r : (error + tensor3) * (tensor4 * tensor4)) : Prop :=
  exists e, fst r = inl e.

(** The memory the launch starts from. *)
Definition initial_mem (c : call) : Kernel.mem :=
  {| Kernel.Out := zeros_like (q c);
     Kernel.KCache := k_cache c;
     Kernel.VCache := v_cache c |}.

(** ** Concrete calls *)

Definition zero3 : tensor3 := fun _ _ _ => 0%R.
Definition zero4 : tensor4 := fun _ _ _ _ => 0%R.
Definition one3 : tensor3 := fun _ _ _ => 1%R.
Definition pad0 : nat -> nat -> R := fun _ _ => 0%R.

(** An empty batch: no tokens, no sequences, no hint. *)
Definition empty_batch_call : call :=
  {| q := zero3; q_shape := (0, 1, 32);
     k := zero3; k_shape := (0, 1, 32);
     v := zero3; v_shape := (0, 1, 32);
     k_cache := zero4; k_cache_shape := (1, 1, 32, 16);
     v_cache := zero4; v_cache_shape := (1, 1, 32, 16);
     context_lengths := [];
     block_tables := fun _ _ => 0; block_tables_shape := (0, 0);
     block_size := 16;
     max_seq_len_in_b := None |}.

(** One token, one kv head, no query head. *)
Definition zero_head_call : call :=
  {| q := zero3; q_shape := (1, 0, 32);
     k := zero3; k_shape := (1, 1, 32);
     v := zero3; v_shape := (1, 1, 32);
     k_cache := zero4; k_cache_shape := (1, 1, 32, 16);
     v_cache := zero4; v_cache_shape := (1, 1, 32, 16);
     context_lengths := [1];
     block_tables := fun _ _ => 0; block_tables_shape := (1, 1);
     block_size := 16;
     max_seq_len_in_b := None |}.

(** Two sequences of 3 and 20 tokens, two query heads on one kv head,
    blocks of 16 tokens; sequence [s] owns the blocks [2 s] and [2 s + 1]. *)
Definition sample_call : call :=
  {| q := one3; q_shape := (23, 2, 32);
     k := one3; k_shape := (23, 1, 32);
     v := one3; v_shape := (23, 1, 32);
     k_cache := zero4; k_cache_shape := (4, 1, 32, 16);
     v_cache := zero4; v_cache_shape := (4, 1, 32, 16);
     context_lengths := [3; 20];
     block_tables := fun s t => 2 * s + t; block_tables_shape := (2, 2);
     block_size := 16;
     max_seq_len_in_b := None |}.

Definition sample_args : Kernel.args := kernel_args sample_call pad0.

(** ** The loop, iteration by iteration *)

(** The loop-carried state after the first [n] iterations. *)
Definition loop_after (a : Kernel.args) (s h t n : nat) : Kernel.loop_state :=
  fold_left (Kernel.loop_body a s h t)
    (firstn n (py_range ((t + 1) * Kernel.BLOCK_M a) (Kernel.BLOCK_N a)))
    Kernel.loop_init.

(** The row maximum [tl.max(S_ij, 1)] of iteration [n] for row [i]. *)
Definition tile_max (a : Kernel.args) (s h t i n : nat) : ext :=
  tl_max (Kernel.BLOCK_N a)
    (fun j => S_row a s h t i (n * Kernel.BLOCK_N a + j)).

(** ** Block tables *)

(** Distinct (sequence, tile) pairs that do real work name distinct
    physical blocks. *)
Definition block_table_injective (a : Kernel.args) : Prop :=
  forall s t s' t',
    live a s t = true -> live a s' t' = true ->
    Kernel.BLOCK_TABLES a s t = Kernel.BLOCK_TABLES a s' t' ->
    s = s' /\ t = t'.

(** ** Bit smearing *)

(** Bit [i] of [y] is set exactly when one of the [w] bits of [x] from
    position [i] upwards is set. *)
Definition smeared (x y w : Z) : Prop :=
  forall i, (0 <= i)%Z ->
    (Z.testbit y i = true <->
     exists j, (0 <= j < w)%Z /\ Z.testbit x (i + j) = true).

(** ** Two runs *)

(** The two calls have the same shapes, context lengths, block table,
    block size and hint. *)
Definition same_launch (c1 c2 : call) : Prop :=
  q_shape c1 = q_shape c2 /\
  k_shape c1 = k_shape c2 /\
  v_shape c1 = v_shape c2 /\
  k_cache_shape c1 = k_cache_shape c2 /\
  v_cache_shape c1 = v_cache_shape c2 /\
  context_lengths c1 = context_lengths c2 /\
  (forall s t, block_tables c1 s t = block_tables c2 s t) /\
  block_tables_shape c1 = block_tables_shape c2 /\
  block_size c1 = block_size c2 /\
  max_seq_len_in_b c1 = max_seq_len_in_b c2.

(** The two calls carry the same Q, K and V vectors at the positions
    [0 .. p] of sequence [s]. *)
Definition agree_through (c1 c2 : call) (s p : nat) : Prop :=
  forall j hd d, j <= p ->
    q c1 (seq_start c1 s + j) hd d = q c2 (seq_start c1 s + j) hd d /\
    k c1 (seq_start c1 s + j) hd d = k c2 (seq_start c1 s + j) hd d /\
    v c1 (seq_start c1 s + j) hd d = v c2 (seq_start c1 s + j) hd d.

(** Tokens 0 .. 9 as in [one3], the later ones changed. *)
Definition altered3 : tensor3 :=
  fun tk _ _ => if tk <? 10 then 1%R else 2%R.

(** [sample_call] with the Q, K and V vectors of the tokens from 10 on
    changed: positions 7 and up of sequence 1. *)
Definition sample_call_altered : call :=
  {| q := altered3; q_shape := (23, 2, 32);
     k := altered3; k_shape := (23, 1, 32);
     v := altered3; v_shape := (23, 1, 32);
     k_cache := zero4; k_cache_shape := (4, 1, 32, 16);
     v_cache := zero4; v_cache_shape := (4, 1, 32, 16);
     context_lengths := [3; 20];
     block_tables := fun s t => 2 * s + t; block_tables_shape := (2, 2);
     block_size := 16;
     max_seq_len_in_b := None |}.

(** [sample_call] with a hint of 16, below the longest context length. *)
Definition sample_call_hinted : call :=
  {| q := one3; q_shape := (23, 2, 32);
     k := one3; k_shape := (23, 1, 32);
     v := one3; v_shape := (23, 1, 32);
     k_cache := zero4; k_cache_shape := (4, 1, 32, 16);
     v_cache := zero4; v_cache_shape := (4, 1, 32, 16);
     context_lengths := [3; 20];
     block_tables := fun s t => 2 * s + t; block_tables_shape := (2, 2);
     block_size := 16;
     max_seq_len_in_b := Some 16 |}.

(** ** The hypothetical kernel in which every query head copies to the cache *)

(** [_fwd_context_paged_attention_kernel] without the guard
    [cur_head_idx % KV_GROUPS == 0] around the cache copy. *)
Definition kernel_write_per_head (a : Kernel.args) (s h t : nat)
    (st : Kernel.mem) : option Kernel.mem :=
  if negb (Kernel.static_asserts a) then None
  else if Kernel.batch_size a <=? s then Some st
  else if Kernel.cur_seq_len a s <=? t * Kernel.BLOCK_M a then Some st
  else
    match Kernel.store_block a s h t (Kernel.BLOCK_M a)
            (Kernel.rows (Kernel.loop_final a s h t)) (Kernel.Out st) with
    | None => None
    | Some O1 =>
        Some {| Kernel.Out := O1;
                Kernel.KCache :=
                  Kernel.store_cache a s h t (Kernel.KCache st)
                    (Kernel.load_kv a s h t (Kernel.K a) (Kernel.BLOCK_M a));
                Kernel.VCache :=
                  Kernel.store_cache a s h t (Kernel.VCache st)
                    (Kernel.load_kv a s h t (Kernel.V a) (Kernel.BLOCK_N a)) |}
    end.

Definition launch_write_per_head (a : Kernel.args)
    (us : list (nat * nat * nat)) (st : Kernel.mem) : bool * Kernel.mem :=
  run_grid (fun u => let '(s, h, t) := u in kernel_write_per_head a s h t) us
    st.

(** The cache slots a unit of the hypothetical kernel stores to. *)
Definition writes_cache_per_head (a : Kernel.args) (s h t : nat)
    (b hd d sl : nat) : bool :=
  live a s t
  && (b =? Kernel.cur_block_id a s t)
  && (hd =? Kernel.cur_kv_head_idx a h)
  && (d <? Kernel.HEAD_DIM a)
  && (sl <? Kernel.BLOCK_SIZE a)
  && (sl <? Kernel.cur_seq_len a s - t * Kernel.BLOCK_SIZE a).

Definition writes_per_head (a : Kernel.args) (u : nat * nat * nat)
    (x : cell) : bool :=
  let '(s, h, t) := u in
  match x with
  | OutCell tk hd d => writes_out a s h t tk hd d
  | KCell b hd d sl => writes_cache_per_head a s h t b hd d sl
  | VCell b hd d sl => writes_cache_per_head a s h t b hd d sl
  end.

(** ** Reference: the whole output tensor *)

(** The sequence and the position inside it of packed token [tk], for the
    context lengths [cl]; [None] past the last sequence. *)
Fixpoint locate (cl : list nat) (tk : nat) : option (nat * nat) :=
  match cl with
  | [] => None
  | len :: rest =>
      if tk <? len then Some (0, tk)
      else
        match locate rest (tk - len) with
        | Some (s, p) => Some (S s, p)
        | None => None
        end
  end.

(** What the call leaves in cell [(tk, hd, d)] of the output tensor when
    the grid has [cdiv msl block_size] query tiles per sequence. *)
Definition expected_out (c : call) (msl : nat) (tk hd d : nat) : R :=
  match locate (context_lengths c) tk with
  | Some (s, p) =>
      if (hd <? num_heads c) && (d <? Lq c)
         && (p / block_size c <? cdiv msl (block_size c))
      then dense_attention c s hd p d
      else 0%R
  | None => 0%R
  end.

(** The call with other cache contents. *)
Definition with_caches (c : call) (kc vc : tensor4) : call :=
  {| q := q c; q_shape := q_shape c;
     k := k c; k_shape := k_shape c;
     v := v c; v_shape := v_shape c;
     k_cache := kc; k_cache_shape := k_cache_shape c;
     v_cache := vc; v_cache_shape := v_cache_shape c;
     context_lengths := context_lengths c;
     block_tables := block_tables c;
     block_tables_shape := block_tables_shape c;
     block_size := block_size c;
     max_seq_len_in_b := max_seq_len_in_b c |}.

(** The call with another hint. *)
Definition with_hint (c : call) (hint : option nat) : call :=
  {| q := q c; q_shape := q_shape c;
     k := k c; k_shape := k_shape c;
     v := v c; v_shape := v_shape c;
     k_cache := k_cache c; k_cache_shape := k_cache_shape c;
     v_cache := v_cache c; v_cache_shape := v_cache_shape c;
     context_lengths := context_lengths c;
     block_tables := block_tables c;
     block_tables_shape := block_tables_shape c;
     block_size := block_size c;
     max_seq_len_in_b := hint |}.

(** The six assertions on shapes, without the one on the block size. *)
Definition shape_asserts (c : call) : Prop :=
  (Lq c = Lk c /\ Lk c = Lv c) /\
  In (Lk c) [32; 64; 128; 256] /\
  (fst (fst (q_shape c)) = fst (fst (k_shape c)) /\
   fst (fst (k_shape c)) = fst (fst (v_shape c))) /\
  k_cache_shape c = v_cache_shape c /\
  length (context_lengths c) = fst (block_tables_shape c) /\
  (0 < num_kv_heads c /\ num_heads c mod num_kv_heads c = 0).

(** An empty batch with a hint. *)
Definition empty_batch_hinted : call := with_hint empty_batch_call (Some 16).

(** [sample_call] with all queries zero. *)
Definition zero_query_call : call :=
  {| q := zero3; q_shape := (23, 2, 32);
     k := one3; k_shape := (23, 1, 32);
     v := one3; v_shape := (23, 1, 32);
     k_cache := zero4; k_cache_shape := (4, 1, 32, 16);
     v_cache := zero4; v_cache_shape := (4, 1, 32, 16);
     context_lengths := [3; 20];
     block_tables := fun s t => 2 * s + t; block_tables_shape := (2, 2);
     block_size := 16;
     max_seq_len_in_b := None |}.

(** ** Observable stores *)

(** A memory that holds [r] in every cell. *)
Definition const_mem (r : R) : Kernel.mem :=
  {| Kernel.Out := fun _ _ _ => r;
     Kernel.KCache := fun _ _ _ _ => r;
     Kernel.VCache := fun _ _ _ _ => r |}.

(** Unit [u] stores to cell [x]: there is a memory on which running the
    kernel for [u] changes the content of [x].  This is read off the
    kernel's result, not off a description of its write set. *)
Definition changes_cell (a : Kernel.args) (u : nat * nat * nat) (x : cell)
    : Prop :=
  exists st st', run_unit a u st = Some st' /\ read st' x <> read st x.

(** ** Float32 values with their infinities and NaN *)

(** The embedding above computes over the reals, so it has no +inf and no
    NaN other than the [None] row.  This part redoes the loop body for
    one query row over float32 values with their special values, to
    follow a score that overflows through the additive mask of the loop.
    A finite float32 is the real number it denotes: overflow is
    modelled, rounding inside the float32 range and the sign of zero are
    not. *)
Inductive f32 : Type :=
| FNaN
| FInf (negative : bool)
| FNum (x : R).

(** Rounding to nearest sends a real of magnitude at or beyond
    (2 - 2^-24) * 2^127 = 2^128 - 2^103 to an infinity. *)
Definition f32_overflow : R := IZR (2 ^ 128 - 2 ^ 103).

Definition f32_round (x : R) : f32 :=
  if Rle_dec f32_overflow x then FInf false
  else if Rle_dec x (- f32_overflow) then FInf true
  else FNum x.

(** The sign bit of a finite value. *)
Definition sign_bit (x : R) : bool := if Rlt_dec x 0 then true else false.

Definition f32_neg (a : f32) : f32 :=
  match a with
  | FNaN => FNaN
  | FInf s => FInf (negb s)
  | FNum x => FNum (- x)
  end.

(** IEEE 754 addition: infinities of opposite sign add up to NaN. *)
Definition f32_add (a b : f32) : f32 :=
  match a, b with
  | FNaN, _ | _, FNaN => FNaN
  | FInf s, FInf s' => if Bool.eqb s s' then FInf s else FNaN
  | FInf s, FNum _ | FNum _, FInf s => FInf s
  | FNum x, FNum y => f32_round (x + y)
  end.

Definition f32_sub (a b : f32) : f32 := f32_add a (f32_neg b).

(** IEEE 754 multiplication: an infinity times zero is NaN. *)
Definition f32_mul (a b : f32) : f32 :=
  match a, b with
  | FNaN, _ | _, FNaN => FNaN
  | FInf s, FInf s' => FInf (xorb s s')
  | FInf s, FNum y | FNum y, FInf s =>
      if Req_dec_T y 0 then FNaN else FInf (xorb s (sign_bit y))
  | FNum x, FNum y => f32_round (x * y)
  end.

(** IEEE 754 division. *)
Definition f32_div (a b : f32) : f32 :=
  match a, b with
  | FNaN, _ | _, FNaN => FNaN
  | FInf _, FInf _ => FNaN
  | FInf s, FNum y => FInf (xorb s (sign_bit y))
  | FNum x, FInf _ => FNum 0
  | FNum x, FNum y =>
      if Req_dec_T y 0
      then if Req_dec_T x 0 then FNaN else FInf (sign_bit x)
      else f32_round (x / y)
  end.

(** [tl.exp]. *)
Definition f32_exp (a : f32) : f32 :=
  match a with
  | FNaN => FNaN
  | FInf true => FNum 0
  | FInf false => FInf false
  | FNum x => f32_round (exp x)
  end.

(** [tl.maximum], also the combining step of [tl.max].  Whether a NaN
    operand wins is left to [propagate_nan]: the hardware maximum returns
    the other operand, a NaN-propagating maximum returns the NaN. *)
Definition f32_maximum (propagate_nan : bool) (a b : f32) : f32 :=
  match a, b with
  | FNaN, FNaN => FNaN
  | FNaN, y => if propagate_nan then FNaN else y
  | x, FNaN => if propagate_nan then FNaN else x
  | FInf false, _ | _, FInf false => FInf false
  | FInf true, y => y
  | x, FInf true => x
  | FNum x, FNum y => FNum (Rmax x y)
  end.

(** [tl.sum(x, 1)] over the first [n] entries of a row. *)
Fixpoint f32_sum (n : nat) (f : nat -> f32) : f32 :=
  match n with
  | 0 => FNum 0
  | S j => f32_add (f32_sum j f) (f j)
  end.

(** [tl.max(x, 1)] over the first [n] entries of a row. *)
Fixpoint f32_max (propagate_nan : bool) (n : nat) (f : nat -> f32) : f32 :=
  match n with
  | 0 => FInf true
  | S j => f32_maximum propagate_nan (f32_max propagate_nan j f) (f j)
  end.

(** One entry of [tl.dot]. *)
Definition f32_dot (n : nat) (a b : nat -> f32) : f32 :=
  f32_sum n (fun j => f32_mul (a j) (b j)).

(** Running statistics of one query row, in float32. *)
Record f32_row : Type := {
  f32_m_i : f32;
  f32_l_i : f32;
  f32_acc : nat -> f32
}.

Section Float32Row.

Variable propagate_nan : bool.
Variables HEAD_DIM BLOCK_N : nat.
Variable sm_scale : f32.
(** The query row and its position [offsets_m] in the sequence. *)
Variable q_row : nat -> f32.
Variable offset_m : nat.

(** The loop body on that row, statement by statement as in
    [Kernel.row_body]; [k] is indexed [(d, j)] and [v] is indexed
    [(j, d)]. *)
Definition f32_row_body (block_start_n : nat) (k v : nat -> nat -> f32)
    (r : f32_row) : f32_row :=
  let S_ij := fun j =>
    f32_add (f32_mul (f32_dot HEAD_DIM q_row (fun d => k d j)) sm_scale)
            (if block_start_n + j <=? offset_m then FNum 0 else FInf true) in
  let m_ij :=
    f32_maximum propagate_nan (f32_m_i r)
      (f32_max propagate_nan BLOCK_N S_ij) in
  let p_ij_hat := fun j => f32_exp (f32_sub (S_ij j) m_ij) in
  let scale := f32_exp (f32_sub (f32_m_i r) m_ij) in
  let l_ij := f32_add (f32_mul scale (f32_l_i r)) (f32_sum BLOCK_N p_ij_hat) in
  let acc1 := fun d => f32_mul (f32_acc r d) scale in
  let acc2 := fun d =>
    f32_add (acc1 d) (f32_dot BLOCK_N p_ij_hat (fun j => v j d)) in
  {| f32_m_i := m_ij; f32_l_i := l_ij; f32_acc := acc2 |}.

End Float32Row.

(** [m_i], [l_i] and [acc] before the loop. *)
Definition f32_row_init : f32_row :=
  {| f32_m_i := FInf true; f32_l_i := FNum 0; f32_acc := fun _ => FNum 0 |}.

(** [acc = acc / l_i[:, None]], the row that is stored. *)
Definition f32_out_row (r : f32_row) (d : nat) : f32 :=
  f32_div (f32_acc r d) (f32_l_i r).

(** One sequence of 16 tokens with head dimension 32 and blocks of 16
    tokens: the query tile 0 meets one key tile, so its loop runs once.
    All query, key and value entries are 1; in the altered run the key
    vector of the last token, position 15, is 3e38 in every entry. *)
Definition f32_big : R := IZR (3 * 10 ^ 38).

Definition f32_ones : nat -> f32 := fun _ => FNum 1.

Definition f32_keys : nat -> nat -> f32 := fun _ _ => FNum 1.

Definition f32_keys_altered : nat -> nat -> f32 :=
  fun _ j => if j =? 15 then FNum f32_big else FNum 1.

Definition f32_values : nat -> nat -> f32 := fun _ _ => FNum 1.

(** The row of query position 0 after the loop. *)
Definition f32_row0 (propagate_nan : bool) (k : nat -> nat -> f32)
    : f32_row :=
  f32_row_body propagate_nan 32 16 (FNum (1 / sqrt (INR 32))) f32_ones 0
    0 k f32_values f32_row_init.

(** * Properties *)

(** ** Extended reals and reductions *)

Lemma emax_assoc (x y z : ext) : emax x (emax y z) = emax (emax x y) z.
Proof.
  destruct x, y, z; simpl; try reflexivity.
  now rewrite Rmax_assoc.
Qed.

Lemma emax_NegInf_r (x : ext) : emax x NegInf = x.
Proof. now destruct x. Qed.

Lemma ele_refl (x : ext) : ele x x.
Proof. destruct x; simpl; auto. apply Rle_refl. Qed.

Lemma ele_trans (x y z : ext) : ele x y -> ele y z -> ele x z.
Proof.
  destruct x, y, z; simpl; auto; try contradiction.
  apply Rle_trans.
Qed.

Lemma ele_emax_l (x y : ext) : ele x (emax x y).
Proof.
  destruct x, y; simpl; auto; [apply Rle_refl | apply Rmax_l].
Qed.

Lemma ele_emax_r (x y : ext) : ele y (emax x y).
Proof.
  destruct x, y; simpl; auto; [apply Rle_refl | apply Rmax_r].
Qed.

Lemma tl_sum_ext (n : nat) (f g : nat -> R) :
  (forall j, j < n -> f j = g j) -> tl_sum n f = tl_sum n g.
Proof.
  induction n as [|n IH]; intros H; simpl; [reflexivity|].
  rewrite IH by (intros; apply H; lia).
  now rewrite (H n) by lia.
Qed.

Lemma tl_sum_app (n b : nat) (f : nat -> R) :
  tl_sum (n + b) f = (tl_sum n f + tl_sum b (fun j => f (n + j)%nat))%R.
Proof.
  induction b as [|b IH]; simpl.
  - rewrite Nat.add_0_r. lra.
  - rewrite Nat.add_succ_r. simpl. rewrite IH. lra.
Qed.

Lemma tl_sum_scal (n : nat) (x : R) (f : nat -> R) :
  (x * tl_sum n f)%R = tl_sum n (fun j => (x * f j)%R).
Proof.
  induction n as [|n IH]; simpl; [lra|].
  rewrite <- IH. lra.
Qed.

Lemma tl_sum_zero (n : nat) (f : nat -> R) :
  (forall j, j < n -> f j = 0%R) -> tl_sum n f = 0%R.
Proof.
  induction n as [|n IH]; intros H; simpl; [reflexivity|].
  rewrite IH by (intros; apply H; lia).
  rewrite (H n) by lia. lra.
Qed.

Lemma tl_max_ext (n : nat) (f g : nat -> ext) :
  (forall j, j < n -> f j = g j) -> tl_max n f = tl_max n g.
Proof.
  induction n as [|n IH]; intros H; simpl; [reflexivity|].
  rewrite IH by (intros; apply H; lia).
  now rewrite (H n) by lia.
Qed.

Lemma tl_max_app (n b : nat) (f : nat -> ext) :
  tl_max (n + b) f = emax (tl_max n f) (tl_max b (fun j => f (n + j))).
Proof.
  induction b as [|b IH]; simpl.
  - now rewrite Nat.add_0_r, emax_NegInf_r.
  - rewrite Nat.add_succ_r. simpl. now rewrite IH, emax_assoc.
Qed.

Lemma emax_NegInf_inv (x y : ext) :
  emax x y = NegInf -> x = NegInf /\ y = NegInf.
Proof. destruct x, y; simpl; intros H; try discriminate; auto. Qed.

Lemma tl_max_NegInf (n : nat) (f : nat -> ext) :
  tl_max n f = NegInf -> forall j, j < n -> f j = NegInf.
Proof.
  induction n as [|n IH]; simpl; intros H j Hj; [lia|].
  apply emax_NegInf_inv in H. destruct H as [H1 H2].
  destruct (Nat.eq_dec j n) as [->|]; [assumption|].
  apply IH; [assumption | lia].
Qed.

Lemma tl_max_ge (n : nat) (f : nat -> ext) (j : nat) :
  j < n -> ele (f j) (tl_max n f).
Proof.
  induction n as [|n IH]; simpl; intros Hj; [lia|].
  destruct (Nat.eq_dec j n) as [->|].
  - apply ele_emax_r.
  - eapply ele_trans; [apply IH; lia | apply ele_emax_l].
Qed.

Lemma tl_max_mono (n n' : nat) (f : nat -> ext) :
  n <= n' -> ele (tl_max n f) (tl_max n' f).
Proof.
  intros H. replace n' with (n + (n' - n)) by lia.
  rewrite tl_max_app. apply ele_emax_l.
Qed.

(** Rebasing a weight from one maximum to a later one. *)
Lemma eexp_rebase (x : ext) (m m' : R) :
  (exp (m - m') * eexp (esub_fin x m))%R = eexp (esub_fin x m').
Proof.
  destruct x as [|y]; simpl; [lra|].
  rewrite <- exp_plus. f_equal. lra.
Qed.

(** ** The online-softmax loop, row by row *)

Section RowFacts.

Variable a : Kernel.args.
Variables s h t : nat.
Variable i : nat.

Let kvh := Kernel.cur_kv_head_idx a h.
Let B := Kernel.BLOCK_N a.

(** The loop body in terms of the masked scores [S_row]. *)
Lemma row_body_eq (n : nat) (r : Kernel.row) :
  Kernel.row_body a s h t n
    (fun d j => Kernel.load_block a s (Kernel.K a) kvh n j d)
    (Kernel.load_block a s (Kernel.V a) kvh n) i r =
  match emax (Kernel.m_i r) (tl_max B (fun j => S_row a s h t i (n + j))) with
  | NegInf => None
  | Fin mx =>
      Some {| Kernel.m_i :=
                emax (Kernel.m_i r)
                     (tl_max B (fun j => S_row a s h t i (n + j)));
              Kernel.l_i :=
                (eexp (esub_fin (Kernel.m_i r) mx) * Kernel.l_i r +
                 tl_sum B (fun j =>
                   eexp (esub_fin (S_row a s h t i (n + j)) mx)))%R;
              Kernel.acc := fun d =>
                (Kernel.acc r d * eexp (esub_fin (Kernel.m_i r) mx) +
                 tl_dot B
                   (fun j => eexp (esub_fin (S_row a s h t i (n + j)) mx))
                   (fun j => V_row a s h (n + j) d))%R |}
  end.
Proof. reflexivity. Qed.

Lemma S_row_0_finite : exists x, S_row a s h t i 0 = Fin x.
Proof. unfold S_row. simpl. eexists. reflexivity. Qed.

Lemma E_row_finite (n : nat) : 0 < n -> exists mx, E_row a s h t i n = Fin mx.
Proof.
  intros Hn. destruct S_row_0_finite as [x Hx].
  pose proof (tl_max_ge n (S_row a s h t i) 0 Hn) as Hle.
  rewrite Hx in Hle. unfold E_row.
  destruct (tl_max n (S_row a s h t i)) as [|mx]; [contradiction|].
  now exists mx.
Qed.

(** Rebasing the weights of the first [n] keys to the maximum over the
    first [n + b] keys. *)
Lemma W_row_rebase (n b j : nat) (mx : R) :
  E_row a s h t i (n + b) = Fin mx -> j < n ->
  (eexp (esub_fin (E_row a s h t i n) mx) * W_row a s h t i n j)%R =
  eexp (esub_fin (S_row a s h t i j) mx).
Proof.
  intros HE Hj. unfold W_row.
  destruct (E_row a s h t i n) as [|m0] eqn:E0.
  - simpl. rewrite (tl_max_NegInf _ _ E0 j Hj). simpl. lra.
  - simpl. apply eexp_rebase.
Qed.

(** One iteration carries the row from [n] keys to [n + BLOCK_N] keys. *)
Lemma row_body_step (n : nat) (r : Kernel.row) :
  0 < n + B ->
  row_at a s h t i n r ->
  exists r',
    Kernel.row_body a s h t n
      (fun d j => Kernel.load_block a s (Kernel.K a) kvh n j d)
      (Kernel.load_block a s (Kernel.V a) kvh n) i r = Some r' /\
    row_at a s h t i (n + B) r'.
Proof.
  intros Hpos (Hm & Hl & Hacc).
  rewrite row_body_eq, Hm.
  assert (HE : emax (E_row a s h t i n)
                 (tl_max B (fun j => S_row a s h t i (n + j))) =
               E_row a s h t i (n + B)).
  { unfold E_row. now rewrite tl_max_app. }
  rewrite HE.
  destruct (E_row_finite (n + B) Hpos) as [mx Hmx]. rewrite Hmx.
  eexists. split; [reflexivity|].
  assert (HW : forall j, W_row a s h t i (n + B) j =
                         eexp (esub_fin (S_row a s h t i j) mx)).
  { intros j. unfold W_row. now rewrite Hmx. }
  repeat split; simpl.
  - now rewrite Hmx.
  - rewrite Hl, tl_sum_app, tl_sum_scal. f_equal.
    + apply tl_sum_ext. intros j Hj. rewrite HW.
      now apply W_row_rebase with (b := B).
    + apply tl_sum_ext. intros j _. now rewrite HW.
  - intros d. rewrite Hacc, tl_sum_app.
    rewrite Rmult_comm, tl_sum_scal. unfold tl_dot. f_equal.
    + apply tl_sum_ext. intros j Hj. rewrite HW, <- Rmult_assoc.
      now rewrite (W_row_rebase n B j mx Hmx Hj).
    + apply tl_sum_ext. intros j _. now rewrite HW.
Qed.

End RowFacts.

(** ** The loop over the key tiles *)

Lemma cdiv_mul (n b : nat) : 0 < b -> cdiv (n * b) b = n.
Proof.
  intros Hb. unfold cdiv. symmetry.
  apply Nat.div_unique with (r := b - 1); lia.
Qed.

Lemma cdiv_spec (x b : nat) :
  0 < b -> cdiv x b * b < x + b /\ x <= cdiv x b * b.
Proof.
  intros Hb. unfold cdiv.
  pose proof (Nat.div_mod_eq (x + b - 1) b) as E.
  pose proof (Nat.mod_upper_bound (x + b - 1) b ltac:(lia)) as U.
  split; nia.
Qed.

Lemma cdiv_lt (x b j : nat) : 0 < b -> j * b < x -> j < cdiv x b.
Proof.
  intros Hb Hj. destruct (cdiv_spec x b Hb) as [_ H]. nia.
Qed.

Section LoopFacts.

Variable a : Kernel.args.
Variables s h t : nat.

Let B := Kernel.BLOCK_N a.

Lemma loop_prefix (n : nat) :
  0 < B ->
  let st := fold_left (Kernel.loop_body a s h t)
              (map (fun j => j * B) (seq 0 n)) Kernel.loop_init in
  Kernel.K_block_ptr st = n * B /\
  Kernel.V_block_ptr st = n * B /\
  forall i, exists r, Kernel.rows st i = Some r /\ row_at a s h t i (n * B) r.
Proof.
  intros HB. induction n as [|n IH].
  - simpl. repeat split. intros i. eexists. split; [reflexivity|].
    repeat split.
  - rewrite seq_S, map_app, fold_left_app. simpl.
    destruct IH as (HK & HV & Hrows).
    set (st := fold_left (Kernel.loop_body a s h t)
                 (map (fun j => j * B) (seq 0 n)) Kernel.loop_init) in *.
    unfold Kernel.loop_body. simpl.
    rewrite HK, HV. fold B. repeat split; try lia.
    intros i. destruct (Hrows i) as (r & Hr & Hat). rewrite Hr.
    destruct (row_body_step a s h t i (n * B) r ltac:(fold B; lia) Hat)
      as (r' & Hr' & Hat').
    exists r'. split; [exact Hr'|].
    fold B in Hat'. now replace (B + n * B) with (n * B + B) by lia.
Qed.

Lemma loop_final_rows (i : nat) :
  Kernel.BLOCK_M a = B -> 0 < B ->
  exists r, Kernel.rows (Kernel.loop_final a s h t) i = Some r /\
            row_at a s h t i ((t + 1) * B) r.
Proof.
  intros HM HB. unfold Kernel.loop_final, py_range.
  rewrite HM. fold B. rewrite cdiv_mul by assumption.
  destruct (loop_prefix (t + 1) HB) as (_ & _ & H). apply H.
Qed.

End LoopFacts.

(** ** One unit is a blind write *)

(** Case analysis on every comparison of the goal. *)
Ltac cmp_cases :=
  repeat match goal with
  | |- context [Nat.eqb ?x ?y] => destruct (Nat.eqb_spec x y)
  | |- context [Nat.ltb ?x ?y] => destruct (Nat.ltb_spec x y)
  | |- context [Nat.leb ?x ?y] => destruct (Nat.leb_spec x y)
  end; simpl; try reflexivity; try lia; try congruence.

Section UnitFacts.

Variable a : Kernel.args.
Variables s h t : nat.

Let B := Kernel.BLOCK_N a.
Let prev := Kernel.prev_seq_len_sum a s.
Let len := Kernel.cur_seq_len a s.

Lemma out_row_closed (i : nat) (r : Kernel.row) (d : nat) :
  row_at a s h t i ((t + 1) * B) r ->
  Kernel.out_row r d = Kernel.out_row (row_closed a s h t i) d.
Proof.
  intros (_ & Hl & Hacc). unfold Kernel.out_row, row_closed. simpl.
  fold B. now rewrite Hl, Hacc.
Qed.

Lemma store_block_spec (n : nat) (rs : nat -> option Kernel.row)
    (T : tensor3) :
  (forall i, i < n ->
     exists r, rs i = Some r /\ row_at a s h t i ((t + 1) * B) r) ->
  exists T',
    Kernel.store_block a s h t n rs T = Some T' /\
    forall tk hd d,
      T' tk hd d =
      if (hd =? h) && (d <? Kernel.HEAD_DIM a)
         && (prev + t * Kernel.BLOCK_M a <=? tk)
         && (tk <? prev + t * Kernel.BLOCK_M a + n)
         && (tk <? prev + len)
      then Kernel.out_row
             (row_closed a s h t (tk - prev - t * Kernel.BLOCK_M a)) d
      else T tk hd d.
Proof.
  induction n as [|n IH]; intros Hrs.
  - exists T. split; [reflexivity|]. intros tk hd d. cmp_cases.
  - destruct IH as (T1 & HT1 & Hspec); [intros; apply Hrs; lia|].
    simpl. rewrite HT1. unfold Kernel.offsets_m. fold len prev.
    destruct (Nat.ltb_spec (t * Kernel.BLOCK_M a + n) len) as [Hin|Hout].
    + destruct (Hrs n ltac:(lia)) as (r & Hr & Hat). rewrite Hr.
      eexists. split; [reflexivity|]. intros tk hd d.
      unfold Kernel.store_row. rewrite Hspec.
      rewrite (out_row_closed n r d Hat).
      cmp_cases.
      replace (tk - prev - t * Kernel.BLOCK_M a) with n by lia.
      reflexivity.
    + exists T1. split; [reflexivity|]. intros tk hd d. rewrite Hspec.
      cmp_cases.
Qed.

(** A unit completes, and changes exactly the cells of its write set. *)
Lemma kernel_effect (st : Kernel.mem) :
  Kernel.static_asserts a = true -> 0 < B ->
  exists st',
    Kernel._fwd_context_paged_attention_kernel a s h t st = Some st' /\
    forall x, read st' x =
              if writes a s h t x then stored a s h t x else read st x.
Proof.
  intros Hsa HB. unfold Kernel._fwd_context_paged_attention_kernel.
  rewrite Hsa. simpl.
  unfold Kernel.static_asserts in Hsa.
  apply andb_true_iff in Hsa. destruct Hsa as [HMN HNS].
  apply Nat.eqb_eq in HMN, HNS. fold B in HMN, HNS.
  destruct (Nat.leb_spec (Kernel.batch_size a) s) as [Hs|Hs].
  { exists st. split; [reflexivity|]. intros x.
    assert (Hl : live a s t = false).
    { unfold live. apply andb_false_iff. left. now apply Nat.ltb_ge. }
    destruct x; simpl; unfold writes_out, writes_cache, cache_writer;
      now rewrite Hl. }
  fold len.
  destruct (Nat.leb_spec len (t * Kernel.BLOCK_M a)) as [Ht|Ht].
  { exists st. split; [reflexivity|]. intros x.
    assert (Hl : live a s t = false).
    { unfold live. apply andb_false_iff. right. now apply Nat.ltb_ge. }
    destruct x; simpl; unfold writes_out, writes_cache, cache_writer;
      now rewrite Hl. }
  assert (Hl : live a s t = true).
  { unfold live. apply andb_true_iff. split; now apply Nat.ltb_lt. }
  destruct (store_block_spec (Kernel.BLOCK_M a)
              (Kernel.rows (Kernel.loop_final a s h t)) (Kernel.Out st))
    as (T' & HT' & Hspec).
  { intros i _. apply loop_final_rows; assumption. }
  rewrite HT'.
  destruct (Nat.eqb_spec (h mod Kernel.KV_GROUPS a) 0) as [Hg|Hg].
  - eexists. split; [reflexivity|]. intros x.
    destruct x as [tk hd d|b hd d sl|b hd d sl]; simpl.
    + rewrite Hspec. unfold writes_out. rewrite Hl. fold prev len. simpl.
      reflexivity.
    + unfold Kernel.store_cache, writes_cache, cache_writer.
      rewrite Hl, Hg. simpl. reflexivity.
    + unfold Kernel.store_cache, writes_cache, cache_writer.
      rewrite Hl, Hg. simpl. reflexivity.
  - eexists. split; [reflexivity|]. intros x.
    destruct x as [tk hd d|b hd d sl|b hd d sl]; simpl.
    + rewrite Hspec. unfold writes_out. rewrite Hl. fold prev len. simpl.
      reflexivity.
    + unfold writes_cache, cache_writer. rewrite Hl.
      destruct (Nat.eqb_spec (h mod Kernel.KV_GROUPS a) 0); [lia|].
      reflexivity.
    + unfold writes_cache, cache_writer. rewrite Hl.
      destruct (Nat.eqb_spec (h mod Kernel.KV_GROUPS a) 0); [lia|].
      reflexivity.
Qed.

End UnitFacts.

(** ** The launch: the last writer of a cell decides its content *)

Lemma find_snoc {A : Type} (f : A -> bool) (l : list A) (x : A) :
  find f (l ++ [x]) =
  match find f l with
  | Some y => Some y
  | None => if f x then Some x else None
  end.
Proof.
  induction l as [|y l IH]; simpl; [reflexivity|].
  destruct (f y); [reflexivity | exact IH].
Qed.

(** A schedule of blind writes: each cell ends with what its last writer
    stored. *)
Lemma run_grid_effect
    (run : nat * nat * nat -> Kernel.mem -> option Kernel.mem)
    (w : nat * nat * nat -> cell -> bool)
    (val : nat * nat * nat -> cell -> R) :
  (forall u st, exists st',
     run u st = Some st' /\
     forall x, read st' x = if w u x then val u x else read st x) ->
  forall us st, exists st',
    run_grid run us st = (true, st') /\
    forall x, read st' x =
              match find (fun u => w u x) (rev us) with
              | Some u => val u x
              | None => read st x
              end.
Proof.
  intros Hrun. induction us as [|u us IH]; intros st.
  - exists st. split; [reflexivity|]. intros x. reflexivity.
  - simpl. destruct (Hrun u st) as (st1 & Hst1 & Hrd1).
    rewrite Hst1. destruct (IH st1) as (st' & Hst' & Hrd').
    exists st'. split; [exact Hst'|]. intros x.
    rewrite Hrd', find_snoc.
    destruct (find (fun u0 => w u0 x) (rev us)); [reflexivity|].
    rewrite Hrd1. destruct (w u x); reflexivity.
Qed.

Lemma launch_effect (a : Kernel.args) (us : list (nat * nat * nat)) :
  Kernel.static_asserts a = true -> 0 < Kernel.BLOCK_N a ->
  forall st, exists st',
    launch a us st = (true, st') /\
    forall x, read st' x =
              match last_writer a us x with
              | Some u => stored_u a u x
              | None => read st x
              end.
Proof.
  intros Hsa HB. apply run_grid_effect.
  intros [[s h] t] st. apply kernel_effect; assumption.
Qed.

Lemma in_grid_units (g0 g1 g2 s h t : nat) :
  In (s, h, t) (grid_units (g0, g1, g2)) <-> s < g0 /\ h < g1 /\ t < g2.
Proof.
  unfold grid_units. rewrite in_flat_map. split.
  - intros (s' & Hs' & H). apply in_flat_map in H.
    destruct H as (h' & Hh' & H). apply in_map_iff in H.
    destruct H as (t' & E & Ht'). inversion E; subst.
    apply in_seq in Hs', Hh', Ht'. lia.
  - intros (Hs & Hh & Ht). exists s. split; [apply in_seq; lia|].
    apply in_flat_map. exists h. split; [apply in_seq; lia|].
    apply in_map_iff. exists t. split; [reflexivity | apply in_seq; lia].
Qed.

(** A cell no unit of the schedule writes keeps its content; a cell some
    unit writes holds what its last writer stored. *)
Lemma last_writer_none (a : Kernel.args) (us : list (nat * nat * nat))
    (x : cell) :
  last_writer a us x = None <->
  forall u, In u us -> writes_u a u x = false.
Proof.
  unfold last_writer. split.
  - intros H u Hu. apply (find_none _ _ H). now apply in_rev in Hu.
  - intros H. destruct (find _ (rev us)) as [u|] eqn:E; [|reflexivity].
    apply find_some in E. destruct E as [Hin Hw].
    apply in_rev in Hin. rewrite (H u Hin) in Hw. discriminate.
Qed.

Lemma last_writer_some (a : Kernel.args) (us : list (nat * nat * nat))
    (x : cell) (u : nat * nat * nat) :
  last_writer a us x = Some u -> In u us /\ writes_u a u x = true.
Proof.
  unfold last_writer. intros H. apply find_some in H.
  destruct H as [Hin Hw]. split; [now apply in_rev | exact Hw].
Qed.

(** ** The host wrapper *)

Lemma in_set_spec (x : nat) (l : list nat) : in_set x l = true <-> In x l.
Proof.
  unfold in_set. rewrite existsb_exists. split.
  - intros (y & Hy & E). apply Nat.eqb_eq in E. now subst.
  - intros H. exists x. split; [assumption | apply Nat.eqb_refl].
Qed.

Lemma shape4_eqb_spec (x y : nat * nat * nat * nat) :
  shape4_eqb x y = true <-> x = y.
Proof.
  destruct x as [[[x0 x1] x2] x3], y as [[[y0 y1] y2] y3]. simpl.
  rewrite !andb_true_iff, !Nat.eqb_eq. split.
  - intros [[[-> ->] ->] ->]. reflexivity.
  - intros E. inversion E. auto.
Qed.

(** The six assertions and the block-size assertion, as one boolean. *)
Lemma contract_checks (c : call) :
  contract c <->
  ((Lq c =? Lk c) && (Lk c =? Lv c) = true /\
   in_set (Lk c) [32; 64; 128; 256] = true /\
   (fst (fst (q_shape c)) =? fst (fst (k_shape c)))
   && (fst (fst (k_shape c)) =? fst (fst (v_shape c))) = true /\
   shape4_eqb (k_cache_shape c) (v_cache_shape c) = true /\
   (length (context_lengths c) =? fst (block_tables_shape c)) = true /\
   (0 <? num_kv_heads c) && (num_heads c mod num_kv_heads c =? 0) = true /\
   in_set (block_size c) [16; 32; 64; 128] = true).
Proof.
  unfold contract.
  rewrite !andb_true_iff, !Nat.eqb_eq, !in_set_spec, shape4_eqb_spec,
    Nat.ltb_lt.
  tauto.
Qed.

(** What the wrapper does once the contract holds. *)
Lemma wrapper_accepts (pad : nat -> nat -> R) (c : call) (msl : nat) :
  contract c -> max_seq_len c = Some msl ->
  exists st',
    launch (kernel_args c pad) (grid_units (grid c msl)) (initial_mem c)
      = (true, st') /\
    context_attention_unpadded pad c =
      (inr (Kernel.Out st'), (Kernel.KCache st', Kernel.VCache st')) /\
    forall x, read st' x =
      match last_writer (kernel_args c pad) (grid_units (grid c msl)) x with
      | Some u => stored_u (kernel_args c pad) u x
      | None => read (initial_mem c) x
      end.
Proof.
  intros Hc Hmsl.
  pose proof Hc as Hc'. apply contract_checks in Hc'.
  destruct Hc' as (H1 & H2 & H3 & H4 & H5 & H6 & H7).
  assert (Hbs : 0 < block_size c).
  { destruct Hc as (_ & _ & _ & _ & _ & _ & Hb). simpl in Hb.
    intuition lia. }
  destruct (launch_effect (kernel_args c pad) (grid_units (grid c msl)))
    with (st := initial_mem c) as (st' & Hl & Hrd).
  { unfold Kernel.static_asserts. simpl. now rewrite Nat.eqb_refl. }
  { exact Hbs. }
  exists st'. split; [exact Hl|]. split; [|exact Hrd].
  unfold context_attention_unpadded.
  rewrite H1, H2, H3, H4, H5, H6, Hmsl, H7. simpl negb. cbv iota.
  fold (initial_mem c). now rewrite Hl.
Qed.

Lemma max_seq_len_none (c : call) :
  max_seq_len c = None <->
  context_lengths c = [] /\ max_seq_len_in_b c = None.
Proof.
  unfold max_seq_len.
  destruct (max_seq_len_in_b c), (context_lengths c); split;
    intros H; try discriminate; try (destruct H; discriminate); auto.
Qed.

(** A call outside the contract, or one whose maximum cannot be taken,
    raises before the launch. *)
Lemma wrapper_rejects (pad : nat -> nat -> R) (c : call) :
  ~ contract c \/ max_seq_len c = None ->
  (fst (context_attention_unpadded pad c) = inl AssertionError \/
   fst (context_attention_unpadded pad c) = inl RuntimeError) /\
  snd (context_attention_unpadded pad c) = (k_cache c, v_cache c).
Proof.
  intros H. rewrite contract_checks in H.
  unfold context_attention_unpadded.
  destruct (max_seq_len c) as [msl|] eqn:Em.
  all: repeat match goal with
  | |- context [if negb ?b then _ else _] =>
      destruct b eqn:?;
      [change (negb true) with false | change (negb false) with true];
      cbv iota
  end.
  all: try (cbv beta iota delta [fst snd]; auto; fail).
  exfalso. destruct H as [H|H]; [|discriminate].
  apply H. repeat split; reflexivity.
Qed.

Lemma contract_decidable (c : call) : contract c \/ ~ contract c.
Proof.
  rewrite contract_checks.
  repeat match goal with
  | |- context [?b = true] =>
      match b with
      | true => fail 1
      | false => fail 1
      | _ => destruct b
      end
  end; intuition discriminate.
Qed.

(** C5, amended: the wrapper raises, before the launch and with both
    caches as they were, exactly when one of its asserted conditions fails
    (equal head dimensions in {32, 64, 128, 256}; equal token counts;
    identical cache shapes; as many context lengths as block-table rows; a
    positive kv-head count dividing the query head count; a block size in
    {16, 32, 64, 128}) or when the context-length array is empty and no
    maximum sequence length is supplied. *)
Theorem precondition_contract_enforced (pad : nat -> nat -> R) (c : call) :
  (fails (context_attention_unpadded pad c) <->
   ~ contract c \/
   (context_lengths c = [] /\ max_seq_len_in_b c = None)) /\
  (fails (context_attention_unpadded pad c) ->
   (fst (context_attention_unpadded pad c) = inl AssertionError \/
    fst (context_attention_unpadded pad c) = inl RuntimeError) /\
   snd (context_attention_unpadded pad c) = (k_cache c, v_cache c)).
Proof.
  assert (Hcase :
    (contract c /\ exists msl, max_seq_len c = Some msl) \/
    (~ contract c \/ max_seq_len c = None)).
  { destruct (contract_decidable c) as [Hc|Hc]; [|auto].
    destruct (max_seq_len c) as [msl|] eqn:E; [|auto].
    left. split; [assumption | now exists msl]. }
  destruct Hcase as [[Hc [msl Hm]]|Hrej].
  - destruct (wrapper_accepts pad c msl Hc Hm) as (st' & _ & Hw & _).
    assert (Hnf : ~ fails (context_attention_unpadded pad c)).
    { intros [e He]. rewrite Hw in He. discriminate. }
    split; [|intros Hf; contradiction].
    split; [intros Hf; contradiction|].
    intros [Hn|Hn]; [contradiction|].
    apply max_seq_len_none in Hn. congruence.
  - destruct (wrapper_rejects pad c Hrej) as [He Hs].
    assert (Hf : fails (context_attention_unpadded pad c)).
    { destruct He as [He|He]; eexists; exact He. }
    split; [|intros _; split; assumption].
    split; [|intros _; exact Hf].
    intros _. destruct Hrej as [Hn|Hn]; [now left|].
    right. now apply max_seq_len_none.
Qed.

(** C5 as worded fails in both directions: an empty batch without a hint
    raises although every listed condition holds, and a call with no query
    head returns although its query head count is not a positive multiple
    of its kv-head count. *)
Lemma precondition_contract_not_exact :
  (contract_as_worded empty_batch_call /\
   fails (context_attention_unpadded pad0 empty_batch_call)) /\
  (~ contract_as_worded zero_head_call /\
   ~ fails (context_attention_unpadded pad0 zero_head_call)).
Proof.
  split; split.
  - unfold contract_as_worded. simpl.
    repeat split; auto. exists 1. reflexivity.
  - exists RuntimeError. reflexivity.
  - unfold contract_as_worded. simpl. intros H.
    destruct H as (_ & _ & _ & _ & _ & [H _] & _).
    unfold num_heads in H. simpl in H. lia.
  - intros [e He].
    destruct (wrapper_accepts pad0 zero_head_call 1) as (st' & _ & Hw & _).
    + unfold contract. simpl. repeat split; auto.
    + reflexivity.
    + rewrite Hw in He. discriminate.
Qed.

(** ** The running maximum *)

Lemma firstn_seq_min (n start len : nat) :
  firstn n (seq start len) = seq start (Nat.min n len).
Proof.
  revert start len. induction n as [|n IH]; intros start len.
  - reflexivity.
  - destruct len as [|len]; simpl; [reflexivity|]. now rewrite IH.
Qed.

Lemma loop_after_prefix (a : Kernel.args) (s h t n : nat) :
  Kernel.BLOCK_M a = Kernel.BLOCK_N a -> 0 < Kernel.BLOCK_N a ->
  n <= t + 1 ->
  loop_after a s h t n =
  fold_left (Kernel.loop_body a s h t)
    (map (fun j => j * Kernel.BLOCK_N a) (seq 0 n)) Kernel.loop_init.
Proof.
  intros HM HB Hn. unfold loop_after, py_range.
  rewrite HM, cdiv_mul by assumption.
  rewrite firstn_map, firstn_seq_min. now rewrite Nat.min_l by assumption.
Qed.

Lemma loop_after_final (a : Kernel.args) (s h t : nat) :
  loop_after a s h t
    (length (py_range ((t + 1) * Kernel.BLOCK_M a) (Kernel.BLOCK_N a))) =
  Kernel.loop_final a s h t.
Proof. unfold loop_after. now rewrite firstn_all. Qed.

(** C9: within one unit's loop over the key tiles, every row starts with
    the running maximum at -inf, and each iteration replaces it by the
    maximum of itself and the tile's row maximum, which is at least the
    previous running maximum. *)
Theorem running_max_nondecreasing (a : Kernel.args) (s h t i : nat) :
  Kernel.BLOCK_M a = Kernel.BLOCK_N a -> 0 < Kernel.BLOCK_N a ->
  (exists r0, Kernel.rows (loop_after a s h t 0) i = Some r0 /\
              Kernel.m_i r0 = NegInf) /\
  forall n,
    n < length (py_range ((t + 1) * Kernel.BLOCK_M a) (Kernel.BLOCK_N a)) ->
    exists r r',
      Kernel.rows (loop_after a s h t n) i = Some r /\
      Kernel.rows (loop_after a s h t (S n)) i = Some r' /\
      Kernel.m_i r' = emax (Kernel.m_i r) (tile_max a s h t i n) /\
      ele (Kernel.m_i r) (Kernel.m_i r').
Proof.
  intros HM HB. split.
  - eexists. split; reflexivity.
  - intros n Hn. unfold py_range in Hn.
    rewrite length_map, length_seq, HM, cdiv_mul in Hn by assumption.
    rewrite !loop_after_prefix by (assumption || lia).
    destruct (loop_prefix a s h t n HB) as (_ & _ & H0).
    destruct (loop_prefix a s h t (S n) HB) as (_ & _ & H1).
    destruct (H0 i) as (r & Hr & Hm & _).
    destruct (H1 i) as (r' & Hr' & Hm' & _).
    exists r, r'. repeat split; try assumption.
    + rewrite Hm, Hm'. unfold E_row, tile_max.
      replace (S n * Kernel.BLOCK_N a)
        with (n * Kernel.BLOCK_N a + Kernel.BLOCK_N a) by lia.
      apply tl_max_app.
    + rewrite Hm, Hm'. unfold E_row. apply tl_max_mono. lia.
Qed.

Lemma running_max_nondecreasing_witness :
  (exists r0, Kernel.rows (loop_after sample_args 1 0 1 0) 3 = Some r0 /\
              Kernel.m_i r0 = NegInf) /\
  forall n,
    n < length (py_range ((1 + 1) * Kernel.BLOCK_M sample_args)
                  (Kernel.BLOCK_N sample_args)) ->
    exists r r',
      Kernel.rows (loop_after sample_args 1 0 1 n) 3 = Some r /\
      Kernel.rows (loop_after sample_args 1 0 1 (S n)) 3 = Some r' /\
      Kernel.m_i r' = emax (Kernel.m_i r) (tile_max sample_args 1 0 1 3 n) /\
      ele (Kernel.m_i r) (Kernel.m_i r').
Proof.
  apply (running_max_nondecreasing sample_args 1 0 1 3).
  - reflexivity.
  - simpl. lia.
Defined.

(** ** Skipped units *)

(** C6: a unit whose sequence index is at least the batch size, or whose
    query tile starts at or past the end of its sequence, returns the
    memory it was given: the output tensor and both caches are untouched. *)
Theorem skipped_unit_is_noop (a : Kernel.args) (s h t : nat)
    (st : Kernel.mem) :
  Kernel.static_asserts a = true ->
  Kernel.batch_size a <= s \/
  Kernel.cur_seq_len a s <= t * Kernel.BLOCK_M a ->
  Kernel._fwd_context_paged_attention_kernel a s h t st = Some st.
Proof.
  intros Hsa Hskip. unfold Kernel._fwd_context_paged_attention_kernel.
  rewrite Hsa. simpl.
  destruct (Nat.leb_spec (Kernel.batch_size a) s) as [|Hs]; [reflexivity|].
  destruct (Nat.leb_spec (Kernel.cur_seq_len a s) (t * Kernel.BLOCK_M a));
    [reflexivity | lia].
Qed.

Lemma skipped_unit_is_noop_witness :
  Kernel._fwd_context_paged_attention_kernel sample_args 0 1 1
    (initial_mem sample_call) = Some (initial_mem sample_call) /\
  Kernel._fwd_context_paged_attention_kernel sample_args 2 0 0
    (initial_mem sample_call) = Some (initial_mem sample_call).
Proof.
  split.
  - apply (skipped_unit_is_noop sample_args 0 1 1 (initial_mem sample_call)).
    + reflexivity.
    + right. apply Nat.leb_le. reflexivity.
  - apply (skipped_unit_is_noop sample_args 2 0 0 (initial_mem sample_call)).
    + reflexivity.
    + left. apply Nat.leb_le. reflexivity.
Defined.

(** ** The sequence locator *)

Lemma seq_len_sum_next (a : Kernel.args) (s s' : nat) :
  s < s' ->
  Kernel.seq_len_sum a s + Kernel.load_len a s <= Kernel.seq_len_sum a s'.
Proof.
  induction 1 as [|s' _ IH]; simpl; lia.
Qed.

(** A token belongs to the span of one sequence only. *)
Lemma seq_span_unique (a : Kernel.args) (s s' tk : nat) :
  Kernel.prev_seq_len_sum a s <= tk <
    Kernel.prev_seq_len_sum a s + Kernel.cur_seq_len a s ->
  Kernel.prev_seq_len_sum a s' <= tk <
    Kernel.prev_seq_len_sum a s' + Kernel.cur_seq_len a s' ->
  s = s'.
Proof.
  unfold Kernel.prev_seq_len_sum, Kernel.cur_seq_len. intros H H'.
  destruct (Nat.lt_trichotomy s s') as [L|[E|L]]; [|exact E|].
  - pose proof (seq_len_sum_next a s s' L). lia.
  - pose proof (seq_len_sum_next a s' s L). lia.
Qed.

(** ** Destinations *)

Lemma writes_out_inv (a : Kernel.args) (s h t tk hd d : nat) :
  writes_out a s h t tk hd d = true ->
  live a s t = true /\ hd = h /\ d < Kernel.HEAD_DIM a /\
  Kernel.prev_seq_len_sum a s + t * Kernel.BLOCK_M a <= tk /\
  tk < Kernel.prev_seq_len_sum a s + t * Kernel.BLOCK_M a
       + Kernel.BLOCK_M a /\
  tk < Kernel.prev_seq_len_sum a s + Kernel.cur_seq_len a s.
Proof.
  unfold writes_out. rewrite !andb_true_iff.
  rewrite Nat.eqb_eq, !Nat.ltb_lt, Nat.leb_le. tauto.
Qed.

Lemma writes_out_unique (a : Kernel.args) (s h t s' h' t' tk hd d : nat) :
  writes_out a s h t tk hd d = true ->
  writes_out a s' h' t' tk hd d = true ->
  s = s' /\ h = h' /\ t = t'.
Proof.
  intros H H'. apply writes_out_inv in H, H'.
  destruct H as (_ & Hh & _ & Hlo & Hhi & Hlen).
  destruct H' as (_ & Hh' & _ & Hlo' & Hhi' & Hlen').
  assert (s = s') by (apply (seq_span_unique a s s' tk); lia).
  subst s'. repeat split; [congruence|]. nia.
Qed.

Lemma group_leader_unique (g h h' : nat) :
  0 < g -> h mod g = 0 -> h' mod g = 0 -> h / g = h' / g -> h = h'.
Proof.
  intros Hg Hh Hh' E.
  pose proof (Nat.div_mod_eq h g). pose proof (Nat.div_mod_eq h' g).
  rewrite E in *. lia.
Qed.

(** C7: two distinct units never store to the same cell of the output
    tensor, and two distinct units that both reach the cache copy store
    to distinct (cache block, kv head) destinations, provided the block
    table gives distinct blocks to distinct (sequence, tile) pairs.  The
    cells [writes_out] and [cache_writer] describe are those the kernel
    stores to, by [kernel_effect]. *)
Theorem destinations_disjoint (a : Kernel.args) (s h t s' h' t' : nat) :
  (s, h, t) <> (s', h', t') ->
  (forall tk hd d,
     ~ (writes_out a s h t tk hd d = true /\
        writes_out a s' h' t' tk hd d = true)) /\
  (0 < Kernel.KV_GROUPS a -> block_table_injective a ->
   cache_writer a s h t = true -> cache_writer a s' h' t' = true ->
   (Kernel.cur_block_id a s t, Kernel.cur_kv_head_idx a h) <>
   (Kernel.cur_block_id a s' t', Kernel.cur_kv_head_idx a h')).
Proof.
  intros Hne. split.
  - intros tk hd d [H H'].
    destruct (writes_out_unique a s h t s' h' t' tk hd d H H')
      as (-> & -> & ->).
    now apply Hne.
  - intros Hg Hinj Hw Hw' E. inversion E as [[Eb Eh]].
    unfold cache_writer in Hw, Hw'.
    apply andb_true_iff in Hw, Hw'.
    destruct Hw as [Hl Hm], Hw' as [Hl' Hm'].
    apply Nat.eqb_eq in Hm, Hm'.
    destruct (Hinj s t s' t' Hl Hl' Eb) as [-> ->].
    apply Hne. f_equal. f_equal.
    now apply (group_leader_unique (Kernel.KV_GROUPS a)).
Qed.

Lemma sample_live (s t : nat) :
  live sample_args s t = true -> s < 2 /\ t < 2.
Proof.
  unfold live. rewrite andb_true_iff, !Nat.ltb_lt.
  unfold Kernel.cur_seq_len, Kernel.load_len.
  intros [Hs Ht]. change (s < 2) in Hs. split; [exact Hs|].
  destruct s as [|[|s]]; simpl in Ht; lia.
Qed.

Lemma sample_block_table_injective : block_table_injective sample_args.
Proof.
  intros s t s' t' Hl Hl'. simpl.
  apply sample_live in Hl, Hl'. lia.
Qed.

Lemma destinations_disjoint_witness :
  (forall tk hd d,
     ~ (writes_out sample_args 1 0 0 tk hd d = true /\
        writes_out sample_args 1 0 1 tk hd d = true)) /\
  (Kernel.cur_block_id sample_args 1 0, Kernel.cur_kv_head_idx sample_args 0)
  <>
  (Kernel.cur_block_id sample_args 1 1, Kernel.cur_kv_head_idx sample_args 0).
Proof.
  destruct (destinations_disjoint sample_args 1 0 0 1 0 1) as [H1 H2].
  - discriminate.
  - split; [exact H1|]. apply H2.
    + apply Nat.ltb_lt. reflexivity.
    + exact sample_block_table_injective.
    + reflexivity.
    + reflexivity.
Defined.

(** ** The launch grid *)

Lemma smeared_init (x : Z) : smeared x x 1.
Proof.
  intros i Hi. split.
  - intros H. exists 0%Z. split; [lia|]. now rewrite Z.add_0_r.
  - intros (j & Hj & H). now replace (i + j)%Z with i in H by lia.
Qed.

Lemma smeared_step (x y w : Z) :
  (0 < w)%Z -> smeared x y w ->
  smeared x (Z.lor y (Z.shiftr y w)) (2 * w).
Proof.
  intros Hw Hs i Hi.
  rewrite Z.lor_spec, Z.shiftr_spec, orb_true_iff by assumption.
  rewrite (Hs i Hi), (Hs (i + w)%Z ltac:(lia)). split.
  - intros [(j & Hj & H)|(j & Hj & H)].
    + exists j. split; [lia | assumption].
    + exists (w + j)%Z. split; [lia|].
      now replace (i + (w + j))%Z with (i + w + j)%Z by lia.
  - intros (j & Hj & H). destruct (Z_lt_le_dec j w) as [L|L].
    + left. exists j. split; [lia | assumption].
    + right. exists (j - w)%Z. split; [lia|].
      now replace (i + w + (j - w))%Z with (i + j)%Z by lia.
Qed.

Lemma smeared_value (x y : Z) :
  (0 < x < 2 ^ 64)%Z -> (0 <= y)%Z -> smeared x y 64 ->
  y = Z.ones (Z.succ (Z.log2 x)).
Proof.
  intros Hx Hy Hs.
  assert (HL : (0 <= Z.log2 x < 64)%Z).
  { split; [apply Z.log2_nonneg|]. apply Z.log2_lt_pow2; lia. }
  apply Z.bits_inj'. intros i Hi.
  rewrite Z.testbit_ones_nonneg by lia.
  destruct (Z.ltb_spec i (Z.succ (Z.log2 x))) as [L|L].
  - apply (Hs i Hi). exists (Z.log2 x - i)%Z. split; [lia|].
    replace (i + (Z.log2 x - i))%Z with (Z.log2 x) by lia.
    apply Z.bit_log2. lia.
  - destruct (Z.testbit y i) eqn:E; [|reflexivity].
    apply (Hs i Hi) in E. destruct E as (j & Hj & H).
    rewrite Z.bits_above_log2 in H by lia. discriminate.
Qed.

Lemma lor_shiftr_nonneg (y w : Z) :
  (0 <= y)%Z -> (0 <= Z.lor y (Z.shiftr y w))%Z.
Proof.
  intros Hy. apply Z.lor_nonneg. split; [assumption|].
  now apply Z.shiftr_nonneg.
Qed.

(** On 1 .. 2^64 the routine returns the least power of two that is at
    least its argument. *)
Lemma next_power_of_2_spec (n : Z) :
  (1 <= n <= 2 ^ 64)%Z -> next_power_of_2 n = (2 ^ Z.log2_up n)%Z.
Proof.
  intros Hn. destruct (Z.eq_dec n 1) as [->|Hn1]; [reflexivity|].
  unfold next_power_of_2.
  set (x := (n - 1)%Z).
  assert (Hx : (0 < x < 2 ^ 64)%Z) by (unfold x; lia).
  pose proof (smeared_init x) as S0.
  apply smeared_step in S0; [|lia].
  apply smeared_step in S0; [|lia].
  apply smeared_step in S0; [|lia].
  apply smeared_step in S0; [|lia].
  apply smeared_step in S0; [|lia].
  apply smeared_step in S0; [|lia].
  change (2 * (2 * (2 * (2 * (2 * (2 * 1))))))%Z with 64%Z in S0.
  change (2 * (2 * (2 * (2 * (2 * 1)))))%Z with 32%Z in S0.
  change (2 * (2 * (2 * (2 * 1))))%Z with 16%Z in S0.
  change (2 * (2 * (2 * 1)))%Z with 8%Z in S0.
  change (2 * (2 * 1))%Z with 4%Z in S0.
  change (2 * 1)%Z with 2%Z in S0.
  apply smeared_value in S0; [|exact Hx|].
  - rewrite S0, Z.ones_equiv.
    unfold Z.log2_up. destruct (Z.compare_spec 1 n) as [E|L|G]; try lia.
    replace (Z.pred n) with x by (unfold x; lia). lia.
  - repeat apply lor_shiftr_nonneg. lia.
Qed.

Lemma lor_ge_l (x y : Z) : (0 <= x)%Z -> (0 <= y)%Z -> (x <= Z.lor x y)%Z.
Proof.
  intros Hx Hy.
  pose proof (Z.sub_2lor_lxor x y) as H1.
  pose proof (Z.add_lxor_2land x y) as H2.
  assert (H3 : (Z.ldiff y x + Z.land y x)%Z = y).
  { rewrite Z.add_nocarry_lxor, Z.lxor_lor.
    - apply Z.lor_ldiff_and.
    - apply Z.bits_inj'. intros i Hi.
      rewrite !Z.land_spec, Z.ldiff_spec, Z.bits_0.
      destruct (Z.testbit y i), (Z.testbit x i); reflexivity.
    - apply Z.bits_inj'. intros i Hi.
      rewrite !Z.land_spec, Z.ldiff_spec, Z.bits_0.
      destruct (Z.testbit y i), (Z.testbit x i); reflexivity. }
  assert (H4 : (0 <= Z.ldiff y x)%Z) by (apply Z.ldiff_nonneg; auto).
  rewrite (Z.land_comm y x) in H3. lia.
Qed.

Lemma smear_ge (y w : Z) :
  (0 <= y)%Z -> (y <= Z.lor y (Z.shiftr y w))%Z.
Proof.
  intros Hy. apply lor_ge_l; [assumption|]. now apply Z.shiftr_nonneg.
Qed.

(** Every sequence of the batch has a slot in the grid. *)
Lemma grid_covers_seqs (n : nat) :
  n <= Z.to_nat (next_power_of_2 (Z.of_nat n)).
Proof.
  destruct n as [|n]; [apply Nat.le_0_l|].
  apply Nat2Z.inj_le. rewrite Z2Nat.id.
  - unfold next_power_of_2.
    set (x0 := (Z.of_nat (S n) - 1)%Z).
    assert (H0 : (0 <= x0)%Z) by (unfold x0; lia).
    set (x1 := Z.lor x0 (Z.shiftr x0 1)).
    assert (H1 : (x0 <= x1)%Z) by (apply smear_ge; lia).
    set (x2 := Z.lor x1 (Z.shiftr x1 2)).
    assert (H2 : (x1 <= x2)%Z) by (apply smear_ge; lia).
    set (x3 := Z.lor x2 (Z.shiftr x2 4)).
    assert (H3 : (x2 <= x3)%Z) by (apply smear_ge; lia).
    set (x4 := Z.lor x3 (Z.shiftr x3 8)).
    assert (H4 : (x3 <= x4)%Z) by (apply smear_ge; lia).
    set (x5 := Z.lor x4 (Z.shiftr x4 16)).
    assert (H5 : (x4 <= x5)%Z) by (apply smear_ge; lia).
    set (x6 := Z.lor x5 (Z.shiftr x5 32)).
    assert (H6 : (x5 <= x6)%Z) by (apply smear_ge; lia).
    lia.
  - unfold next_power_of_2.
    assert (H : forall y w, (0 <= y)%Z -> (0 <= Z.lor y (Z.shiftr y w))%Z)
      by (intros; now apply lor_shiftr_nonneg).
    assert (0 <= Z.of_nat (S n) - 1)%Z by lia.
    repeat match goal with
    | |- (0 <= _ + 1)%Z => apply Z.add_nonneg_nonneg; [|lia]
    | |- (0 <= Z.lor _ _)%Z => apply H
    end. assumption.
Qed.

Lemma list_max_in (l : list nat) : l <> [] -> In (list_max l) l.
Proof.
  induction l as [|x l IH]; intros Hne; [congruence|].
  change (list_max (x :: l)) with (Nat.max x (list_max l)).
  destruct l as [|y l].
  - left. simpl. lia.
  - destruct (Nat.max_spec x (list_max (y :: l))) as [[_ E]|[_ E]];
      rewrite E.
    + right. apply IH. discriminate.
    + now left.
Qed.

Lemma max_seq_len_covers (c : call) (msl : nat) :
  max_seq_len c = Some msl ->
  match max_seq_len_in_b c with
  | Some n => msl = n
  | None =>
      In msl (context_lengths c) /\
      forall x, In x (context_lengths c) -> x <= msl
  end.
Proof.
  unfold max_seq_len.
  destruct (max_seq_len_in_b c) as [n|]; [congruence|].
  destruct (context_lengths c) as [|x l] eqn:E; [discriminate|].
  intros H. assert (Hm : msl = list_max (x :: l)) by congruence.
  rewrite Hm. clear H Hm. split.
  - apply list_max_in. discriminate.
  - intros y Hy.
    pose proof (proj1 (list_max_le (x :: l) (list_max (x :: l)))
                  (Nat.le_refl _)) as HF.
    rewrite Forall_forall in HF. now apply HF.
Qed.

(** C8, amended: for a batch that is not empty, the launch grid has
    three dimensions: the least power of two that is at least the number
    of sequences, the number of query heads, and the ceiling of
    [max_seq_len / BLOCK_M], where [max_seq_len] is the supplied hint or
    else the longest context length.  (The number of sequences is at most
    2^64, as every tensor dimension is.) *)
Theorem launch_grid_dimensions (c : call) (msl : nat) :
  contract c -> max_seq_len c = Some msl ->
  0 < num_seqs c -> (Z.of_nat (num_seqs c) <= 2 ^ 64)%Z ->
  exists e g2,
    grid c msl = (2 ^ e, num_heads c, g2) /\
    (forall s h t, In (s, h, t) (grid_units (grid c msl)) <->
                   s < 2 ^ e /\ h < num_heads c /\ t < g2) /\
    (num_seqs c <= 2 ^ e /\
     forall e', num_seqs c <= 2 ^ e' -> 2 ^ e <= 2 ^ e') /\
    (msl <= g2 * block_size c /\ g2 * block_size c < msl + block_size c) /\
    match max_seq_len_in_b c with
    | Some n => msl = n
    | None =>
        In msl (context_lengths c) /\
        forall x, In x (context_lengths c) -> x <= msl
    end.
Proof.
  intros Hc Hm Hpos Hbound.
  assert (Hbs : 0 < block_size c).
  { destruct Hc as (_ & _ & _ & _ & _ & _ & Hb). simpl in Hb.
    intuition lia. }
  set (n := num_seqs c) in *.
  set (L := Z.log2_up (Z.of_nat n)).
  assert (HL : (0 <= L)%Z) by apply Z.log2_up_nonneg.
  assert (Hg0 : Z.to_nat (next_power_of_2 (Z.of_nat n)) = 2 ^ Z.to_nat L).
  { rewrite next_power_of_2_spec by lia. fold L.
    now rewrite Z2Nat.inj_pow by lia. }
  assert (HZ : Z.of_nat (2 ^ Z.to_nat L) = (2 ^ L)%Z).
  { rewrite Nat2Z.inj_pow, Z2Nat.id by assumption. reflexivity. }
  exists (Z.to_nat L), (cdiv msl (block_size c)).
  assert (Hgrid : grid c msl =
            (2 ^ Z.to_nat L, num_heads c, cdiv msl (block_size c))).
  { unfold grid. fold n. now rewrite Hg0. }
  split; [exact Hgrid|]. split; [|split; [|split]].
  - intros s h t. rewrite Hgrid. apply in_grid_units.
  - split.
    + apply Nat2Z.inj_le. rewrite HZ.
      apply Z.log2_log2_up_spec. lia.
    + intros e' He'. apply Nat.pow_le_mono_r; [lia|].
      apply Nat2Z.inj_le in He'. rewrite Nat2Z.inj_pow in He'.
      apply Z.log2_up_le_pow2 in He'; [|lia]. fold L in He'. lia.
  - destruct (cdiv_spec msl (block_size c) Hbs) as [H1 H2].
    split; assumption.
  - now apply max_seq_len_covers.
Qed.

Lemma sample_contract : contract sample_call.
Proof. unfold contract. simpl. repeat split; auto. Qed.

Lemma launch_grid_dimensions_witness :
  exists e g2,
    grid sample_call 20 = (2 ^ e, num_heads sample_call, g2) /\
    (forall s h t, In (s, h, t) (grid_units (grid sample_call 20)) <->
                   s < 2 ^ e /\ h < num_heads sample_call /\ t < g2) /\
    (num_seqs sample_call <= 2 ^ e /\
     forall e', num_seqs sample_call <= 2 ^ e' -> 2 ^ e <= 2 ^ e') /\
    (20 <= g2 * block_size sample_call /\
     g2 * block_size sample_call < 20 + block_size sample_call) /\
    match max_seq_len_in_b sample_call with
    | Some n => 20 = n
    | None =>
        In 20 (context_lengths sample_call) /\
        forall x, In x (context_lengths sample_call) -> x <= 20
    end.
Proof.
  apply (launch_grid_dimensions sample_call 20).
  - exact sample_contract.
  - reflexivity.
  - apply Nat.ltb_lt. reflexivity.
  - apply Z.leb_le. reflexivity.
Defined.

Lemma empty_batch_hinted_contract : contract empty_batch_hinted.
Proof. unfold contract. simpl. repeat split; auto. Qed.

(** C8 as worded, "for every invocation", fails on an empty batch that
    carries a hint: every assertion passes, the call returns a tensor, and
    the first dimension of its launch grid is [next_power_of_2(0) = 0],
    which is no power of two (and the grid has no unit at all). *)
Lemma launch_grid_empty_batch :
  contract empty_batch_hinted /\
  max_seq_len empty_batch_hinted = Some 16 /\
  (exists out,
     fst (context_attention_unpadded pad0 empty_batch_hinted) = inr out) /\
  grid empty_batch_hinted 16 = (0, 1, 1) /\
  grid_units (grid empty_batch_hinted 16) = [] /\
  ~ (exists e g2,
       grid empty_batch_hinted 16 = (2 ^ e, num_heads empty_batch_hinted, g2)).
Proof.
  split; [exact empty_batch_hinted_contract|].
  split; [reflexivity|].
  split.
  { destruct (wrapper_accepts pad0 empty_batch_hinted 16
                empty_batch_hinted_contract eq_refl) as (st' & _ & Hw & _).
    exists (Kernel.Out st'). now rewrite Hw. }
  split; [reflexivity|].
  split; [reflexivity|].
  intros (e & g2 & H).
  change (grid empty_batch_hinted 16) with (0, 1, 1) in H.
  assert (E : 0 = 2 ^ e) by congruence.
  pose proof (Nat.pow_nonzero 2 e). lia.
Qed.

(** ** The loop's closed form is dense causal softmax *)

Lemma list_sum_firstn_S (l : list nat) (n : nat) :
  list_sum (firstn (S n) l) = list_sum (firstn n l) + nth n l 0.
Proof.
  unfold list_sum. revert n. induction l as [|x l IH]; intros n.
  - destruct n; reflexivity.
  - destruct n as [|n].
    + simpl. lia.
    + specialize (IH n). simpl in *. lia.
Qed.

Lemma tl_max_all_visible (f : nat -> ext) (g : nat -> R) (p : nat) :
  (forall j, j <= p -> f j = Fin (g j)) ->
  tl_max (S p) f = Fin (max_upto g p).
Proof.
  induction p as [|p IH]; intros H.
  - simpl. now rewrite (H 0) by lia.
  - change (tl_max (S (S p)) f) with (emax (tl_max (S p) f) (f (S p))).
    rewrite IH by (intros; apply H; lia).
    now rewrite (H (S p)) by lia.
Qed.

Lemma tl_max_all_masked (f : nat -> ext) (n : nat) :
  (forall j, j < n -> f j = NegInf) -> tl_max n f = NegInf.
Proof.
  induction n as [|n IH]; intros H; [reflexivity|].
  simpl. rewrite IH by (intros; apply H; lia).
  now rewrite (H n) by lia.
Qed.

(** The maximum over a causally masked row. *)
Lemma tl_max_causal (f : nat -> ext) (g : nat -> R) (p n : nat) :
  (forall j, j <= p -> f j = Fin (g j)) ->
  (forall j, p < j -> f j = NegInf) ->
  p < n -> tl_max n f = Fin (max_upto g p).
Proof.
  intros Hv Hm Hn. replace n with (S p + (n - S p)) by lia.
  rewrite tl_max_app, (tl_max_all_visible f g p Hv).
  rewrite tl_max_all_masked; [reflexivity|].
  intros j _. apply Hm. lia.
Qed.

(** The sum over a causally masked row. *)
Lemma tl_sum_causal (f g : nat -> R) (p n : nat) :
  (forall j, j <= p -> f j = g j) ->
  (forall j, p < j -> f j = 0%R) ->
  p < n -> tl_sum n f = tl_sum (S p) g.
Proof.
  intros Hv Hm Hn. replace n with (S p + (n - S p)) by lia.
  rewrite tl_sum_app, (tl_sum_zero (n - S p)).
  - rewrite Rplus_0_r. apply tl_sum_ext. intros j Hj. apply Hv. lia.
  - intros j _. apply Hm. lia.
Qed.

Lemma tl_sum_pos (n : nat) (f : nat -> R) :
  (forall j, j <= n -> (0 < f j)%R) -> (0 < tl_sum (S n) f)%R.
Proof.
  induction n as [|n IH]; intros H.
  - simpl. pose proof (H 0 (Nat.le_refl 0)). lra.
  - change (tl_sum (S (S n)) f) with (tl_sum (S n) f + f (S n))%R.
    pose proof (IH (fun j Hj => H j (Nat.le_trans _ _ _ Hj (Nat.le_succ_diag_r n)))).
    pose proof (H (S n) (Nat.le_refl _)). lra.
Qed.

Section DenseFacts.

Variable pad : nat -> nat -> R.
Variable c : call.
Variables s h p : nat.

Hypothesis Hdim : Lq c = Lk c.
Hypothesis Hbs : 0 < block_size c.
Hypothesis Hp : p < seq_length c s.

Let a := kernel_args c pad.
Let t := p / block_size c.
Let i := p mod block_size c.

Lemma kernel_seq_start (n : nat) : Kernel.seq_len_sum a n = seq_start c n.
Proof.
  unfold seq_start. induction n as [|n IH]; [reflexivity|].
  simpl Kernel.seq_len_sum. rewrite IH, list_sum_firstn_S. reflexivity.
Qed.

Lemma tile_row_position : Kernel.offsets_m a t i = p.
Proof.
  unfold Kernel.offsets_m, t, i. simpl.
  pose proof (Nat.div_mod_eq p (block_size c)). lia.
Qed.

Lemma tile_covers_position : p < (t + 1) * Kernel.BLOCK_N a.
Proof.
  unfold t. simpl.
  pose proof (Nat.div_mod_eq p (block_size c)).
  pose proof (Nat.mod_upper_bound p (block_size c) ltac:(lia)). lia.
Qed.

Lemma Q_i_row (d : nat) :
  d < Lq c ->
  Kernel.Q_i a s h t i d = q c (seq_start c s + p) h d.
Proof.
  intros Hd. unfold Kernel.Q_i, Kernel.load_block.
  change (t * Kernel.BLOCK_M a + i) with (Kernel.offsets_m a t i).
  rewrite tile_row_position.
  change (Kernel.cur_seq_len a s) with (seq_length c s).
  change (Kernel.HEAD_DIM a) with (Lk c).
  unfold Kernel.prev_seq_len_sum. rewrite kernel_seq_start.
  destruct (Nat.ltb_spec p (seq_length c s)); [|lia].
  destruct (Nat.ltb_spec d (Lk c)); [reflexivity | lia].
Qed.

Lemma load_block_in (T : tensor3) (hd j d : nat) :
  j < seq_length c s -> d < Lq c ->
  Kernel.load_block a s T hd 0 j d = T (seq_start c s + j) hd d.
Proof.
  intros Hj Hd. unfold Kernel.load_block.
  change (Kernel.cur_seq_len a s) with (seq_length c s).
  change (Kernel.HEAD_DIM a) with (Lk c).
  unfold Kernel.prev_seq_len_sum. rewrite kernel_seq_start. simpl.
  destruct (Nat.ltb_spec j (seq_length c s)); [|lia].
  destruct (Nat.ltb_spec d (Lk c)); [reflexivity | lia].
Qed.

Lemma S_row_visible (j : nat) :
  j <= p -> S_row a s h t i j = Fin (dense_score c s h p j).
Proof.
  intros Hj. unfold S_row. rewrite tile_row_position.
  destruct (Nat.leb_spec j p); [|lia]. simpl. f_equal.
  unfold dense_score, tl_dot.
  change (Kernel.HEAD_DIM a) with (Lk c).
  change (Kernel.sm_scale a) with (host_sm_scale c).
  unfold host_sm_scale. rewrite <- Hdim.
  rewrite (tl_sum_ext (Lq c) _
    (fun d => (q c (seq_start c s + p)%nat h d *
               k c (seq_start c s + j)%nat (kv_head c h) d)%R)).
  - ring.
  - intros d Hd. rewrite Q_i_row by assumption.
    rewrite load_block_in by (assumption || lia). reflexivity.
Qed.

Lemma S_row_masked (j : nat) : p < j -> S_row a s h t i j = NegInf.
Proof.
  intros Hj. unfold S_row. rewrite tile_row_position.
  destruct (Nat.leb_spec j p); [lia | reflexivity].
Qed.

Lemma E_row_dense (n : nat) :
  p < n -> E_row a s h t i n = Fin (dense_max c s h p).
Proof.
  intros Hn. unfold E_row, dense_max.
  apply tl_max_causal; [apply S_row_visible | apply S_row_masked | exact Hn].
Qed.

Lemma W_row_dense (n j : nat) :
  p < n ->
  W_row a s h t i n j = if j <=? p then dense_weight c s h p j else 0%R.
Proof.
  intros Hn. unfold W_row. rewrite (E_row_dense n Hn).
  destruct (Nat.leb_spec j p).
  - rewrite S_row_visible by assumption. reflexivity.
  - rewrite S_row_masked by assumption. reflexivity.
Qed.

(** The final state of the row of query position [p]. *)
Lemma row_closed_dense :
  Kernel.m_i (row_closed a s h t i) = Fin (dense_max c s h p) /\
  Kernel.l_i (row_closed a s h t i) = dense_den c s h p /\
  forall d, d < Lq c ->
    Kernel.acc (row_closed a s h t i) d = dense_num c s h p d.
Proof.
  pose proof tile_covers_position as Hn.
  unfold row_closed. simpl Kernel.m_i. simpl Kernel.l_i. simpl Kernel.acc.
  repeat split.
  - now apply E_row_dense.
  - unfold dense_den. apply tl_sum_causal; [| |exact Hn].
    + intros j Hj. rewrite W_row_dense by exact Hn.
      destruct (Nat.leb_spec j p); [reflexivity | lia].
    + intros j Hj. rewrite W_row_dense by exact Hn.
      destruct (Nat.leb_spec j p); [lia | reflexivity].
  - intros d Hd. unfold dense_num. apply tl_sum_causal; [| |exact Hn].
    + intros j Hj. rewrite W_row_dense by exact Hn.
      destruct (Nat.leb_spec j p); [|lia].
      unfold V_row. rewrite load_block_in by (assumption || lia).
      reflexivity.
    + intros j Hj. rewrite W_row_dense by exact Hn.
      destruct (Nat.leb_spec j p); [lia|]. ring.
Qed.

Lemma dense_den_pos : (0 < dense_den c s h p)%R.
Proof.
  unfold dense_den. apply tl_sum_pos. intros j _. apply exp_pos.
Qed.

End DenseFacts.

(** ** What the call leaves in the output tensor and the caches *)

Lemma last_writer_owner (a : Kernel.args) (us : list (nat * nat * nat))
    (x : cell) (u : nat * nat * nat) (r0 : R) :
  In u us -> writes_u a u x = true ->
  (forall u', In u' us -> writes_u a u' x = true ->
              stored_u a u' x = stored_u a u x) ->
  match last_writer a us x with
  | Some u' => stored_u a u' x
  | None => r0
  end = stored_u a u x.
Proof.
  intros Hin Hw Hsame. destruct (last_writer a us x) as [u'|] eqn:E.
  - apply last_writer_some in E. destruct E as [Hin' Hw'].
    now apply Hsame.
  - rewrite last_writer_none in E. rewrite (E u Hin) in Hw. discriminate.
Qed.

Lemma contract_block_size (c : call) : contract c -> 0 < block_size c.
Proof.
  intros (_ & _ & _ & _ & _ & _ & Hb). simpl in Hb. intuition lia.
Qed.

Section CallFacts.

Variable pad : nat -> nat -> R.
Variable c : call.
Variable msl : nat.

Hypothesis Hc : contract c.

Let a := kernel_args c pad.
Let G := grid_units (grid c msl).

Lemma unit_in_grid (s h t : nat) :
  s < num_seqs c -> h < num_heads c -> t < cdiv msl (block_size c) ->
  In (s, h, t) G.
Proof.
  intros Hs Hh Ht. unfold G, grid. apply in_grid_units.
  pose proof (grid_covers_seqs (num_seqs c)).
  repeat split; [lia | assumption | assumption].
Qed.

Lemma grid_unit_inv (s h t : nat) :
  In (s, h, t) G -> h < num_heads c /\ t < cdiv msl (block_size c).
Proof.
  unfold G, grid. rewrite in_grid_units. tauto.
Qed.

Lemma position_written (s h p d : nat) :
  s < num_seqs c -> p < seq_length c s -> d < Lq c ->
  writes_out a s h (p / block_size c) (seq_start c s + p) h d = true.
Proof.
  intros Hs Hp Hd.
  pose proof (contract_block_size c Hc) as Hbs.
  destruct Hc as ((Hdim & _) & _).
  unfold writes_out, live, a.
  unfold Kernel.prev_seq_len_sum. rewrite (kernel_seq_start pad c s).
  change (Kernel.cur_seq_len (kernel_args c pad) s) with (seq_length c s).
  change (Kernel.batch_size (kernel_args c pad)) with (num_seqs c).
  change (Kernel.BLOCK_M (kernel_args c pad)) with (block_size c).
  change (Kernel.HEAD_DIM (kernel_args c pad)) with (Lk c).
  pose proof (Nat.div_mod_eq p (block_size c)).
  pose proof (Nat.mod_upper_bound p (block_size c) ltac:(lia)).
  rewrite !andb_true_iff, Nat.eqb_eq, !Nat.ltb_lt, Nat.leb_le.
  repeat split; lia.
Qed.

(** The cell of query position [p] of sequence [s] and head [h] holds the
    row the unit of its tile computed. *)
Lemma out_cell_final (st' : Kernel.mem) (s h p d : nat) :
  (forall x, read st' x =
     match last_writer a G x with
     | Some u => stored_u a u x
     | None => read (initial_mem c) x
     end) ->
  s < num_seqs c -> h < num_heads c -> p < seq_length c s ->
  p / block_size c < cdiv msl (block_size c) ->
  d < Lq c ->
  Kernel.Out st' (seq_start c s + p) h d =
  Kernel.out_row
    (row_closed a s h (p / block_size c) (p mod block_size c)) d.
Proof.
  intros Hrd Hs Hh Hp Hpm Hd.
  pose proof (contract_block_size c Hc) as Hbs.
  pose proof (Nat.div_mod_eq p (block_size c)) as Hdm.
  specialize (Hrd (OutCell (seq_start c s + p) h d)). simpl in Hrd.
  rewrite Hrd.
  rewrite (last_writer_owner a G _ (s, h, p / block_size c)).
  - simpl. f_equal. f_equal. unfold a.
    unfold Kernel.prev_seq_len_sum. rewrite (kernel_seq_start pad c s).
    change (Kernel.BLOCK_M (kernel_args c pad)) with (block_size c). lia.
  - apply unit_in_grid; assumption.
  - now apply position_written.
  - intros [[s' h'] t'] _ Hw'. simpl in Hw'.
    pose proof (position_written s h p d Hs Hp Hd) as Hw.
    destruct (writes_out_unique a s' h' t' s h (p / block_size c)
                _ _ _ Hw' Hw) as (-> & -> & ->).
    reflexivity.
Qed.

End CallFacts.

(** C1: for every sequence, query head and query position [p] inside the
    sequence (and below [max_seq_len], which always holds when no hint is
    supplied), the call returns, the online-softmax loop of the unit that
    owns [p] ends with the running maximum at the dense maximum, [l_i] at
    the dense softmax denominator and [acc] at the dense numerator over
    the keys [q <= p], and the stored output row is [acc / l_i], the dense
    causal softmax attention. *)
Theorem online_softmax_equals_dense (pad : nat -> nat -> R) (c : call)
    (msl s h p : nat) :
  contract c -> max_seq_len c = Some msl ->
  s < num_seqs c -> h < num_heads c ->
  p < seq_length c s -> p < msl ->
  exists out kc vc r,
    context_attention_unpadded pad c = (inr out, (kc, vc)) /\
    Kernel.rows
      (Kernel.loop_final (kernel_args c pad) s h (p / block_size c))
      (p mod block_size c) = Some r /\
    Kernel.m_i r = Fin (dense_max c s h p) /\
    Kernel.l_i r = dense_den c s h p /\
    (0 < Kernel.l_i r)%R /\
    forall d, d < Lq c ->
      Kernel.acc r d = dense_num c s h p d /\
      out (seq_start c s + p) h d = (Kernel.acc r d / Kernel.l_i r)%R /\
      out (seq_start c s + p) h d = dense_attention c s h p d.
Proof.
  intros Hc Hm Hs Hh Hp Hpm.
  pose proof (contract_block_size c Hc) as Hbs.
  assert (Hdim : Lq c = Lk c) by (destruct Hc as ((H & _) & _); exact H).
  destruct (wrapper_accepts pad c msl Hc Hm) as (st' & _ & Hw & Hrd).
  destruct (loop_final_rows (kernel_args c pad) s h (p / block_size c)
              (p mod block_size c) eq_refl Hbs) as (r & Hr & Hat).
  destruct (row_closed_dense pad c s h p Hdim Hbs Hp) as (Dm & Dl & Dacc).
  pose proof Hat as (Hrm & Hrl & Hracc).
  assert (El : Kernel.l_i r = dense_den c s h p).
  { rewrite Hrl. exact Dl. }
  assert (Eacc : forall d, d < Lq c -> Kernel.acc r d = dense_num c s h p d).
  { intros d Hd. rewrite Hracc. now apply Dacc. }
  exists (Kernel.Out st'), (Kernel.KCache st'), (Kernel.VCache st'), r.
  split; [exact Hw|]. split; [exact Hr|]. split; [|split; [|split]].
  - rewrite Hrm. exact Dm.
  - exact El.
  - rewrite El. apply dense_den_pos.
  - intros d Hd.
    assert (Eo : Kernel.Out st' (seq_start c s + p) h d =
                 (Kernel.acc r d / Kernel.l_i r)%R).
    { assert (Hdisp : p / block_size c < cdiv msl (block_size c)).
      { apply cdiv_lt; [assumption|].
        pose proof (Nat.div_mod_eq p (block_size c)). nia. }
      rewrite (out_cell_final pad c msl Hc st' s h p d Hrd Hs Hh Hp Hdisp Hd).
      symmetry. apply (out_row_closed _ _ _ _ _ r d Hat). }
    split; [now apply Eacc|]. split; [exact Eo|].
    rewrite Eo, El, Eacc by assumption. reflexivity.
Qed.

Lemma online_softmax_equals_dense_witness :
  exists out kc vc r,
    context_attention_unpadded pad0 sample_call = (inr out, (kc, vc)) /\
    Kernel.rows
      (Kernel.loop_final (kernel_args sample_call pad0) 1 1
         (17 / block_size sample_call))
      (17 mod block_size sample_call) = Some r /\
    Kernel.m_i r = Fin (dense_max sample_call 1 1 17) /\
    Kernel.l_i r = dense_den sample_call 1 1 17 /\
    (0 < Kernel.l_i r)%R /\
    forall d, d < Lq sample_call ->
      Kernel.acc r d = dense_num sample_call 1 1 17 d /\
      out (seq_start sample_call 1 + 17) 1 d =
        (Kernel.acc r d / Kernel.l_i r)%R /\
      out (seq_start sample_call 1 + 17) 1 d =
        dense_attention sample_call 1 1 17 d.
Proof.
  apply (online_softmax_equals_dense pad0 sample_call 20 1 1 17).
  - exact sample_contract.
  - reflexivity.
  - apply Nat.ltb_lt. reflexivity.
  - apply Nat.ltb_lt. reflexivity.
  - apply Nat.ltb_lt. reflexivity.
  - apply Nat.ltb_lt. reflexivity.
Defined.

(** ** The whole output tensor *)

Section OutputFacts.

Variable pad : nat -> nat -> R.
Variable c : call.
Variable msl : nat.

Hypothesis Hc : contract c.

Let a := kernel_args c pad.
Let G := grid_units (grid c msl).

(** Only the unit of its tile can store to the row of a query position. *)
Lemma out_cell_writer_inv (s p s' h' t' hd d : nat) :
  p < seq_length c s ->
  In (s', h', t') G ->
  writes_out a s' h' t' (seq_start c s + p) hd d = true ->
  s' = s /\ h' = hd /\ t' = p / block_size c /\
  hd < num_heads c /\ d < Lq c /\
  p / block_size c < cdiv msl (block_size c).
Proof.
  intros Hp Hin Hw.
  pose proof (contract_block_size c Hc) as Hbs.
  assert (Hdim : Lq c = Lk c) by (destruct Hc as ((H & _) & _); exact H).
  apply (grid_unit_inv c msl) in Hin. destruct Hin as [Hh' Ht'].
  apply writes_out_inv in Hw.
  destruct Hw as (_ & Hhd & Hd & Hlo & Hhi & Hlen).
  change (Kernel.HEAD_DIM a) with (Lk c) in Hd.
  change (Kernel.BLOCK_M a) with (block_size c) in Hlo, Hhi.
  assert (Es : s' = s).
  { apply (seq_span_unique a s' s (seq_start c s + p)).
    - split; [lia | exact Hlen].
    - unfold Kernel.prev_seq_len_sum, a. rewrite (kernel_seq_start pad c s).
      change (Kernel.cur_seq_len (kernel_args c pad) s)
        with (seq_length c s).
      lia. }
  subst s'.
  unfold Kernel.prev_seq_len_sum, a in Hlo, Hhi.
  rewrite (kernel_seq_start pad c s) in Hlo, Hhi.
  assert (Et : t' = p / block_size c).
  { apply Nat.div_unique with (r := p - t' * block_size c); lia. }
  subst t'. repeat split; try congruence; lia.
Qed.

(** The output tensor on the tokens of the batch: the dense attention row
    where a unit was dispatched for it, zero elsewhere. *)
Lemma out_cell_value (st' : Kernel.mem) (s p hd d : nat) :
  (forall x, read st' x =
     match last_writer a G x with
     | Some u => stored_u a u x
     | None => read (initial_mem c) x
     end) ->
  s < num_seqs c -> p < seq_length c s ->
  Kernel.Out st' (seq_start c s + p) hd d =
  if (hd <? num_heads c) && (d <? Lq c)
     && (p / block_size c <? cdiv msl (block_size c))
  then dense_attention c s hd p d else 0%R.
Proof.
  intros Hrd Hs Hp.
  pose proof (contract_block_size c Hc) as Hbs.
  assert (Hdim : Lq c = Lk c) by (destruct Hc as ((H & _) & _); exact H).
  destruct ((hd <? num_heads c) && (d <? Lq c)
            && (p / block_size c <? cdiv msl (block_size c))) eqn:E.
  - rewrite !andb_true_iff, !Nat.ltb_lt in E. destruct E as [[Hh Hd] Ht].
    rewrite (out_cell_final pad c msl Hc st' s hd p d Hrd Hs Hh Hp Ht Hd).
    destruct (row_closed_dense pad c s hd p Hdim Hbs Hp) as (_ & Dl & Da).
    unfold Kernel.out_row, dense_attention.
    now rewrite Dl, Da.
  - specialize (Hrd (OutCell (seq_start c s + p) hd d)). simpl in Hrd.
    rewrite Hrd.
    destruct (last_writer a G (OutCell (seq_start c s + p) hd d))
      as [[[s' h'] t']|] eqn:EL; [|reflexivity].
    apply last_writer_some in EL. destruct EL as [Hin Hw]. simpl in Hw.
    destruct (out_cell_writer_inv s p s' h' t' hd d Hp Hin Hw)
      as (_ & _ & _ & Hh & Hd & Ht).
    apply Nat.ltb_lt in Hh, Hd, Ht. rewrite Hh, Hd, Ht in E. discriminate.
Qed.

End OutputFacts.

(** ** Causality across two runs, in exact real arithmetic *)

Lemma max_upto_ext (f g : nat -> R) (n : nat) :
  (forall j, j <= n -> f j = g j) -> max_upto f n = max_upto g n.
Proof.
  induction n as [|n IH]; intros H; simpl.
  - apply H. lia.
  - rewrite IH by (intros; apply H; lia). now rewrite (H (S n)) by lia.
Qed.

Lemma max_seq_len_some (c : call) :
  contract c -> 0 < num_seqs c -> exists msl, max_seq_len c = Some msl.
Proof.
  intros Hc Hn. destruct (max_seq_len c) as [msl|] eqn:E; [now exists msl|].
  apply max_seq_len_none in E. destruct E as [E _].
  destruct Hc as (_ & _ & _ & _ & Hlen & _).
  rewrite E in Hlen. unfold num_seqs in Hn. simpl in Hlen. lia.
Qed.

Lemma same_launch_contract (c1 c2 : call) :
  same_launch c1 c2 -> contract c1 -> contract c2.
Proof.
  intros (Eq & Ek & Ev & Ekc & Evc & Ecl & _ & Ebt & Ebs & _).
  unfold contract, Lq, Lk, Lv, num_heads, num_kv_heads.
  now rewrite Eq, Ek, Ev, Ekc, Evc, Ecl, Ebt, Ebs.
Qed.

Lemma same_launch_dense (c1 c2 : call) (s h p d : nat) :
  same_launch c1 c2 -> agree_through c1 c2 s p ->
  dense_attention c1 s h p d = dense_attention c2 s h p d.
Proof.
  intros (Eq & Ek & _ & _ & _ & Ecl & _) Hag.
  assert (Est : forall n, seq_start c2 n = seq_start c1 n).
  { intros n. unfold seq_start. now rewrite Ecl. }
  assert (Ekv : kv_head c2 h = kv_head c1 h).
  { unfold kv_head, num_heads, num_kv_heads. now rewrite Eq, Ek. }
  assert (ELq : Lq c2 = Lq c1) by (unfold Lq; now rewrite Eq).
  assert (Es : forall j, j <= p ->
            dense_score c1 s h p j = dense_score c2 s h p j).
  { intros j Hj. unfold dense_score. rewrite ELq, Est, Ekv. f_equal.
    apply tl_sum_ext. intros e _.
    destruct (Hag p h e (Nat.le_refl p)) as (-> & _ & _).
    destruct (Hag j (kv_head c1 h) e Hj) as (_ & -> & _).
    reflexivity. }
  assert (Em : dense_max c1 s h p = dense_max c2 s h p).
  { unfold dense_max. now apply max_upto_ext. }
  assert (Ew : forall j, j <= p ->
            dense_weight c1 s h p j = dense_weight c2 s h p j).
  { intros j Hj. unfold dense_weight. now rewrite Em, Es. }
  unfold dense_attention, dense_num, dense_den. rewrite Est, Ekv. f_equal.
  - apply tl_sum_ext. intros j Hj. rewrite Ew by lia.
    destruct (Hag j (kv_head c1 h) d ltac:(lia)) as (_ & _ & ->).
    reflexivity.
  - apply tl_sum_ext. intros j Hj. apply Ew. lia.
Qed.

(** X16: in exact real arithmetic, where no score overflows, the output
    at a position depends on nothing behind it: if two calls have the
    same shapes, lengths, block table, block size and hint, and carry the
    same Q, K and V vectors at the positions [0 .. p] of a sequence, then
    both return and their output rows at position [p] of that sequence
    are identical.  (In float32 this fails when a later key's score
    overflows: see the float32 part below.) *)
Theorem causal_noninterference (pad1 pad2 : nat -> nat -> R)
    (c1 c2 : call) (s p : nat) :
  contract c1 -> same_launch c1 c2 ->
  s < num_seqs c1 -> p < seq_length c1 s ->
  agree_through c1 c2 s p ->
  exists out1 kc1 vc1 out2 kc2 vc2,
    context_attention_unpadded pad1 c1 = (inr out1, (kc1, vc1)) /\
    context_attention_unpadded pad2 c2 = (inr out2, (kc2, vc2)) /\
    forall hd d,
      out1 (seq_start c1 s + p) hd d = out2 (seq_start c1 s + p) hd d.
Proof.
  intros Hc1 Hsame Hs Hp Hag.
  pose proof (same_launch_contract c1 c2 Hsame Hc1) as Hc2.
  destruct (max_seq_len_some c1 Hc1 ltac:(lia)) as [msl Hm1].
  pose proof Hsame as (Eq & Ek & _ & _ & _ & Ecl & _ & Ebt & Ebs & Eh).
  assert (Hm2 : max_seq_len c2 = Some msl).
  { unfold max_seq_len in *. now rewrite <- Eh, <- Ecl. }
  destruct (wrapper_accepts pad1 c1 msl Hc1 Hm1) as (st1 & _ & Hw1 & Hrd1).
  destruct (wrapper_accepts pad2 c2 msl Hc2 Hm2) as (st2 & _ & Hw2 & Hrd2).
  exists (Kernel.Out st1), (Kernel.KCache st1), (Kernel.VCache st1),
         (Kernel.Out st2), (Kernel.KCache st2), (Kernel.VCache st2).
  split; [exact Hw1|]. split; [exact Hw2|]. intros hd d.
  assert (Est : seq_start c2 s = seq_start c1 s).
  { unfold seq_start. now rewrite Ecl. }
  assert (Hs2 : s < num_seqs c2) by (unfold num_seqs in *; now rewrite <- Ebt).
  assert (Hp2 : p < seq_length c2 s).
  { unfold seq_length in *. now rewrite <- Ecl. }
  rewrite (out_cell_value pad1 c1 msl Hc1 st1 s p hd d Hrd1 Hs Hp).
  rewrite <- Est.
  rewrite (out_cell_value pad2 c2 msl Hc2 st2 s p hd d Hrd2 Hs2 Hp2).
  unfold num_heads, Lq. rewrite <- Eq, <- Ebs.
  rewrite (same_launch_dense c1 c2 s hd p d Hsame Hag). reflexivity.
Qed.

Lemma sample_same_launch : same_launch sample_call sample_call_altered.
Proof. unfold same_launch. simpl. repeat split; reflexivity. Qed.

Lemma sample_agree_through : agree_through sample_call sample_call_altered 1 5.
Proof.
  intros j hd d Hj.
  change (seq_start sample_call 1) with 3.
  unfold sample_call, sample_call_altered, q, k, v, one3, altered3.
  destruct (Nat.ltb_spec (3 + j) 10); [auto | lia].
Qed.

Lemma causal_noninterference_witness :
  exists out1 kc1 vc1 out2 kc2 vc2,
    context_attention_unpadded pad0 sample_call = (inr out1, (kc1, vc1)) /\
    context_attention_unpadded pad0 sample_call_altered
      = (inr out2, (kc2, vc2)) /\
    forall hd d,
      out1 (seq_start sample_call 1 + 5) hd d =
      out2 (seq_start sample_call 1 + 5) hd d.
Proof.
  apply (causal_noninterference pad0 pad0 sample_call sample_call_altered 1 5).
  - exact sample_contract.
  - exact sample_same_launch.
  - apply Nat.ltb_lt. reflexivity.
  - apply Nat.ltb_lt. reflexivity.
  - exact sample_agree_through.
Defined.

(** ** Float32: an overflowed score under the additive mask *)

Lemma f32_overflow_bounds :
  (400 < f32_overflow)%R /\ (f32_big < f32_overflow)%R /\
  (f32_overflow <= 2 * f32_big)%R.
Proof.
  unfold f32_overflow, f32_big.
  split; [|split].
  - apply IZR_lt. vm_compute. reflexivity.
  - apply IZR_lt. vm_compute. reflexivity.
  - apply Rle_trans with (IZR (2 * (3 * 10 ^ 38))).
    + apply IZR_le. vm_compute. discriminate.
    + rewrite (mult_IZR 2). apply Rle_refl.
Qed.

Lemma f32_big_pos : (0 < f32_big)%R.
Proof. unfold f32_big. apply IZR_lt. vm_compute. reflexivity. Qed.

Lemma f32_round_num (x : R) :
  (- f32_overflow < x < f32_overflow)%R -> f32_round x = FNum x.
Proof.
  intros [H1 H2]. unfold f32_round.
  destruct (Rle_dec f32_overflow x); [lra|].
  destruct (Rle_dec x (- f32_overflow)); [lra|]. reflexivity.
Qed.

Lemma f32_round_overflow (x : R) :
  (f32_overflow <= x)%R -> f32_round x = FInf false.
Proof.
  intros H. unfold f32_round.
  destruct (Rle_dec f32_overflow x); [reflexivity | contradiction].
Qed.

Lemma f32_add_num (x y : R) :
  (- f32_overflow < x + y < f32_overflow)%R ->
  f32_add (FNum x) (FNum y) = FNum (x + y).
Proof. intros H. simpl. now apply f32_round_num. Qed.

Lemma f32_mul_num (x y : R) :
  (- f32_overflow < x * y < f32_overflow)%R ->
  f32_mul (FNum x) (FNum y) = FNum (x * y).
Proof. intros H. simpl. now apply f32_round_num. Qed.

Lemma f32_add_nan_r (a : f32) : f32_add a FNaN = FNaN.
Proof. destruct a; reflexivity. Qed.

Lemma f32_sum_ext (n : nat) (f g : nat -> f32) :
  (forall j, j < n -> f j = g j) -> f32_sum n f = f32_sum n g.
Proof.
  induction n as [|n IH]; intros H; [reflexivity|]. simpl.
  rewrite IH by (intros; apply H; lia). now rewrite (H n) by lia.
Qed.

(** Adding up [n] copies of a positive number, with overflow. *)
Lemma f32_sum_const (n : nat) (x : R) :
  (0 < x < f32_overflow)%R ->
  f32_sum n (fun _ => FNum x) = f32_round (INR n * x).
Proof.
  intros Hx. pose proof f32_overflow_bounds as (Hov & _).
  induction n as [|n IH].
  - simpl. rewrite Rmult_0_l. symmetry. apply f32_round_num. lra.
  - cbn [f32_sum]. rewrite IH, S_INR.
    pose proof (pos_INR n) as Hn.
    assert (Hnx : (0 <= INR n * x)%R) by (apply Rmult_le_pos; lra).
    destruct (Rle_dec f32_overflow (INR n * x)) as [Hbig|Hsmall].
    + rewrite (f32_round_overflow _ Hbig). simpl.
      symmetry. apply f32_round_overflow. lra.
    + rewrite f32_round_num by lra. simpl. f_equal. lra.
Qed.

(** A row with 1 in column 0 and 0 in the other columns sums to 1. *)
Lemma f32_sum_unit (n : nat) (f : nat -> f32) :
  f 0 = FNum 1 -> (forall j, 0 < j < S n -> f j = FNum 0) ->
  f32_sum (S n) f = FNum 1.
Proof.
  intros H0 Hj. pose proof f32_overflow_bounds as (Hov & _).
  induction n as [|n IH].
  - cbn [f32_sum]. rewrite H0. rewrite f32_add_num by lra. f_equal. lra.
  - cbn [f32_sum] in *. rewrite IH by (intros; apply Hj; lia).
    rewrite (Hj (S n)) by lia. rewrite f32_add_num by lra. f_equal. lra.
Qed.

(** A row with a number in column 0 and -inf elsewhere has that number as
    its maximum. *)
Lemma f32_max_unit (pn : bool) (n : nat) (f : nat -> f32) (x : R) :
  f 0 = FNum x -> (forall j, 0 < j < S n -> f j = FInf true) ->
  f32_max pn (S n) f = FNum x.
Proof.
  intros H0 Hj. induction n as [|n IH].
  - cbn [f32_max]. rewrite H0. reflexivity.
  - cbn [f32_max] in *. rewrite IH by (intros; apply Hj; lia).
    rewrite (Hj (S n)) by lia. reflexivity.
Qed.

Lemma f32_exp_diag (x : R) : f32_exp (f32_sub (FNum x) (FNum x)) = FNum 1.
Proof.
  pose proof f32_overflow_bounds as (Hov & _).
  unfold f32_sub, f32_neg. rewrite f32_add_num by lra.
  replace (x + - x)%R with 0%R by lra.
  simpl. rewrite exp_0. apply f32_round_num. lra.
Qed.

Lemma sqrt_32_bounds : (0 < 1 / sqrt (INR 32) <= 1)%R.
Proof.
  assert (H32 : INR 32 = 32%R) by (simpl; lra).
  rewrite H32.
  assert (H1 : (1 <= sqrt 32)%R).
  { rewrite <- sqrt_1 at 1. apply sqrt_le_1_alt. lra. }
  unfold Rdiv. rewrite Rmult_1_l. split.
  - apply Rinv_0_lt_compat. lra.
  - apply Rle_trans with (/ 1)%R.
    + apply Rinv_le_contravar; lra.
    + rewrite Rinv_1. lra.
Qed.

Lemma f32_sum_nan (n j : nat) (f : nat -> f32) :
  j < n -> f j = FNaN -> f32_sum n f = FNaN.
Proof.
  intros Hj Hf. induction n as [|n IH]; [lia|]. cbn [f32_sum].
  destruct (Nat.eq_dec j n) as [->|Hne].
  - rewrite Hf. apply f32_add_nan_r.
  - rewrite IH by lia. reflexivity.
Qed.

Lemma f32_div_nan_r (a : f32) : f32_div a FNaN = FNaN.
Proof. destruct a; reflexivity. Qed.

(** The scaled score of query 0 against an all-ones key is finite. *)
Lemma f32_score_ones :
  f32_mul (f32_dot 32 f32_ones (fun _ => FNum 1)) (FNum (1 / sqrt (INR 32)))
  = FNum (32 * (1 / sqrt (INR 32))).
Proof.
  pose proof f32_overflow_bounds as (Hov & _).
  pose proof sqrt_32_bounds as Hsc.
  assert (H32 : INR 32 = 32%R) by (simpl; lra).
  unfold f32_dot, f32_ones.
  rewrite (f32_sum_ext 32 _ (fun _ => FNum 1)).
  - rewrite f32_sum_const by lra. rewrite H32 in Hsc |- *.
    rewrite f32_round_num by lra.
    rewrite f32_mul_num by lra. f_equal. lra.
  - intros j _. rewrite f32_mul_num by lra. f_equal. lra.
Qed.

(** Against the altered key the dot product overflows. *)
Lemma f32_score_big :
  f32_mul (f32_dot 32 f32_ones (fun _ => FNum f32_big))
    (FNum (1 / sqrt (INR 32)))
  = FInf false.
Proof.
  pose proof f32_overflow_bounds as (Hov & Hb1 & Hb2).
  pose proof f32_big_pos as Hb0.
  pose proof sqrt_32_bounds as Hsc.
  assert (H32 : INR 32 = 32%R) by (simpl; lra).
  unfold f32_dot, f32_ones.
  rewrite (f32_sum_ext 32 _ (fun _ => FNum f32_big)).
  - rewrite f32_sum_const by lra. rewrite H32 in Hsc |- *.
    rewrite f32_round_overflow by lra.
    cbn [f32_mul].
    destruct (Req_dec_T (1 / sqrt 32) 0) as [E|_]; [lra|].
    unfold sign_bit.
    destruct (Rlt_dec (1 / sqrt 32) 0) as [E|_]; [lra|].
    reflexivity.
  - intros j _. rewrite f32_mul_num by lra. f_equal. lra.
Qed.

Lemma f32_row0_altered_l (pn : bool) :
  f32_l_i (f32_row0 pn f32_keys_altered) = FNaN.
Proof.
  unfold f32_row0, f32_row_body. cbn [f32_l_i f32_m_i f32_row_init].
  match goal with
  | |- f32_add _ (f32_sum 16 ?p) = _ => rewrite (f32_sum_nan 16 15 p)
  end.
  - apply f32_add_nan_r.
  - lia.
  - cbv beta. unfold f32_keys_altered.
    change (15 =? 15) with true. cbv iota.
    rewrite f32_score_big.
    change (0 + 15 <=? 0) with false. cbv iota.
    reflexivity.
Qed.

(** One iteration on a row that sees key 0 only: the weights are 1 for
    key 0 and 0 for the masked keys, so the row is the value of key 0. *)
Lemma f32_row_one_visible (pn : bool) (score : nat -> f32) (x : R) (d : nat) :
  score 0 = FNum x -> (forall j, 0 < j < 16 -> score j = FInf true) ->
  let m := f32_maximum pn (FInf true) (f32_max pn 16 score) in
  let p := fun j => f32_exp (f32_sub (score j) m) in
  let scale := f32_exp (f32_sub (FInf true) m) in
  f32_div
    (f32_add (f32_mul (FNum 0) scale)
       (f32_dot 16 p (fun j => f32_values j d)))
    (f32_add (f32_mul scale (FNum 0)) (f32_sum 16 p))
  = FNum 1.
Proof.
  intros H0 Hj m p scale.
  pose proof f32_overflow_bounds as (Hov & _).
  assert (Hm : m = FNum x).
  { unfold m. rewrite (f32_max_unit pn 15 score x H0 Hj). reflexivity. }
  assert (Hp0 : p 0 = FNum 1).
  { unfold p. rewrite H0, Hm. apply f32_exp_diag. }
  assert (Hpj : forall j, 0 < j < 16 -> p j = FNum 0).
  { intros j Hlt. unfold p. rewrite (Hj j Hlt), Hm. reflexivity. }
  assert (Hsc : scale = FNum 0).
  { unfold scale. rewrite Hm. reflexivity. }
  assert (Hdot : f32_dot 16 p (fun j => f32_values j d) = FNum 1).
  { unfold f32_dot, f32_values. apply f32_sum_unit.
    - rewrite Hp0, f32_mul_num by lra. f_equal. lra.
    - intros j Hlt. rewrite (Hpj j Hlt), f32_mul_num by lra. f_equal. lra. }
  rewrite Hsc, Hdot, (f32_sum_unit 15 p Hp0 Hpj).
  rewrite f32_mul_num by lra. rewrite f32_add_num by lra.
  replace (0 * 0 + 1)%R with 1%R by lra.
  cbn [f32_div].
  destruct (Req_dec_T 1 0) as [E|_]; [lra|].
  rewrite f32_round_num by lra. f_equal. lra.
Qed.

Lemma f32_row0_base (pn : bool) (d : nat) :
  f32_out_row (f32_row0 pn f32_keys) d = FNum 1.
Proof.
  pose proof f32_overflow_bounds as (Hov & _).
  pose proof sqrt_32_bounds as Hsc.
  assert (H32 : INR 32 = 32%R) by (simpl; lra).
  unfold f32_out_row, f32_row0, f32_row_body.
  cbn [f32_l_i f32_acc f32_m_i f32_row_init].
  apply (f32_row_one_visible pn
           (fun j =>
              f32_add
                (f32_mul (f32_dot 32 f32_ones (fun d => f32_keys d j))
                   (FNum (1 / sqrt (INR 32))))
                (if 0 + j <=? 0 then FNum 0 else FInf true))
           (32 * (1 / sqrt (INR 32)) + 0) d).
  - cbv beta. unfold f32_keys. rewrite f32_score_ones.
    change (0 + 0 <=? 0) with true. cbv iota.
    apply f32_add_num. rewrite H32 in Hsc |- *. lra.
  - intros j Hlt. cbv beta. unfold f32_keys. rewrite f32_score_ones.
    destruct (Nat.leb_spec (0 + j) 0) as [Hle|_]; [lia|]. reflexivity.
Qed.

(** C3: the claim fails on the code once scores are float32 values.  The
    loop masks by adding [-inf] to the score (it does not replace the
    score), so a key after the query position whose dot product
    overflows to [+inf] leaves [+inf + -inf], a NaN, where the mask
    should leave [-inf]; the NaN enters the row sum [l_i] and the stored
    row.  Failing input: one sequence of 16 tokens, head dimension 32,
    blocks of 16, all of Q, K and V equal to 1; the second run differs
    only in the key vector of token 15, set to 3e38.  The output row of
    query position 0 is 1 in the first run and NaN in the second,
    whether or not the maximum propagates NaNs. *)
Theorem additive_mask_leaks_future_key (propagate_nan : bool) (d : nat) :
  (forall e j,
     f32_keys_altered e j = if j =? 15 then FNum f32_big else f32_keys e j) /\
  f32_out_row (f32_row0 propagate_nan f32_keys) d = FNum 1 /\
  f32_out_row (f32_row0 propagate_nan f32_keys_altered) d = FNaN.
Proof.
  split; [|split].
  - intros e j. unfold f32_keys_altered, f32_keys.
    destruct (j =? 15); reflexivity.
  - apply f32_row0_base.
  - unfold f32_out_row. rewrite f32_row0_altered_l. apply f32_div_nan_r.
Qed.

(** ** The caches *)

Lemma group_leader (g n h : nat) :
  0 < g -> h < n -> h * g < n * g /\ (h * g) mod g = 0 /\ h * g / g = h.
Proof.
  intros Hg Hh. repeat split.
  - nia.
  - now apply Nat.Div0.mod_mul.
  - apply Nat.div_mul. lia.
Qed.

Section CacheFacts.

Variable pad : nat -> nat -> R.
Variable c : call.
Variable msl : nat.

Hypothesis Hc : contract c.

Let a := kernel_args c pad.
Let G := grid_units (grid c msl).

Lemma live_iff (s t : nat) :
  live a s t = true <->
  s < num_seqs c /\ t * block_size c < seq_length c s.
Proof.
  unfold live. rewrite andb_true_iff, !Nat.ltb_lt. reflexivity.
Qed.

Lemma writes_cache_inv (s h t b hd d sl : nat) :
  writes_cache a s h t b hd d sl = true ->
  live a s t = true /\ h mod num_kv_group c = 0 /\
  b = block_tables c s t /\ hd = h / num_kv_group c /\
  d < Lk c /\ sl < block_size c /\
  t * block_size c + sl < seq_length c s.
Proof.
  unfold writes_cache, cache_writer.
  rewrite !andb_true_iff, !Nat.eqb_eq, !Nat.ltb_lt.
  change (Kernel.cur_seq_len a s) with (seq_length c s).
  change (Kernel.BLOCK_SIZE a) with (block_size c).
  change (Kernel.HEAD_DIM a) with (Lk c).
  change (Kernel.KV_GROUPS a) with (num_kv_group c).
  change (Kernel.cur_block_id a s t) with (block_tables c s t).
  change (Kernel.cur_kv_head_idx a h) with (h / num_kv_group c).
  intros H. repeat split; try tauto. lia.
Qed.

Lemma heads_grouped :
  0 < num_heads c ->
  0 < num_kv_group c /\ num_heads c = num_kv_heads c * num_kv_group c.
Proof.
  intros Hh. destruct Hc as (_ & _ & _ & _ & _ & (Hkv & Hmod) & _).
  assert (E : num_heads c = num_kv_heads c * num_kv_group c).
  { unfold num_kv_group. apply Nat.Div0.div_exact. exact Hmod. }
  split; [|exact E]. destruct (num_kv_group c); lia.
Qed.

(** The key (or value) vector a cache-writing unit stores into a slot. *)
Lemma stored_cache_value (T : tensor3) (s h t sl d : nat) :
  t * block_size c + sl < seq_length c s ->
  Kernel.load_kv a s h t T (block_size c) sl d =
  T (seq_start c s + (t * block_size c + sl)) (h / num_kv_group c) d.
Proof.
  intros Hsl. unfold Kernel.load_kv.
  change (Kernel.cur_seq_len a s) with (seq_length c s).
  destruct (Nat.ltb_spec (t * block_size c + sl) (seq_length c s)); [|lia].
  unfold Kernel.prev_seq_len_sum, a. rewrite (kernel_seq_start pad c s).
  reflexivity.
Qed.

(** A slot below the end of the sequence in a dispatched tile's block. *)
Lemma cache_cell_written (st' : Kernel.mem) (x : cell)
    (s t kvh d sl : nat) :
  (forall y, read st' y =
     match last_writer a G y with
     | Some u => stored_u a u y
     | None => read (initial_mem c) y
     end) ->
  block_table_injective a -> 0 < num_heads c ->
  s < num_seqs c -> t < cdiv msl (block_size c) ->
  t * block_size c + sl < seq_length c s -> sl < block_size c ->
  kvh < num_kv_heads c -> d < Lk c ->
  x = KCell (block_tables c s t) kvh d sl \/
  x = VCell (block_tables c s t) kvh d sl ->
  read st' x = stored a s (kvh * num_kv_group c) t x.
Proof.
  intros Hrd Hinj Hh Hs Ht Hsl Hsb Hkv Hd Hx.
  destruct (heads_grouped Hh) as [Hg Hn].
  destruct (group_leader (num_kv_group c) (num_kv_heads c) kvh Hg Hkv)
    as (Hlt & Hmod & Hdiv).
  assert (Hlive : live a s t = true) by (apply live_iff; split; lia).
  assert (Hw : writes_cache a s (kvh * num_kv_group c) t
                 (block_tables c s t) kvh d sl = true).
  { unfold writes_cache, cache_writer. rewrite Hlive.
    change (Kernel.cur_seq_len a s) with (seq_length c s).
    change (Kernel.BLOCK_SIZE a) with (block_size c).
    change (Kernel.HEAD_DIM a) with (Lk c).
    change (Kernel.KV_GROUPS a) with (num_kv_group c).
    change (Kernel.cur_block_id a s t) with (block_tables c s t).
    change (Kernel.cur_kv_head_idx a (kvh * num_kv_group c))
      with (kvh * num_kv_group c / num_kv_group c).
    rewrite Hmod, Hdiv.
    rewrite !andb_true_iff, !Nat.eqb_eq, !Nat.ltb_lt.
    repeat split; lia. }
  rewrite Hrd.
  change (stored a s (kvh * num_kv_group c) t x)
    with (stored_u a (s, kvh * num_kv_group c, t) x).
  apply last_writer_owner.
  - apply unit_in_grid; [exact Hs | lia | exact Ht].
  - destruct Hx as [-> | ->]; exact Hw.
  - intros [[s' h'] t'] _ Hw'.
    assert (Hw'' : writes_cache a s' h' t' (block_tables c s t) kvh d sl
                   = true) by (destruct Hx as [-> | ->]; exact Hw').
    apply writes_cache_inv in Hw''.
    destruct Hw'' as (Hl' & _ & Eb & Ekv & _ & _ & Hsl').
    destruct (Hinj s t s' t' Hlive Hl' Eb) as [<- <-].
    destruct Hx as [-> | ->]; simpl;
      rewrite !stored_cache_value by assumption;
      now rewrite <- Ekv, Hdiv.
Qed.

(** A cell no unit of the grid stores to keeps its content. *)
Lemma cell_unwritten (st' : Kernel.mem) (x : cell) :
  (forall y, read st' y =
     match last_writer a G y with
     | Some u => stored_u a u y
     | None => read (initial_mem c) y
     end) ->
  (forall u, In u G -> writes_u a u x = false) ->
  read st' x = read (initial_mem c) x.
Proof.
  intros Hrd Hno. rewrite Hrd.
  apply last_writer_none in Hno. now rewrite Hno.
Qed.

End CacheFacts.

(** C2: after the call, for every sequence [s] and tile [i] with
    [i * block_size < length s] (the tile being dispatched, as it always
    is when no hint is supplied), the cache block [block_tables s i]
    holds, for every kv head, the key and value vectors of the tokens
    [i * block_size .. min ((i + 1) * block_size, length s) - 1] of the
    sequence, copied from K and V; the slots past the end of the sequence
    in that block, and all blocks no such pair names, keep their prior
    content.  The block table gives distinct blocks to distinct
    (sequence, tile) pairs. *)
Theorem cache_fidelity (pad : nat -> nat -> R) (c : call) (msl s i : nat) :
  contract c -> max_seq_len c = Some msl ->
  block_table_injective (kernel_args c pad) -> 0 < num_heads c ->
  s < num_seqs c -> i * block_size c < seq_length c s ->
  i * block_size c < msl ->
  exists out kc vc,
    context_attention_unpadded pad c = (inr out, (kc, vc)) /\
    (forall kvh d sl,
       kvh < num_kv_heads c -> d < Lk c -> sl < block_size c ->
       i * block_size c + sl < seq_length c s ->
       kc (block_tables c s i) kvh d sl =
         k c (seq_start c s + (i * block_size c + sl)) kvh d /\
       vc (block_tables c s i) kvh d sl =
         v c (seq_start c s + (i * block_size c + sl)) kvh d) /\
    (forall kvh d sl,
       seq_length c s <= i * block_size c + sl ->
       kc (block_tables c s i) kvh d sl =
         k_cache c (block_tables c s i) kvh d sl /\
       vc (block_tables c s i) kvh d sl =
         v_cache c (block_tables c s i) kvh d sl) /\
    (forall b,
       (forall s' i', s' < num_seqs c ->
                      i' * block_size c < seq_length c s' ->
                      block_tables c s' i' <> b) ->
       forall kvh d sl,
         kc b kvh d sl = k_cache c b kvh d sl /\
         vc b kvh d sl = v_cache c b kvh d sl).
Proof.
  intros Hc Hm Hinj Hh Hs Hi Him.
  pose proof (contract_block_size c Hc) as Hbs.
  destruct (wrapper_accepts pad c msl Hc Hm) as (st' & _ & Hw & Hrd).
  exists (Kernel.Out st'), (Kernel.KCache st'), (Kernel.VCache st').
  split; [exact Hw|].
  assert (Hdisp : i < cdiv msl (block_size c)) by now apply cdiv_lt.
  assert (Hlive : live (kernel_args c pad) s i = true).
  { apply live_iff. split; assumption. }
  destruct (heads_grouped c Hc Hh) as [Hg Hn].
  split; [|split].
  - intros kvh d sl Hkv Hd Hsb Hsl.
    destruct (group_leader (num_kv_group c) (num_kv_heads c) kvh Hg Hkv)
      as (_ & _ & Hdiv).
    split.
    + change (Kernel.KCache st' (block_tables c s i) kvh d sl)
        with (read st' (KCell (block_tables c s i) kvh d sl)).
      rewrite (cache_cell_written pad c msl Hc st' _ s i kvh d sl
                 Hrd Hinj Hh Hs Hdisp Hsl Hsb Hkv Hd (or_introl eq_refl)).
      simpl. rewrite stored_cache_value by assumption. now rewrite Hdiv.
    + change (Kernel.VCache st' (block_tables c s i) kvh d sl)
        with (read st' (VCell (block_tables c s i) kvh d sl)).
      rewrite (cache_cell_written pad c msl Hc st' _ s i kvh d sl
                 Hrd Hinj Hh Hs Hdisp Hsl Hsb Hkv Hd (or_intror eq_refl)).
      simpl. rewrite stored_cache_value by assumption. now rewrite Hdiv.
  - intros kvh d sl Hsl.
    assert (Hno : forall u, In u (grid_units (grid c msl)) ->
              writes_cache (kernel_args c pad) (fst (fst u)) (snd (fst u))
                (snd u) (block_tables c s i) kvh d sl = false).
    { intros [[s' h'] t'] _. simpl.
      destruct (writes_cache (kernel_args c pad) s' h' t'
                  (block_tables c s i) kvh d sl) eqn:E; [|reflexivity].
      apply (writes_cache_inv pad c) in E.
      destruct E as (Hl' & _ & Eb & _ & _ & _ & Hsl').
      destruct (Hinj s i s' t' Hlive Hl' Eb) as [<- <-]. lia. }
    split.
    + apply (cell_unwritten pad c msl st'
               (KCell (block_tables c s i) kvh d sl) Hrd).
      intros [[s' h'] t'] Hin. exact (Hno (s', h', t') Hin).
    + apply (cell_unwritten pad c msl st'
               (VCell (block_tables c s i) kvh d sl) Hrd).
      intros [[s' h'] t'] Hin. exact (Hno (s', h', t') Hin).
  - intros b Hb kvh d sl.
    assert (Hno : forall u, In u (grid_units (grid c msl)) ->
              writes_cache (kernel_args c pad) (fst (fst u)) (snd (fst u))
                (snd u) b kvh d sl = false).
    { intros [[s' h'] t'] _. simpl.
      destruct (writes_cache (kernel_args c pad) s' h' t' b kvh d sl)
        eqn:E; [|reflexivity].
      apply (writes_cache_inv pad c) in E.
      destruct E as (Hl' & _ & Eb & _).
      apply (live_iff pad c) in Hl'. destruct Hl' as [Hs' Ht'].
      exfalso. apply (Hb s' t' Hs' Ht'). now symmetry. }
    split.
    + apply (cell_unwritten pad c msl st' (KCell b kvh d sl) Hrd).
      intros [[s' h'] t'] Hin. exact (Hno (s', h', t') Hin).
    + apply (cell_unwritten pad c msl st' (VCell b kvh d sl) Hrd).
      intros [[s' h'] t'] Hin. exact (Hno (s', h', t') Hin).
Qed.

Lemma cache_fidelity_witness :
  exists out kc vc,
    context_attention_unpadded pad0 sample_call = (inr out, (kc, vc)) /\
    (forall kvh d sl,
       kvh < num_kv_heads sample_call -> d < Lk sample_call ->
       sl < block_size sample_call ->
       1 * block_size sample_call + sl < seq_length sample_call 1 ->
       kc (block_tables sample_call 1 1) kvh d sl =
         k sample_call
           (seq_start sample_call 1 + (1 * block_size sample_call + sl))
           kvh d /\
       vc (block_tables sample_call 1 1) kvh d sl =
         v sample_call
           (seq_start sample_call 1 + (1 * block_size sample_call + sl))
           kvh d) /\
    (forall kvh d sl,
       seq_length sample_call 1 <= 1 * block_size sample_call + sl ->
       kc (block_tables sample_call 1 1) kvh d sl =
         k_cache sample_call (block_tables sample_call 1 1) kvh d sl /\
       vc (block_tables sample_call 1 1) kvh d sl =
         v_cache sample_call (block_tables sample_call 1 1) kvh d sl) /\
    (forall b,
       (forall s' i', s' < num_seqs sample_call ->
                      i' * block_size sample_call < seq_length sample_call s' ->
                      block_tables sample_call s' i' <> b) ->
       forall kvh d sl,
         kc b kvh d sl = k_cache sample_call b kvh d sl /\
         vc b kvh d sl = v_cache sample_call b kvh d sl).
Proof.
  apply (cache_fidelity pad0 sample_call 20 1 1).
  - exact sample_contract.
  - reflexivity.
  - exact sample_block_table_injective.
  - apply Nat.ltb_lt. reflexivity.
  - apply Nat.ltb_lt. reflexivity.
  - apply Nat.ltb_lt. reflexivity.
  - apply Nat.ltb_lt. reflexivity.
Defined.

(** ** A hint below the longest sequence *)

(** C10: with a hint [n] the call raises no error (the contract holding);
    no unit with a query-tile index of [ceil (n / block_size)] or more is
    dispatched, so the output rows at the positions from
    [ceil (n / block_size) * block_size] on of every sequence are the
    zeros of the fresh output tensor, and the cache blocks of those tiles
    keep their prior content (block table injective). *)
Theorem short_hint_truncates (pad : nat -> nat -> R) (c : call) (n : nat) :
  contract c -> max_seq_len_in_b c = Some n ->
  exists out kc vc,
    context_attention_unpadded pad c = (inr out, (kc, vc)) /\
    (forall s h t, In (s, h, t) (grid_units (grid c n)) ->
                   t < cdiv n (block_size c)) /\
    (forall s p hd d,
       s < num_seqs c -> p < seq_length c s ->
       cdiv n (block_size c) * block_size c <= p ->
       out (seq_start c s + p) hd d = 0%R) /\
    (block_table_injective (kernel_args c pad) ->
     forall s i kvh d sl,
       s < num_seqs c -> i * block_size c < seq_length c s ->
       cdiv n (block_size c) <= i ->
       kc (block_tables c s i) kvh d sl =
         k_cache c (block_tables c s i) kvh d sl /\
       vc (block_tables c s i) kvh d sl =
         v_cache c (block_tables c s i) kvh d sl).
Proof.
  intros Hc Hhint.
  pose proof (contract_block_size c Hc) as Hbs.
  assert (Hm : max_seq_len c = Some n).
  { unfold max_seq_len. now rewrite Hhint. }
  destruct (wrapper_accepts pad c n Hc Hm) as (st' & _ & Hw & Hrd).
  exists (Kernel.Out st'), (Kernel.KCache st'), (Kernel.VCache st').
  split; [exact Hw|]. split; [|split].
  - intros s h t Hin. now apply (grid_unit_inv c n) in Hin.
  - intros s p hd d Hs Hp Hge.
    rewrite (out_cell_value pad c n Hc st' s p hd d Hrd Hs Hp).
    assert (Hdiv : cdiv n (block_size c) <= p / block_size c).
    { apply Nat.div_le_lower_bound; lia. }
    destruct (Nat.ltb_spec (p / block_size c) (cdiv n (block_size c)));
      [lia|].
    now rewrite andb_false_r.
  - intros Hinj s i kvh d sl Hs Hi Hge.
    assert (Hlive : live (kernel_args c pad) s i = true).
    { apply live_iff. split; assumption. }
    assert (Hno : forall u, In u (grid_units (grid c n)) ->
              writes_cache (kernel_args c pad) (fst (fst u)) (snd (fst u))
                (snd u) (block_tables c s i) kvh d sl = false).
    { intros [[s' h'] t'] Hin. simpl.
      destruct (writes_cache (kernel_args c pad) s' h' t'
                  (block_tables c s i) kvh d sl) eqn:E; [|reflexivity].
      apply (writes_cache_inv pad c) in E.
      destruct E as (Hl' & _ & Eb & _).
      destruct (Hinj s i s' t' Hlive Hl' Eb) as [<- <-].
      apply (grid_unit_inv c n) in Hin. lia. }
    split.
    + apply (cell_unwritten pad c n st'
               (KCell (block_tables c s i) kvh d sl) Hrd).
      intros [[s' h'] t'] Hin. exact (Hno (s', h', t') Hin).
    + apply (cell_unwritten pad c n st'
               (VCell (block_tables c s i) kvh d sl) Hrd).
      intros [[s' h'] t'] Hin. exact (Hno (s', h', t') Hin).
Qed.

Lemma sample_hinted_contract : contract sample_call_hinted.
Proof. unfold contract. simpl. repeat split; auto. Qed.

Lemma sample_hinted_injective :
  block_table_injective (kernel_args sample_call_hinted pad0).
Proof. exact sample_block_table_injective. Qed.

Lemma short_hint_truncates_witness :
  exists out kc vc,
    context_attention_unpadded pad0 sample_call_hinted
      = (inr out, (kc, vc)) /\
    (forall s h t, In (s, h, t) (grid_units (grid sample_call_hinted 16)) ->
                   t < cdiv 16 (block_size sample_call_hinted)) /\
    (forall s p hd d,
       s < num_seqs sample_call_hinted ->
       p < seq_length sample_call_hinted s ->
       cdiv 16 (block_size sample_call_hinted)
         * block_size sample_call_hinted <= p ->
       out (seq_start sample_call_hinted s + p) hd d = 0%R) /\
    (forall s i kvh d sl,
       s < num_seqs sample_call_hinted ->
       i * block_size sample_call_hinted < seq_length sample_call_hinted s ->
       cdiv 16 (block_size sample_call_hinted) <= i ->
       kc (block_tables sample_call_hinted s i) kvh d sl =
         k_cache sample_call_hinted (block_tables sample_call_hinted s i)
           kvh d sl /\
       vc (block_tables sample_call_hinted s i) kvh d sl =
         v_cache sample_call_hinted (block_tables sample_call_hinted s i)
           kvh d sl).
Proof.
  destruct (short_hint_truncates pad0 sample_call_hinted 16
              sample_hinted_contract eq_refl)
    as (out & kc & vc & Hw & Hg & Ho & Hk).
  exists out, kc, vc. split; [exact Hw|]. split; [exact Hg|].
  split; [exact Ho|]. apply Hk. exact sample_hinted_injective.
Defined.

(** ** One cache write per group *)

Lemma kernel_write_per_head_effect (a : Kernel.args) (s h t : nat)
    (st : Kernel.mem) :
  Kernel.static_asserts a = true -> 0 < Kernel.BLOCK_N a ->
  exists st',
    kernel_write_per_head a s h t st = Some st' /\
    forall x, read st' x =
              if writes_per_head a (s, h, t) x
              then stored a s h t x else read st x.
Proof.
  intros Hsa HB. unfold kernel_write_per_head.
  rewrite Hsa. simpl negb. cbv iota.
  unfold Kernel.static_asserts in Hsa.
  apply andb_true_iff in Hsa. destruct Hsa as [HMN HNS].
  apply Nat.eqb_eq in HMN, HNS.
  destruct (Nat.leb_spec (Kernel.batch_size a) s) as [Hs|Hs].
  { exists st. split; [reflexivity|]. intros x.
    assert (Hl : live a s t = false).
    { unfold live. apply andb_false_iff. left. now apply Nat.ltb_ge. }
    destruct x; simpl; unfold writes_out, writes_cache_per_head;
      now rewrite Hl. }
  destruct (Nat.leb_spec (Kernel.cur_seq_len a s) (t * Kernel.BLOCK_M a))
    as [Ht|Ht].
  { exists st. split; [reflexivity|]. intros x.
    assert (Hl : live a s t = false).
    { unfold live. apply andb_false_iff. right. now apply Nat.ltb_ge. }
    destruct x; simpl; unfold writes_out, writes_cache_per_head;
      now rewrite Hl. }
  assert (Hl : live a s t = true).
  { unfold live. apply andb_true_iff. split; now apply Nat.ltb_lt. }
  destruct (store_block_spec a s h t (Kernel.BLOCK_M a)
              (Kernel.rows (Kernel.loop_final a s h t)) (Kernel.Out st))
    as (T' & HT' & Hspec).
  { intros i _. apply loop_final_rows; assumption. }
  rewrite HT'. eexists. split; [reflexivity|]. intros x.
  destruct x as [tk hd d|b hd d sl|b hd d sl]; simpl.
  - rewrite Hspec. unfold writes_out. rewrite Hl. simpl. reflexivity.
  - unfold Kernel.store_cache, writes_cache_per_head. rewrite Hl.
    simpl. reflexivity.
  - unfold Kernel.store_cache, writes_cache_per_head. rewrite Hl.
    simpl. reflexivity.
Qed.

Lemma launch_write_per_head_effect (a : Kernel.args)
    (us : list (nat * nat * nat)) :
  Kernel.static_asserts a = true -> 0 < Kernel.BLOCK_N a ->
  forall st, exists st',
    launch_write_per_head a us st = (true, st') /\
    forall x, read st' x =
              match find (fun u => writes_per_head a u x) (rev us) with
              | Some u => stored_u a u x
              | None => read st x
              end.
Proof.
  intros Hsa HB. apply run_grid_effect.
  intros [[s h] t] st. apply kernel_write_per_head_effect; assumption.
Qed.

Lemma filter_unique {A : Type} (f : A -> bool) (l : list A) (x : A) :
  NoDup l -> In x l -> f x = true ->
  (forall y, In y l -> f y = true -> y = x) ->
  filter f l = [x].
Proof.
  induction l as [|y l IH]; intros Hnd Hin Hfx Huniq; [contradiction|].
  inversion Hnd as [|? ? Hny Hnd']; subst. simpl.
  destruct Hin as [->|Hin].
  - rewrite Hfx. f_equal.
    assert (Hnone : forall z, In z l -> f z = false).
    { intros z Hz. destruct (f z) eqn:E; [|reflexivity].
      assert (z = x) by (apply Huniq; [now right | exact E]).
      subst z. contradiction. }
    clear - Hnone. induction l as [|z l IH]; [reflexivity|].
    simpl. rewrite (Hnone z) by now left.
    apply IH. intros w Hw. apply Hnone. now right.
  - destruct (f y) eqn:E.
    + assert (y = x) by (apply Huniq; [now left | exact E]).
      subst y. contradiction.
    + apply IH; try assumption.
      intros z Hz. apply Huniq. now right.
Qed.

Lemma grid_units_NoDup (g : nat * nat * nat) : NoDup (grid_units g).
Proof.
  destruct g as [[g0 g1] g2]. unfold grid_units.
  assert (Hin : forall (s : nat) (l1 : list nat) (u : nat * nat * nat),
            In u (flat_map (fun h => map (fun t => (s, h, t)) (seq 0 g2)) l1)
            -> fst (fst u) = s /\ In (snd (fst u)) l1).
  { intros s l1 u Hu. apply in_flat_map in Hu.
    destruct Hu as (h & Hh & Hu). apply in_map_iff in Hu.
    destruct Hu as (t & <- & _). simpl. auto. }
  assert (H1 : forall (s : nat) (l1 : list nat), NoDup l1 ->
            NoDup (flat_map (fun h => map (fun t => (s, h, t)) (seq 0 g2))
                     l1)).
  { intros s l1. induction 1 as [|h l1 Hnh Hnd IH]; simpl; [constructor|].
    apply NoDup_app; [| exact IH |].
    - apply NoDup_map_NoDup_ForallPairs; [|apply seq_NoDup].
      intros x y _ _ E. now inversion E.
    - intros u Hu Hu'. apply in_map_iff in Hu.
      destruct Hu as (t & <- & _).
      apply Hin in Hu'. simpl in Hu'. destruct Hu' as [_ Hu']. contradiction. }
  assert (H0 : forall l0 : list nat, NoDup l0 ->
            NoDup (flat_map (fun s =>
                     flat_map (fun h => map (fun t => (s, h, t)) (seq 0 g2))
                       (seq 0 g1)) l0)).
  { intros l0. induction 1 as [|s l0 Hns Hnd IH]; simpl; [constructor|].
    apply NoDup_app; [apply H1, seq_NoDup | exact IH |].
    intros u Hu Hu'. apply Hin in Hu. destruct Hu as [Es _].
    apply in_flat_map in Hu'. destruct Hu' as (s' & Hs' & Hu').
    apply Hin in Hu'. destruct Hu' as [Es' _].
    rewrite Es in Es'. subst s'. contradiction. }
  apply H0, seq_NoDup.
Qed.

Section GroupFacts.

Variable pad : nat -> nat -> R.
Variable c : call.
Variable msl : nat.

Hypothesis Hc : contract c.
Hypothesis Hh : 0 < num_heads c.
Hypothesis Hinj : block_table_injective (kernel_args c pad).

Let a := kernel_args c pad.
Let G := grid_units (grid c msl).

Lemma writes_cache_per_head_inv (s h t b hd d sl : nat) :
  writes_cache_per_head a s h t b hd d sl = true ->
  live a s t = true /\
  b = block_tables c s t /\ hd = h / num_kv_group c /\
  d < Lk c /\ sl < block_size c /\
  t * block_size c + sl < seq_length c s.
Proof.
  unfold writes_cache_per_head.
  rewrite !andb_true_iff, !Nat.eqb_eq, !Nat.ltb_lt.
  change (Kernel.cur_seq_len a s) with (seq_length c s).
  change (Kernel.BLOCK_SIZE a) with (block_size c).
  change (Kernel.HEAD_DIM a) with (Lk c).
  change (Kernel.cur_block_id a s t) with (block_tables c s t).
  change (Kernel.cur_kv_head_idx a h) with (h / num_kv_group c).
  intros H. repeat split; try tauto. lia.
Qed.

(** The first head of a group stores whatever a head of the group would. *)
Lemma leader_writes (s h t b hd d sl : nat) :
  writes_cache_per_head a s h t b hd d sl = true ->
  writes_cache a s (hd * num_kv_group c) t b hd d sl = true.
Proof.
  intros Hw. pose proof Hw as Hw'.
  apply writes_cache_per_head_inv in Hw'.
  destruct Hw' as (Hl & _ & Ehd & _).
  destruct (heads_grouped c Hc Hh) as [Hg _].
  unfold writes_cache_per_head in Hw.
  unfold writes_cache, cache_writer.
  change (Kernel.KV_GROUPS a) with (num_kv_group c).
  change (Kernel.cur_kv_head_idx a (hd * num_kv_group c))
    with (hd * num_kv_group c / num_kv_group c).
  change (Kernel.cur_kv_head_idx a h) with (h / num_kv_group c) in Hw.
  rewrite Nat.Div0.mod_mul, Nat.div_mul by lia.
  rewrite Hl in *. simpl. rewrite Nat.eqb_refl.
  rewrite !andb_true_iff in Hw. rewrite !andb_true_iff. tauto.
Qed.

Lemma writes_cache_per_head_of (s h t b hd d sl : nat) :
  writes_cache a s h t b hd d sl = true ->
  writes_cache_per_head a s h t b hd d sl = true.
Proof.
  unfold writes_cache, writes_cache_per_head, cache_writer.
  rewrite !andb_true_iff. tauto.
Qed.

Lemma leader_in_grid (s h t : nat) :
  In (s, h, t) G -> In (s, h / num_kv_group c * num_kv_group c, t) G.
Proof.
  unfold G, grid. rewrite !in_grid_units. intros (Hs & Hh' & Ht).
  destruct (heads_grouped c Hc Hh) as [Hg _].
  pose proof (Nat.Div0.mul_div_le h (num_kv_group c)).
  repeat split; [assumption | lia | assumption].
Qed.

(** Two actual writers of a cache cell store the same value. *)
Lemma cache_writers_agree (x : cell) (b hd d sl s h t s' h' t' : nat) :
  x = KCell b hd d sl \/ x = VCell b hd d sl ->
  writes_cache_per_head a s h t b hd d sl = true ->
  writes_cache_per_head a s' h' t' b hd d sl = true ->
  stored a s' h' t' x = stored a s h t x.
Proof.
  intros Hx Hw Hw'.
  apply writes_cache_per_head_inv in Hw, Hw'.
  destruct Hw as (Hl & Eb & Ehd & _ & _ & Hsl).
  destruct Hw' as (Hl' & Eb' & Ehd' & _ & _ & Hsl').
  destruct (Hinj s t s' t' Hl Hl' ltac:(simpl; congruence)) as [<- <-].
  destruct Hx as [-> | ->]; simpl;
    rewrite !(stored_cache_value pad c) by assumption; congruence.
Qed.

(** The caches after the launch and after the hypothetical launch. *)
Lemma per_head_same_cell (st1 st2 : Kernel.mem) (x : cell)
    (b hd d sl : nat) :
  (forall y, read st1 y =
     match last_writer a G y with
     | Some u => stored_u a u y
     | None => read (initial_mem c) y
     end) ->
  (forall y, read st2 y =
     match find (fun u => writes_per_head a u y) (rev G) with
     | Some u => stored_u a u y
     | None => read (initial_mem c) y
     end) ->
  x = KCell b hd d sl \/ x = VCell b hd d sl ->
  read st1 x = read st2 x.
Proof.
  intros Hrd1 Hrd2 Hx. rewrite Hrd1, Hrd2.
  assert (Hwx : forall u,
            writes_per_head a u x =
            writes_cache_per_head a (fst (fst u)) (snd (fst u)) (snd u)
              b hd d sl).
  { intros [[s h] t]. destruct Hx as [-> | ->]; reflexivity. }
  assert (Hax : forall u,
            writes_u a u x =
            writes_cache a (fst (fst u)) (snd (fst u)) (snd u) b hd d sl).
  { intros [[s h] t]. destruct Hx as [-> | ->]; reflexivity. }
  destruct (find (fun u => writes_per_head a u x) (rev G))
    as [[[s2 h2] t2]|] eqn:E2.
  - apply find_some in E2. destruct E2 as [Hin2 Hw2].
    apply in_rev in Hin2. rewrite Hwx in Hw2. simpl in Hw2.
    pose proof (writes_cache_per_head_inv _ _ _ _ _ _ _ Hw2)
      as (_ & _ & Ehd & _).
    subst hd.
    pose proof (leader_writes _ _ _ _ _ _ _ Hw2) as Hlead.
    rewrite (last_writer_owner a G x
               (s2, h2 / num_kv_group c * num_kv_group c, t2)).
    + simpl.
      apply (cache_writers_agree x b (h2 / num_kv_group c) d sl);
        [exact Hx | exact Hw2 | now apply writes_cache_per_head_of].
    + now apply leader_in_grid.
    + rewrite Hax. exact Hlead.
    + intros [[s' h'] t'] _ Hw'. rewrite Hax in Hw'. simpl in Hw'. simpl.
      apply (cache_writers_agree x b (h2 / num_kv_group c) d sl);
        [exact Hx | | ]; now apply writes_cache_per_head_of.
  - assert (Hnone : last_writer a G x = None).
    { apply last_writer_none. intros u Hu.
      destruct (writes_u a u x) eqn:E; [|reflexivity].
      rewrite Hax in E. apply writes_cache_per_head_of in E.
      rewrite <- Hwx in E.
      apply in_rev in Hu. rewrite (find_none _ _ E2 u Hu) in E.
      discriminate. }
    now rewrite Hnone.
Qed.

End GroupFacts.

Lemma read_const_mem (r : R) (x : cell) : read (const_mem r) x = r.
Proof. destruct x; reflexivity. Qed.

Lemma kernel_args_static_asserts (pad : nat -> nat -> R) (c : call) :
  Kernel.static_asserts (kernel_args c pad) = true.
Proof. unfold Kernel.static_asserts. simpl. now rewrite Nat.eqb_refl. Qed.

(** The write set [writes_u] is exactly what a unit observably stores. *)
Lemma changes_cell_iff (a : Kernel.args) (u : nat * nat * nat) (x : cell) :
  Kernel.static_asserts a = true -> 0 < Kernel.BLOCK_N a ->
  (changes_cell a u x <-> writes_u a u x = true).
Proof.
  intros Hsa HB. destruct u as [[s h] t]. split.
  - intros (st & st' & Hrun & Hne).
    change (Kernel._fwd_context_paged_attention_kernel a s h t st = Some st')
      in Hrun.
    destruct (kernel_effect a s h t st Hsa HB) as (st'' & Hk & Hrd).
    rewrite Hk in Hrun. injection Hrun as <-.
    change (writes a s h t x = true).
    destruct (writes a s h t x) eqn:E; [reflexivity|].
    exfalso. apply Hne. rewrite Hrd, E. reflexivity.
  - intros Hw. change (writes a s h t x = true) in Hw.
    destruct (kernel_effect a s h t (const_mem (stored a s h t x + 1)) Hsa HB)
      as (st' & Hk & Hrd).
    exists (const_mem (stored a s h t x + 1)), st'.
    split; [exact Hk|].
    rewrite Hrd, Hw, read_const_mem. lra.
Qed.

(** A head that is not the first of its group runs the kernel without
    touching either cache (the guard of the cache copy). *)
Lemma follower_keeps_caches (pad : nat -> nat -> R) (c : call)
    (s h t : nat) (st : Kernel.mem) :
  contract c -> h mod num_kv_group c <> 0 ->
  exists st',
    Kernel._fwd_context_paged_attention_kernel (kernel_args c pad) s h t st
      = Some st' /\
    forall b hd d sl,
      Kernel.KCache st' b hd d sl = Kernel.KCache st b hd d sl /\
      Kernel.VCache st' b hd d sl = Kernel.VCache st b hd d sl.
Proof.
  intros Hc Hmod.
  destruct (kernel_effect (kernel_args c pad) s h t st
              (kernel_args_static_asserts pad c) (contract_block_size c Hc))
    as (st' & Hk & Hrd).
  exists st'. split; [exact Hk|]. intros b hd d sl.
  assert (Hcw : forall b hd d sl,
            writes_cache (kernel_args c pad) s h t b hd d sl = false).
  { intros b' hd' d' sl'.
    destruct (writes_cache (kernel_args c pad) s h t b' hd' d' sl') eqn:E;
      [|reflexivity].
    apply (writes_cache_inv pad c) in E. tauto. }
  split.
  - change (read st' (KCell b hd d sl) = read st (KCell b hd d sl)).
    rewrite Hrd.
    change (writes (kernel_args c pad) s h t (KCell b hd d sl))
      with (writes_cache (kernel_args c pad) s h t b hd d sl).
    now rewrite Hcw.
  - change (read st' (VCell b hd d sl) = read st (VCell b hd d sl)).
    rewrite Hrd.
    change (writes (kernel_args c pad) s h t (VCell b hd d sl))
      with (writes_cache (kernel_args c pad) s h t b hd d sl).
    now rewrite Hcw.
Qed.

(** The first head of a group, on a tile that does real work, stores the
    tile's key and value vectors into the block the block table names,
    under its kv head, and touches no other cache slot. *)
Lemma leader_fills_block (pad : nat -> nat -> R) (c : call)
    (s h t : nat) (st : Kernel.mem) :
  contract c -> live (kernel_args c pad) s t = true ->
  h mod num_kv_group c = 0 ->
  exists st',
    Kernel._fwd_context_paged_attention_kernel (kernel_args c pad) s h t st
      = Some st' /\
    (forall d sl,
       d < Lk c -> sl < block_size c ->
       t * block_size c + sl < seq_length c s ->
       Kernel.KCache st' (block_tables c s t) (h / num_kv_group c) d sl =
         k c (seq_start c s + (t * block_size c + sl))
           (h / num_kv_group c) d /\
       Kernel.VCache st' (block_tables c s t) (h / num_kv_group c) d sl =
         v c (seq_start c s + (t * block_size c + sl))
           (h / num_kv_group c) d) /\
    (forall b hd d sl,
       ~ (b = block_tables c s t /\ hd = h / num_kv_group c /\
          d < Lk c /\ sl < block_size c /\
          t * block_size c + sl < seq_length c s) ->
       Kernel.KCache st' b hd d sl = Kernel.KCache st b hd d sl /\
       Kernel.VCache st' b hd d sl = Kernel.VCache st b hd d sl).
Proof.
  intros Hc Hl Hmod.
  destruct (kernel_effect (kernel_args c pad) s h t st
              (kernel_args_static_asserts pad c) (contract_block_size c Hc))
    as (st' & Hk & Hrd).
  exists st'. split; [exact Hk|]. split.
  - intros d sl Hd Hsl Hlen.
    assert (Hw : writes_cache (kernel_args c pad) s h t
                   (block_tables c s t) (h / num_kv_group c) d sl = true).
    { unfold writes_cache, cache_writer. rewrite Hl.
      change (Kernel.KV_GROUPS (kernel_args c pad)) with (num_kv_group c).
      change (Kernel.cur_kv_head_idx (kernel_args c pad) h)
        with (h / num_kv_group c).
      change (Kernel.cur_block_id (kernel_args c pad) s t)
        with (block_tables c s t).
      change (Kernel.HEAD_DIM (kernel_args c pad)) with (Lk c).
      change (Kernel.BLOCK_SIZE (kernel_args c pad)) with (block_size c).
      change (Kernel.cur_seq_len (kernel_args c pad) s)
        with (seq_length c s).
      rewrite Hmod.
      rewrite !andb_true_iff, !Nat.eqb_eq, !Nat.ltb_lt.
      repeat split; lia. }
    split.
    + change (read st' (KCell (block_tables c s t) (h / num_kv_group c) d sl)
              = k c (seq_start c s + (t * block_size c + sl))
                  (h / num_kv_group c) d).
      rewrite Hrd.
      change (writes (kernel_args c pad) s h t
                (KCell (block_tables c s t) (h / num_kv_group c) d sl))
        with (writes_cache (kernel_args c pad) s h t
                (block_tables c s t) (h / num_kv_group c) d sl).
      rewrite Hw.
      exact (stored_cache_value pad c (k c) s h t sl d Hlen).
    + change (read st' (VCell (block_tables c s t) (h / num_kv_group c) d sl)
              = v c (seq_start c s + (t * block_size c + sl))
                  (h / num_kv_group c) d).
      rewrite Hrd.
      change (writes (kernel_args c pad) s h t
                (VCell (block_tables c s t) (h / num_kv_group c) d sl))
        with (writes_cache (kernel_args c pad) s h t
                (block_tables c s t) (h / num_kv_group c) d sl).
      rewrite Hw.
      exact (stored_cache_value pad c (v c) s h t sl d Hlen).
  - intros b hd d sl Hout.
    assert (Hw : writes_cache (kernel_args c pad) s h t b hd d sl = false).
    { destruct (writes_cache (kernel_args c pad) s h t b hd d sl) eqn:E;
        [|reflexivity].
      apply (writes_cache_inv pad c) in E. exfalso. apply Hout. tauto. }
    split.
    + change (read st' (KCell b hd d sl) = read st (KCell b hd d sl)).
      rewrite Hrd.
      change (writes (kernel_args c pad) s h t (KCell b hd d sl))
        with (writes_cache (kernel_args c pad) s h t b hd d sl).
      now rewrite Hw.
    + change (read st' (VCell b hd d sl) = read st (VCell b hd d sl)).
      rewrite Hrd.
      change (writes (kernel_args c pad) s h t (VCell b hd d sl))
        with (writes_cache (kernel_args c pad) s h t b hd d sl).
      now rewrite Hw.
Qed.

(** C4: the cache copy is performed by the first head of each group only.
    On the kernel itself: a head [h] with [h mod group_size <> 0] returns
    both caches as it found them, whatever the memory; a head with
    [h mod group_size = 0] on a tile that does real work leaves the
    tile's key and value vectors in the block [block_tables[s][t]] under
    kv head [h / group_size] and no other slot changed; and a unit
    changes a cell on some memory exactly when the cell is in its write
    set [writes_u].  Hence for every such tile and kv head exactly one
    query head reaches the cache copy for that kv head, every cache slot
    a dispatched tile fills is stored to by exactly one unit of the
    launch, whatever the group size, and the caches after the call equal
    those a launch in which every head copies would leave.  (Block table
    injective, at least one query head.) *)
Theorem group_sharing (pad : nat -> nat -> R) (c : call) (msl : nat) :
  contract c -> max_seq_len c = Some msl ->
  block_table_injective (kernel_args c pad) -> 0 < num_heads c ->
  (forall s h t st,
     h mod num_kv_group c <> 0 ->
     exists st',
       Kernel._fwd_context_paged_attention_kernel (kernel_args c pad) s h t st
         = Some st' /\
       forall b hd d sl,
         Kernel.KCache st' b hd d sl = Kernel.KCache st b hd d sl /\
         Kernel.VCache st' b hd d sl = Kernel.VCache st b hd d sl) /\
  (forall s h t st,
     live (kernel_args c pad) s t = true -> h mod num_kv_group c = 0 ->
     exists st',
       Kernel._fwd_context_paged_attention_kernel (kernel_args c pad) s h t st
         = Some st' /\
       (forall d sl,
          d < Lk c -> sl < block_size c ->
          t * block_size c + sl < seq_length c s ->
          Kernel.KCache st' (block_tables c s t) (h / num_kv_group c) d sl =
            k c (seq_start c s + (t * block_size c + sl))
              (h / num_kv_group c) d /\
          Kernel.VCache st' (block_tables c s t) (h / num_kv_group c) d sl =
            v c (seq_start c s + (t * block_size c + sl))
              (h / num_kv_group c) d) /\
       (forall b hd d sl,
          ~ (b = block_tables c s t /\ hd = h / num_kv_group c /\
             d < Lk c /\ sl < block_size c /\
             t * block_size c + sl < seq_length c s) ->
          Kernel.KCache st' b hd d sl = Kernel.KCache st b hd d sl /\
          Kernel.VCache st' b hd d sl = Kernel.VCache st b hd d sl)) /\
  (forall u x,
     changes_cell (kernel_args c pad) u x <->
     writes_u (kernel_args c pad) u x = true) /\
  (forall s t kvh,
     live (kernel_args c pad) s t = true -> kvh < num_kv_heads c ->
     exists h,
       h < num_heads c /\
       h mod num_kv_group c = 0 /\ h / num_kv_group c = kvh /\
       cache_writer (kernel_args c pad) s h t = true /\
       forall h',
         cache_writer (kernel_args c pad) s h' t = true ->
         Kernel.cur_kv_head_idx (kernel_args c pad) h' = kvh -> h' = h) /\
  (forall s t kvh d sl,
     s < num_seqs c -> t < cdiv msl (block_size c) ->
     t * block_size c + sl < seq_length c s -> sl < block_size c ->
     kvh < num_kv_heads c -> d < Lk c ->
     length (filter
               (fun u => writes_u (kernel_args c pad) u
                           (KCell (block_tables c s t) kvh d sl))
               (grid_units (grid c msl))) = 1 /\
     length (filter
               (fun u => writes_u (kernel_args c pad) u
                           (VCell (block_tables c s t) kvh d sl))
               (grid_units (grid c msl))) = 1) /\
  exists st1 st2,
    context_attention_unpadded pad c =
      (inr (Kernel.Out st1), (Kernel.KCache st1, Kernel.VCache st1)) /\
    launch_write_per_head (kernel_args c pad) (grid_units (grid c msl))
      (initial_mem c) = (true, st2) /\
    forall b hd d sl,
      Kernel.KCache st1 b hd d sl = Kernel.KCache st2 b hd d sl /\
      Kernel.VCache st1 b hd d sl = Kernel.VCache st2 b hd d sl.
Proof.
  intros Hc Hm Hinj Hh.
  pose proof (contract_block_size c Hc) as Hbs.
  destruct (heads_grouped c Hc Hh) as [Hg Hn].
  split; [|split; [|split; [|split; [|split]]]].
  - intros s h t st Hmod. now apply follower_keeps_caches.
  - intros s h t st Hl Hmod. now apply leader_fills_block.
  - intros u x. apply changes_cell_iff.
    + apply kernel_args_static_asserts.
    + exact Hbs.
  - intros s t kvh Hl Hkv.
    destruct (group_leader (num_kv_group c) (num_kv_heads c) kvh Hg Hkv)
      as (Hlt & Hmod & Hdiv).
    exists (kvh * num_kv_group c). repeat split; try assumption.
    + lia.
    + unfold cache_writer. rewrite Hl.
      change (Kernel.KV_GROUPS (kernel_args c pad)) with (num_kv_group c).
      now rewrite Hmod.
    + intros h' Hw' Ekv. unfold cache_writer in Hw'.
      apply andb_true_iff in Hw'. destruct Hw' as [_ Hm'].
      apply Nat.eqb_eq in Hm'.
      apply (group_leader_unique (num_kv_group c)); try assumption.
      now rewrite Hdiv.
  - intros s t kvh d sl Hs Ht Hsl Hsb Hkv Hd.
    destruct (group_leader (num_kv_group c) (num_kv_heads c) kvh Hg Hkv)
      as (Hlt & Hmod & Hdiv).
    assert (Hlive : live (kernel_args c pad) s t = true).
    { apply live_iff. split; lia. }
    assert (Hw : writes_cache (kernel_args c pad) s (kvh * num_kv_group c) t
                   (block_tables c s t) kvh d sl = true).
    { apply (leader_writes pad c Hc Hh) with (h := kvh * num_kv_group c).
      unfold writes_cache_per_head. rewrite Hlive.
      change (Kernel.cur_kv_head_idx (kernel_args c pad)
                (kvh * num_kv_group c))
        with (kvh * num_kv_group c / num_kv_group c).
      rewrite Hdiv.
      change (Kernel.cur_block_id (kernel_args c pad) s t)
        with (block_tables c s t).
      change (Kernel.HEAD_DIM (kernel_args c pad)) with (Lk c).
      change (Kernel.BLOCK_SIZE (kernel_args c pad)) with (block_size c).
      change (Kernel.cur_seq_len (kernel_args c pad) s)
        with (seq_length c s).
      rewrite !andb_true_iff, !Nat.eqb_eq, !Nat.ltb_lt.
      repeat split; lia. }
    assert (Huniq : forall u, In u (grid_units (grid c msl)) ->
              writes_cache (kernel_args c pad) (fst (fst u)) (snd (fst u))
                (snd u) (block_tables c s t) kvh d sl = true ->
              u = (s, kvh * num_kv_group c, t)).
    { intros [[s' h'] t'] _ Hw'. simpl in Hw'.
      apply (writes_cache_inv pad c) in Hw'.
      destruct Hw' as (Hl' & Hm' & Eb & Ekv & _).
      destruct (Hinj s t s' t' Hlive Hl' Eb) as [<- <-].
      f_equal. f_equal.
      apply (group_leader_unique (num_kv_group c)); try assumption.
      now rewrite Hdiv. }
    assert (Hin : In (s, kvh * num_kv_group c, t) (grid_units (grid c msl))).
    { apply (unit_in_grid c msl); [exact Hs | lia | exact Ht]. }
    split.
    + rewrite (filter_unique _ _ (s, kvh * num_kv_group c, t));
        [reflexivity | apply grid_units_NoDup | exact Hin | exact Hw |].
      intros [[s' h'] t'] Hin' Hw'. exact (Huniq (s', h', t') Hin' Hw').
    + rewrite (filter_unique _ _ (s, kvh * num_kv_group c, t));
        [reflexivity | apply grid_units_NoDup | exact Hin | exact Hw |].
      intros [[s' h'] t'] Hin' Hw'. exact (Huniq (s', h', t') Hin' Hw').
  - destruct (wrapper_accepts pad c msl Hc Hm) as (st1 & _ & Hw1 & Hrd1).
    destruct (launch_write_per_head_effect (kernel_args c pad)
                (grid_units (grid c msl)))
      with (st := initial_mem c) as (st2 & Hl2 & Hrd2).
    { unfold Kernel.static_asserts. simpl. now rewrite Nat.eqb_refl. }
    { exact Hbs. }
    exists st1, st2. split; [exact Hw1|]. split; [exact Hl2|].
    intros b hd d sl. split.
    + apply (per_head_same_cell pad c msl Hc Hh Hinj st1 st2
               (KCell b hd d sl) b hd d sl Hrd1 Hrd2). now left.
    + apply (per_head_same_cell pad c msl Hc Hh Hinj st1 st2
               (VCell b hd d sl) b hd d sl Hrd1 Hrd2). now right.
Qed.

Lemma group_sharing_witness :
  (forall s h t st,
     h mod num_kv_group sample_call <> 0 ->
     exists st',
       Kernel._fwd_context_paged_attention_kernel
         (kernel_args sample_call pad0) s h t st = Some st' /\
       forall b hd d sl,
         Kernel.KCache st' b hd d sl = Kernel.KCache st b hd d sl /\
         Kernel.VCache st' b hd d sl = Kernel.VCache st b hd d sl) /\
  (forall s h t st,
     live (kernel_args sample_call pad0) s t = true ->
     h mod num_kv_group sample_call = 0 ->
     exists st',
       Kernel._fwd_context_paged_attention_kernel
         (kernel_args sample_call pad0) s h t st = Some st' /\
       (forall d sl,
          d < Lk sample_call -> sl < block_size sample_call ->
          t * block_size sample_call + sl < seq_length sample_call s ->
          Kernel.KCache st' (block_tables sample_call s t)
            (h / num_kv_group sample_call) d sl =
            k sample_call
              (seq_start sample_call s + (t * block_size sample_call + sl))
              (h / num_kv_group sample_call) d /\
          Kernel.VCache st' (block_tables sample_call s t)
            (h / num_kv_group sample_call) d sl =
            v sample_call
              (seq_start sample_call s + (t * block_size sample_call + sl))
              (h / num_kv_group sample_call) d) /\
       (forall b hd d sl,
          ~ (b = block_tables sample_call s t /\
             hd = h / num_kv_group sample_call /\
             d < Lk sample_call /\ sl < block_size sample_call /\
             t * block_size sample_call + sl < seq_length sample_call s) ->
          Kernel.KCache st' b hd d sl = Kernel.KCache st b hd d sl /\
          Kernel.VCache st' b hd d sl = Kernel.VCache st b hd d sl)) /\
  (forall u x,
     changes_cell (kernel_args sample_call pad0) u x <->
     writes_u (kernel_args sample_call pad0) u x = true) /\
  (forall s t kvh,
     live (kernel_args sample_call pad0) s t = true ->
     kvh < num_kv_heads sample_call ->
     exists h,
       h < num_heads sample_call /\
       h mod num_kv_group sample_call = 0 /\
       h / num_kv_group sample_call = kvh /\
       cache_writer (kernel_args sample_call pad0) s h t = true /\
       forall h',
         cache_writer (kernel_args sample_call pad0) s h' t = true ->
         Kernel.cur_kv_head_idx (kernel_args sample_call pad0) h' = kvh ->
         h' = h) /\
  (forall s t kvh d sl,
     s < num_seqs sample_call -> t < cdiv 20 (block_size sample_call) ->
     t * block_size sample_call + sl < seq_length sample_call s ->
     sl < block_size sample_call ->
     kvh < num_kv_heads sample_call -> d < Lk sample_call ->
     length (filter
               (fun u => writes_u (kernel_args sample_call pad0) u
                           (KCell (block_tables sample_call s t) kvh d sl))
               (grid_units (grid sample_call 20))) = 1 /\
     length (filter
               (fun u => writes_u (kernel_args sample_call pad0) u
                           (VCell (block_tables sample_call s t) kvh d sl))
               (grid_units (grid sample_call 20))) = 1) /\
  exists st1 st2,
    context_attention_unpadded pad0 sample_call =
      (inr (Kernel.Out st1), (Kernel.KCache st1, Kernel.VCache st1)) /\
    launch_write_per_head (kernel_args sample_call pad0)
      (grid_units (grid sample_call 20)) (initial_mem sample_call)
      = (true, st2) /\
    forall b hd d sl,
      Kernel.KCache st1 b hd d sl = Kernel.KCache st2 b hd d sl /\
      Kernel.VCache st1 b hd d sl = Kernel.VCache st2 b hd d sl.
Proof.
  apply (group_sharing pad0 sample_call 20).
  - exact sample_contract.
  - reflexivity.
  - exact sample_block_table_injective.
  - apply Nat.ltb_lt. reflexivity.
Defined.

(** ** The order of the units does not matter *)

Lemma writers_agree (a : Kernel.args) (u u' : nat * nat * nat) (x : cell) :
  block_table_injective a ->
  writes_u a u x = true -> writes_u a u' x = true ->
  stored_u a u x = stored_u a u' x.
Proof.
  intros Hinj. destruct u as [[s h] t], u' as [[s' h'] t'].
  assert (Hcache : forall b hd d sl,
            writes_cache a s h t b hd d sl = true ->
            writes_cache a s' h' t' b hd d sl = true ->
            s = s' /\ t = t' /\
            Kernel.cur_kv_head_idx a h = Kernel.cur_kv_head_idx a h').
  { intros b hd d sl Hw Hw'. unfold writes_cache, cache_writer in Hw, Hw'.
    rewrite !andb_true_iff, !Nat.eqb_eq in Hw, Hw'.
    destruct Hw as [[[[[[Hl _] Eb] Eh] _] _] _].
    destruct Hw' as [[[[[[Hl' _] Eb'] Eh'] _] _] _].
    destruct (Hinj s t s' t' Hl Hl') as [-> ->].
    - unfold Kernel.cur_block_id in Eb, Eb'. congruence.
    - repeat split. congruence. }
  destruct x as [tk hd d|b hd d sl|b hd d sl]; simpl; intros Hw Hw'.
  - destruct (writes_out_unique a s h t s' h' t' tk hd d Hw Hw')
      as (-> & -> & ->).
    reflexivity.
  - destruct (Hcache b hd d sl Hw Hw') as (-> & -> & E).
    unfold Kernel.load_kv. now rewrite E.
  - destruct (Hcache b hd d sl Hw Hw') as (-> & -> & E).
    unfold Kernel.load_kv. now rewrite E.
Qed.

(** X10: the order in which the units of a grid run is immaterial: two
    schedules made of the same units both complete and leave the same
    output tensor and the same caches, the block table giving distinct
    blocks to distinct (sequence, tile) pairs. *)
Lemma schedule_irrelevant (a : Kernel.args)
    (us us' : list (nat * nat * nat)) (st : Kernel.mem) :
  Kernel.static_asserts a = true -> 0 < Kernel.BLOCK_N a ->
  block_table_injective a ->
  (forall u, In u us <-> In u us') ->
  exists st1 st2,
    launch a us st = (true, st1) /\
    launch a us' st = (true, st2) /\
    forall x, read st1 x = read st2 x.
Proof.
  intros Hsa HB Hinj Hsame.
  destruct (launch_effect a us Hsa HB st) as (st1 & H1 & Hrd1).
  destruct (launch_effect a us' Hsa HB st) as (st2 & H2 & Hrd2).
  exists st1, st2. split; [exact H1|]. split; [exact H2|].
  intros x. rewrite Hrd1, Hrd2.
  destruct (last_writer a us x) as [u|] eqn:E.
  - apply last_writer_some in E. destruct E as [Hin Hw].
    symmetry. apply last_writer_owner.
    + now apply Hsame.
    + exact Hw.
    + intros u' _ Hw'. now apply writers_agree.
  - rewrite last_writer_none in E.
    assert (E' : last_writer a us' x = None).
    { apply last_writer_none. intros u Hu. apply E. now apply Hsame. }
    now rewrite E'.
Qed.

(** * Further properties of the kernel and the wrapper *)

(** ** Locating a packed token *)

Lemma locate_some (cl : list nat) (tk s p : nat) :
  locate cl tk = Some (s, p) <->
  s < length cl /\ p < nth s cl 0 /\ tk = list_sum (firstn s cl) + p.
Proof.
  revert tk s p. induction cl as [|len rest IH]; intros tk s p.
  - simpl. split; [discriminate|]. intros [H _]. lia.
  - simpl locate. destruct (Nat.ltb_spec tk len) as [L|L].
    + split.
      * intros E. inversion E; subst. simpl. repeat split; lia.
      * intros (Hs & Hp & E). destruct s as [|s].
        -- simpl in E. now subst.
        -- simpl in E. lia.
    + destruct (locate rest (tk - len)) as [[s' p']|] eqn:E'.
      * apply IH in E'. destruct E' as (Hs' & Hp' & Et). split.
        -- intros E. inversion E; subst. simpl. repeat split; lia.
        -- intros (Hs & Hp & E). destruct s as [|s]; [simpl in *; lia|].
           simpl in Hs, Hp, E.
           assert (H : locate rest (tk - len) = Some (s, p)).
           { apply IH. repeat split; lia. }
           apply IH in H. destruct H as (Hs2 & Hp2 & Et2).
           assert (Es : s' = s).
           { clear - Hs' Hp' Et Hs2 Hp2 Et2.
             assert (Hm : forall (l : list nat) (x y : nat), x < y ->
                       list_sum (firstn x l) + nth x l 0
                       <= list_sum (firstn y l)).
             { intros l x y. induction 1 as [|y _ IHy].
               - rewrite list_sum_firstn_S. lia.
               - rewrite list_sum_firstn_S. lia. }
             destruct (Nat.lt_trichotomy s' s) as [Hl|[Hl|Hl]];
               [|exact Hl|].
             - pose proof (Hm rest s' s Hl). lia.
             - pose proof (Hm rest s s' Hl). lia. }
           subst s'. f_equal. f_equal. lia.
      * split; [discriminate|]. intros (Hs & Hp & E).
        destruct s as [|s]; [simpl in *; lia|].
        simpl in Hs, Hp, E.
        assert (H : locate rest (tk - len) = Some (s, p)).
        { apply IH. repeat split; lia. }
        congruence.
Qed.

Lemma locate_none (cl : list nat) (tk : nat) :
  locate cl tk = None <-> list_sum cl <= tk.
Proof.
  revert tk. induction cl as [|len rest IH]; intros tk.
  - simpl. split; [lia | reflexivity].
  - simpl locate. simpl list_sum.
    destruct (Nat.ltb_spec tk len) as [L|L].
    + split; [discriminate | lia].
    + destruct (locate rest (tk - len)) as [[s p]|] eqn:E.
      * split; [discriminate|]. intros H.
        assert (E' : locate rest (tk - len) = None) by (apply IH; lia).
        congruence.
      * apply IH in E. split; [lia | reflexivity].
Qed.

Lemma list_sum_firstn_le (l : list nat) (n : nat) :
  list_sum (firstn n l) <= list_sum l.
Proof.
  revert n. induction l as [|x l IH]; intros n.
  - destruct n; simpl; lia.
  - destruct n as [|n]; simpl; [lia|]. specialize (IH n). lia.
Qed.

(** ** The whole output tensor *)

Section WholeOutput.

Variable pad : nat -> nat -> R.
Variable c : call.
Variable msl : nat.

Hypothesis Hc : contract c.

Let a := kernel_args c pad.
Let G := grid_units (grid c msl).

Lemma out_total_value (st' : Kernel.mem) (tk hd d : nat) :
  (forall x, read st' x =
     match last_writer a G x with
     | Some u => stored_u a u x
     | None => read (initial_mem c) x
     end) ->
  Kernel.Out st' tk hd d = expected_out c msl tk hd d.
Proof.
  intros Hrd. unfold expected_out.
  assert (Hlen : length (context_lengths c) = num_seqs c).
  { destruct Hc as (_ & _ & _ & _ & H & _). exact H. }
  destruct (locate (context_lengths c) tk) as [[s p]|] eqn:E.
  - apply locate_some in E. destruct E as (Hs & Hp & ->).
    apply (out_cell_value pad c msl Hc st' s p hd d Hrd); [lia|exact Hp].
  - apply locate_none in E.
    specialize (Hrd (OutCell tk hd d)). simpl in Hrd. rewrite Hrd.
    destruct (last_writer a G (OutCell tk hd d)) as [[[s' h'] t']|] eqn:EL;
      [|reflexivity].
    apply last_writer_some in EL. destruct EL as [_ Hw]. simpl in Hw.
    apply writes_out_inv in Hw. destruct Hw as (_ & _ & _ & _ & _ & Hlt).
    unfold Kernel.prev_seq_len_sum, a in Hlt.
    rewrite (kernel_seq_start pad c s') in Hlt.
    change (Kernel.cur_seq_len (kernel_args c pad) s')
      with (nth s' (context_lengths c) 0) in Hlt.
    unfold seq_start in Hlt. rewrite <- list_sum_firstn_S in Hlt.
    pose proof (list_sum_firstn_le (context_lengths c) (S s')). lia.
Qed.

End WholeOutput.

(** A call that returns passed the contract and has a maximum length. *)
Lemma wrapper_returns_inv (pad : nat -> nat -> R) (c : call)
    (out : tensor3) (kc vc : tensor4) :
  context_attention_unpadded pad c = (inr out, (kc, vc)) ->
  contract c /\ exists msl, max_seq_len c = Some msl.
Proof.
  intros Hw.
  assert (Hcase : (contract c /\ exists msl, max_seq_len c = Some msl) \/
                  (~ contract c \/ max_seq_len c = None)).
  { destruct (contract_decidable c) as [H|H]; [|auto].
    destruct (max_seq_len c) as [msl|] eqn:E; [|auto].
    left. split; [assumption | now exists msl]. }
  destruct Hcase as [H|H]; [exact H|].
  destruct (wrapper_rejects pad c H) as [[He|He] _];
    rewrite Hw in He; discriminate.
Qed.

(** The memory a returning call reached. *)
Lemma wrapper_returns_mem (pad : nat -> nat -> R) (c : call) (msl : nat)
    (out : tensor3) (kc vc : tensor4) :
  contract c -> max_seq_len c = Some msl ->
  context_attention_unpadded pad c = (inr out, (kc, vc)) ->
  exists st',
    out = Kernel.Out st' /\ kc = Kernel.KCache st' /\
    vc = Kernel.VCache st' /\
    forall x, read st' x =
      match last_writer (kernel_args c pad) (grid_units (grid c msl)) x with
      | Some u => stored_u (kernel_args c pad) u x
      | None => read (initial_mem c) x
      end.
Proof.
  intros Hc Hm Hw.
  destruct (wrapper_accepts pad c msl Hc Hm) as (st' & _ & Hw' & Hrd).
  rewrite Hw in Hw'. inversion Hw'. exists st'. auto.
Qed.

(** X1: in exact real arithmetic (no rounding, no overflow), every cell
    of the returned tensor is determined.  A packed token that
    [context_lengths] places at position [p] of sequence [s] holds, for a
    head and a dimension in range and a dispatched query tile, the dense
    causal softmax attention row; every other cell (a token past the total
    of the context lengths, a tile beyond the grid, a head or dimension
    out of range) holds the zero [torch.zeros_like] put there. *)
Theorem output_tensor_determined (pad : nat -> nat -> R) (c : call)
    (msl : nat) :
  contract c -> max_seq_len c = Some msl ->
  exists out kc vc,
    context_attention_unpadded pad c = (inr out, (kc, vc)) /\
    forall tk hd d, out tk hd d = expected_out c msl tk hd d.
Proof.
  intros Hc Hm.
  destruct (wrapper_accepts pad c msl Hc Hm) as (st' & _ & Hw & Hrd).
  exists (Kernel.Out st'), (Kernel.KCache st'), (Kernel.VCache st').
  split; [exact Hw|]. intros tk hd d.
  now apply (out_total_value pad c msl Hc).
Qed.

Lemma output_tensor_determined_witness :
  exists out kc vc,
    context_attention_unpadded pad0 sample_call = (inr out, (kc, vc)) /\
    forall tk hd d, out tk hd d = expected_out sample_call 20 tk hd d.
Proof.
  apply (output_tensor_determined pad0 sample_call 20).
  - exact sample_contract.
  - reflexivity.
Defined.

(** X2: in exact real arithmetic (no rounding, no overflow), without a
    hint the output is fully populated: every row of every sequence and
    query head is the dense causal softmax attention row. *)
Theorem no_hint_output_complete (pad : nat -> nat -> R) (c : call) :
  contract c -> max_seq_len_in_b c = None -> 0 < num_seqs c ->
  exists out kc vc,
    context_attention_unpadded pad c = (inr out, (kc, vc)) /\
    forall s h p d,
      s < num_seqs c -> h < num_heads c -> p < seq_length c s ->
      d < Lq c ->
      out (seq_start c s + p) h d = dense_attention c s h p d.
Proof.
  intros Hc Hhint Hn.
  pose proof (contract_block_size c Hc) as Hbs.
  destruct (max_seq_len_some c Hc Hn) as [msl Hm].
  pose proof (max_seq_len_covers c msl Hm) as Hcov.
  rewrite Hhint in Hcov. destruct Hcov as [_ Hmax].
  destruct (wrapper_accepts pad c msl Hc Hm) as (st' & _ & Hw & Hrd).
  exists (Kernel.Out st'), (Kernel.KCache st'), (Kernel.VCache st').
  split; [exact Hw|]. intros s h p d Hs Hh Hp Hd.
  rewrite (out_cell_value pad c msl Hc st' s p h d Hrd Hs Hp).
  assert (Hlen : length (context_lengths c) = num_seqs c).
  { destruct Hc as (_ & _ & _ & _ & H & _). exact H. }
  assert (Hle : seq_length c s <= msl).
  { apply Hmax. unfold seq_length. apply nth_In. lia. }
  assert (Hdisp : p / block_size c < cdiv msl (block_size c)).
  { apply cdiv_lt; [assumption|].
    pose proof (Nat.div_mod_eq p (block_size c)). nia. }
  apply Nat.ltb_lt in Hh, Hd, Hdisp. now rewrite Hh, Hd, Hdisp.
Qed.

Lemma no_hint_output_complete_witness :
  exists out kc vc,
    context_attention_unpadded pad0 sample_call = (inr out, (kc, vc)) /\
    forall s h p d,
      s < num_seqs sample_call -> h < num_heads sample_call ->
      p < seq_length sample_call s -> d < Lq sample_call ->
      out (seq_start sample_call s + p) h d =
      dense_attention sample_call s h p d.
Proof.
  apply (no_hint_output_complete pad0 sample_call).
  - exact sample_contract.
  - reflexivity.
  - apply Nat.ltb_lt. reflexivity.
Defined.

Lemma dense_first_token (c : call) (s h d : nat) :
  dense_attention c s h 0 d = v c (seq_start c s) (kv_head c h) d.
Proof.
  unfold dense_attention, dense_num, dense_den, dense_weight, dense_max.
  simpl. rewrite Nat.add_0_r.
  replace (dense_score c s h 0 0 - dense_score c s h 0 0)%R with 0%R by lra.
  rewrite exp_0. field.
Qed.

(** X3: in exact real arithmetic (no rounding, no overflow), the first
    token of a sequence attends to itself only: its output row, for every
    query head, is the value vector of that token in the head's kv head.
    (In float32 a later key whose score overflows spoils the row.) *)
Theorem first_token_copies_value (pad : nat -> nat -> R) (c : call)
    (msl s h d : nat) :
  contract c -> max_seq_len c = Some msl -> 0 < msl ->
  s < num_seqs c -> h < num_heads c -> 0 < seq_length c s -> d < Lq c ->
  exists out kc vc,
    context_attention_unpadded pad c = (inr out, (kc, vc)) /\
    out (seq_start c s) h d = v c (seq_start c s) (kv_head c h) d.
Proof.
  intros Hc Hm Hpos Hs Hh Hp Hd.
  pose proof (contract_block_size c Hc) as Hbs.
  destruct (wrapper_accepts pad c msl Hc Hm) as (st' & _ & Hw & Hrd).
  exists (Kernel.Out st'), (Kernel.KCache st'), (Kernel.VCache st').
  split; [exact Hw|].
  pose proof (out_cell_value pad c msl Hc st' s 0 h d Hrd Hs Hp) as Ho.
  rewrite Nat.add_0_r in Ho. rewrite Ho.
  assert (Hdisp : 0 / block_size c < cdiv msl (block_size c)).
  { apply cdiv_lt; [assumption|]. rewrite Nat.Div0.div_0_l. lia. }
  apply Nat.ltb_lt in Hh, Hd, Hdisp. rewrite Hh, Hd, Hdisp. simpl.
  apply dense_first_token.
Qed.

Lemma first_token_copies_value_witness :
  exists out kc vc,
    context_attention_unpadded pad0 sample_call = (inr out, (kc, vc)) /\
    out (seq_start sample_call 1) 1 5 =
    v sample_call (seq_start sample_call 1) (kv_head sample_call 1) 5.
Proof.
  apply (first_token_copies_value pad0 sample_call 20 1 1 5).
  - exact sample_contract.
  - reflexivity.
  - apply Nat.ltb_lt. reflexivity.
  - apply Nat.ltb_lt. reflexivity.
  - apply Nat.ltb_lt. reflexivity.
  - apply Nat.ltb_lt. reflexivity.
  - apply Nat.ltb_lt. reflexivity.
Defined.

Lemma weighted_sum_bounds (n : nat) (w x : nat -> R) (lo hi : R) :
  (forall j, j < n -> (0 <= w j)%R) ->
  (forall j, j < n -> (lo <= x j <= hi)%R) ->
  (lo * tl_sum n w <= tl_sum n (fun j => w j * x j) <= hi * tl_sum n w)%R.
Proof.
  induction n as [|n IH]; intros Hw Hx; simpl; [lra|].
  destruct IH as [IH1 IH2];
    [intros; apply Hw; lia | intros; apply Hx; lia |].
  pose proof (Hw n (Nat.lt_succ_diag_r n)).
  pose proof (Hx n (Nat.lt_succ_diag_r n)). nra.
Qed.

Lemma dense_attention_bounds (c : call) (s h p d : nat) (lo hi : R) :
  (forall j, j <= p ->
     (lo <= v c (seq_start c s + j)%nat (kv_head c h) d <= hi)%R) ->
  (lo <= dense_attention c s h p d <= hi)%R.
Proof.
  intros Hv. unfold dense_attention.
  pose proof (dense_den_pos c s h p) as Hpos.
  destruct (weighted_sum_bounds (S p) (dense_weight c s h p)
              (fun j => v c (seq_start c s + j) (kv_head c h) d) lo hi)
    as [H1 H2].
  - intros j _. unfold dense_weight. left. apply exp_pos.
  - intros j Hj. apply Hv. lia.
  - fold (dense_num c s h p d) in H1, H2. fold (dense_den c s h p) in H1, H2.
    pose proof (Rinv_0_lt_compat _ Hpos) as Hinv.
    unfold Rdiv. split.
    + replace lo with (lo * dense_den c s h p * / dense_den c s h p)%R
        by (field; lra).
      apply Rmult_le_compat_r; lra.
    + replace hi with (hi * dense_den c s h p * / dense_den c s h p)%R
        by (field; lra).
      apply Rmult_le_compat_r; lra.
Qed.

(** X4: in exact real arithmetic (no rounding, no overflow), an output
    row is a convex combination of the value vectors the query may see:
    if, in one dimension, the values of the tokens [0 .. p] of the
    sequence lie between [lo] and [hi], so does the output at position
    [p]. *)
Theorem output_within_value_range (pad : nat -> nat -> R) (c : call)
    (msl s h p d : nat) (lo hi : R) :
  contract c -> max_seq_len c = Some msl ->
  s < num_seqs c -> h < num_heads c ->
  p < seq_length c s -> p < msl -> d < Lq c ->
  (forall j, j <= p ->
     (lo <= v c (seq_start c s + j)%nat (kv_head c h) d <= hi)%R) ->
  exists out kc vc,
    context_attention_unpadded pad c = (inr out, (kc, vc)) /\
    (lo <= out (seq_start c s + p)%nat h d <= hi)%R.
Proof.
  intros Hc Hm Hs Hh Hp Hpm Hd Hv.
  pose proof (contract_block_size c Hc) as Hbs.
  destruct (wrapper_accepts pad c msl Hc Hm) as (st' & _ & Hw & Hrd).
  exists (Kernel.Out st'), (Kernel.KCache st'), (Kernel.VCache st').
  split; [exact Hw|].
  rewrite (out_cell_value pad c msl Hc st' s p h d Hrd Hs Hp).
  assert (Hdisp : p / block_size c < cdiv msl (block_size c)).
  { apply cdiv_lt; [assumption|].
    pose proof (Nat.div_mod_eq p (block_size c)). nia. }
  apply Nat.ltb_lt in Hh, Hd, Hdisp. rewrite Hh, Hd, Hdisp. simpl.
  now apply dense_attention_bounds.
Qed.

Lemma output_within_value_range_witness :
  exists out kc vc,
    context_attention_unpadded pad0 sample_call = (inr out, (kc, vc)) /\
    (1 <= out (seq_start sample_call 1 + 17)%nat 1%nat 5%nat <= 1)%R.
Proof.
  apply (output_within_value_range pad0 sample_call 20 1 1 17 5 1 1).
  - exact sample_contract.
  - reflexivity.
  - apply Nat.ltb_lt. reflexivity.
  - apply Nat.ltb_lt. reflexivity.
  - apply Nat.ltb_lt. reflexivity.
  - apply Nat.ltb_lt. reflexivity.
  - apply Nat.ltb_lt. reflexivity.
  - intros j _. unfold sample_call, v, one3. lra.
Defined.

(** ** Bounds on the normaliser, in exact real arithmetic *)

Lemma tl_max_attained (n : nat) (f : nat -> ext) (mx : R) :
  tl_max n f = Fin mx -> exists j, j < n /\ f j = Fin mx.
Proof.
  revert mx. induction n as [|n IH]; intros mx H; [discriminate|].
  simpl in H. destruct (tl_max n f) as [|x] eqn:E.
  - simpl in H. exists n. split; [lia | exact H].
  - destruct (f n) as [|y] eqn:Ef.
    + simpl in H. destruct (IH x eq_refl) as (j & Hj & Hfj).
      exists j. split; [lia | congruence].
    + simpl in H. inversion H as [Hm].
      destruct (Rle_dec x y) as [L|L].
      * rewrite Rmax_right in Hm by exact L.
        exists n. split; [lia | congruence].
      * rewrite Rmax_left in Hm by lra.
        destruct (IH x eq_refl) as (j & Hj & Hfj).
        exists j. split; [lia | congruence].
Qed.

Lemma tl_sum_le_count (n : nat) (f : nat -> R) :
  (forall j, j < n -> (f j <= 1)%R) -> (tl_sum n f <= INR n)%R.
Proof.
  induction n as [|n IH]; intros H.
  - simpl. lra.
  - rewrite S_INR. simpl.
    pose proof (IH (fun j Hj => H j (Nat.lt_lt_succ_r _ _ Hj))).
    pose proof (H n (Nat.lt_succ_diag_r n)). lra.
Qed.

Lemma tl_sum_nonneg (n : nat) (f : nat -> R) :
  (forall j, j < n -> (0 <= f j)%R) -> (0 <= tl_sum n f)%R.
Proof.
  induction n as [|n IH]; intros H; simpl; [lra|].
  pose proof (IH (fun j Hj => H j (Nat.lt_lt_succ_r _ _ Hj))).
  pose proof (H n (Nat.lt_succ_diag_r n)). lra.
Qed.

Lemma tl_sum_ge_term (n : nat) (f : nat -> R) (j0 : nat) :
  (forall j, j < n -> (0 <= f j)%R) -> j0 < n -> (f j0 <= tl_sum n f)%R.
Proof.
  induction n as [|n IH]; intros H Hj0; [lia|]. simpl.
  pose proof (H n (Nat.lt_succ_diag_r n)).
  destruct (Nat.eq_dec j0 n) as [->|Hne].
  - pose proof (tl_sum_nonneg n f (fun j Hj => H j (Nat.lt_lt_succ_r _ _ Hj))).
    lra.
  - pose proof (IH (fun j Hj => H j (Nat.lt_lt_succ_r _ _ Hj))
                  ltac:(lia)). lra.
Qed.

Lemma eexp_nonneg (x : ext) : (0 <= eexp x)%R.
Proof. destruct x; simpl; [lra | left; apply exp_pos]. Qed.

Lemma eexp_le_1 (x : ext) (mx : R) :
  ele x (Fin mx) -> (eexp (esub_fin x mx) <= 1)%R.
Proof.
  destruct x as [|y]; simpl; intros H; [lra|].
  rewrite <- exp_0. destruct H as [H|H].
  - left. apply exp_increasing. lra.
  - right. f_equal. lra.
Qed.

(** X5: in exact real arithmetic, where every score is a finite real
    (no overflow), the causal mask never empties a row: every row of a
    query tile sees at least key 0, so its loop ends with a finite
    running maximum and a normalisation sum [l_i] between 1 and the
    number of keys the row may see.  (Nothing is said of float32, where
    a score can overflow.) *)
Theorem normaliser_bounds (a : Kernel.args) (s h t i : nat) :
  Kernel.BLOCK_M a = Kernel.BLOCK_N a -> 0 < Kernel.BLOCK_N a ->
  i < Kernel.BLOCK_M a ->
  exists r mx,
    Kernel.rows (Kernel.loop_final a s h t) i = Some r /\
    Kernel.m_i r = Fin mx /\
    (1 <= Kernel.l_i r <= INR (Kernel.offsets_m a t i + 1))%R.
Proof.
  intros HM HB Hi.
  destruct (loop_final_rows a s h t i HM HB) as (r & Hr & Hm & Hl & _).
  set (n := (t + 1) * Kernel.BLOCK_N a) in *.
  assert (Hn : Kernel.offsets_m a t i < n).
  { unfold Kernel.offsets_m, n. rewrite HM in *. lia. }
  destruct (E_row_finite a s h t i n ltac:(lia)) as [mx Hmx].
  exists r, mx. split; [exact Hr|]. split; [congruence|].
  assert (HW : forall j, W_row a s h t i n j =
                         eexp (esub_fin (S_row a s h t i j) mx)).
  { intros j. unfold W_row. now rewrite Hmx. }
  assert (Hnn : forall j, j < n -> (0 <= W_row a s h t i n j)%R).
  { intros j _. rewrite HW. apply eexp_nonneg. }
  rewrite Hl. split.
  - destruct (tl_max_attained n (S_row a s h t i) mx Hmx) as (j0 & Hj0 & E0).
    apply Rle_trans with (W_row a s h t i n j0).
    + rewrite HW, E0. simpl.
      replace (mx - mx)%R with 0%R by lra. rewrite exp_0. lra.
    + now apply tl_sum_ge_term.
  - rewrite (tl_sum_causal (W_row a s h t i n) (W_row a s h t i n)
               (Kernel.offsets_m a t i) n); [| reflexivity | | exact Hn].
    + replace (Kernel.offsets_m a t i + 1) with (S (Kernel.offsets_m a t i))
        by lia.
      apply tl_sum_le_count. intros j Hj. rewrite HW.
      apply eexp_le_1. rewrite <- Hmx. apply tl_max_ge. lia.
    + intros j Hj. rewrite HW. unfold S_row.
      destruct (Nat.leb_spec j (Kernel.offsets_m a t i)); [lia|].
      reflexivity.
Qed.

Lemma normaliser_bounds_witness :
  exists r mx,
    Kernel.rows (Kernel.loop_final sample_args 1 0 1) 9 = Some r /\
    Kernel.m_i r = Fin mx /\
    (1 <= Kernel.l_i r <= INR (Kernel.offsets_m sample_args 1 9 + 1))%R.
Proof.
  apply (normaliser_bounds sample_args 1 0 1 9).
  - reflexivity.
  - apply Nat.ltb_lt. reflexivity.
  - apply Nat.ltb_lt. reflexivity.
Defined.

(** ** What the call writes, and what it reads *)

(** X6: the call changes a cache slot only inside a block the block table
    names for a dispatched tile of a sequence, below the end of that
    sequence, and inside the ranges of kv heads, head dimensions and
    block slots; every other slot of either cache keeps its content. *)
Theorem cache_changes_in_bounds (pad : nat -> nat -> R) (c : call)
    (msl : nat) :
  contract c -> max_seq_len c = Some msl ->
  exists out kc vc,
    context_attention_unpadded pad c = (inr out, (kc, vc)) /\
    forall b hd d sl,
      kc b hd d sl <> k_cache c b hd d sl \/
      vc b hd d sl <> v_cache c b hd d sl ->
      exists s t,
        s < num_seqs c /\ t < cdiv msl (block_size c) /\
        t * block_size c + sl < seq_length c s /\
        b = block_tables c s t /\
        hd < num_kv_heads c /\ d < Lk c /\ sl < block_size c.
Proof.
  intros Hc Hm.
  destruct (wrapper_accepts pad c msl Hc Hm) as (st' & _ & Hw & Hrd).
  exists (Kernel.Out st'), (Kernel.KCache st'), (Kernel.VCache st').
  split; [exact Hw|]. intros b hd d sl Hdiff.
  assert (Hwriter : exists s h t,
            In (s, h, t) (grid_units (grid c msl)) /\
            writes_cache (kernel_args c pad) s h t b hd d sl = true).
  { destruct Hdiff as [Hk|Hv].
    - destruct (last_writer (kernel_args c pad) (grid_units (grid c msl))
                  (KCell b hd d sl)) as [[[s h] t]|] eqn:E.
      + apply last_writer_some in E. now exists s, h, t.
      + exfalso. apply Hk.
        pose proof (Hrd (KCell b hd d sl)) as H. rewrite E in H. exact H.
    - destruct (last_writer (kernel_args c pad) (grid_units (grid c msl))
                  (VCell b hd d sl)) as [[[s h] t]|] eqn:E.
      + apply last_writer_some in E. now exists s, h, t.
      + exfalso. apply Hv.
        pose proof (Hrd (VCell b hd d sl)) as H. rewrite E in H. exact H. }
  destruct Hwriter as (s & h & t & Hin & Hwc).
  apply (grid_unit_inv c msl) in Hin. destruct Hin as [Hh Ht].
  apply (writes_cache_inv pad c) in Hwc.
  destruct Hwc as (Hl & _ & Eb & Ehd & Hd & Hsl & Hlen).
  apply (live_iff pad c) in Hl. destruct Hl as [Hs _].
  destruct (heads_grouped c Hc ltac:(lia)) as [Hg Hn].
  exists s, t. repeat split; try assumption.
  subst hd. apply Nat.Div0.div_lt_upper_bound. lia.
Qed.

Lemma cache_changes_in_bounds_witness :
  exists out kc vc,
    context_attention_unpadded pad0 sample_call = (inr out, (kc, vc)) /\
    forall b hd d sl,
      kc b hd d sl <> k_cache sample_call b hd d sl \/
      vc b hd d sl <> v_cache sample_call b hd d sl ->
      exists s t,
        s < num_seqs sample_call /\ t < cdiv 20 (block_size sample_call) /\
        t * block_size sample_call + sl < seq_length sample_call s /\
        b = block_tables sample_call s t /\
        hd < num_kv_heads sample_call /\ d < Lk sample_call /\
        sl < block_size sample_call.
Proof.
  apply (cache_changes_in_bounds pad0 sample_call 20).
  - exact sample_contract.
  - reflexivity.
Defined.

Lemma with_caches_contract (c : call) (kc vc : tensor4) :
  contract c -> contract (with_caches c kc vc).
Proof. intros H. exact H. Qed.

(** X7: a call that returned can be repeated on the caches it left,
    provided the block table gives distinct blocks to distinct (sequence,
    tile) pairs that do real work: the second call returns the same
    output tensor and leaves both caches as the first call left them, and
    so does a second launch that runs the same units in any other order. *)
Theorem rerun_changes_nothing (pad : nat -> nat -> R) (c : call)
    (out : tensor3) (kc vc : tensor4) :
  context_attention_unpadded pad c = (inr out, (kc, vc)) ->
  block_table_injective (kernel_args c pad) ->
  (exists out' kc' vc',
     context_attention_unpadded pad (with_caches c kc vc)
       = (inr out', (kc', vc')) /\
     (forall tk hd d, out' tk hd d = out tk hd d) /\
     (forall b hd d sl,
        kc' b hd d sl = kc b hd d sl /\ vc' b hd d sl = vc b hd d sl)) /\
  (forall msl us,
     max_seq_len c = Some msl ->
     (forall u, In u us <-> In u (grid_units (grid c msl))) ->
     exists st2,
       launch (kernel_args c pad) us (initial_mem (with_caches c kc vc))
         = (true, st2) /\
       (forall tk hd d, Kernel.Out st2 tk hd d = out tk hd d) /\
       (forall b hd d sl,
          Kernel.KCache st2 b hd d sl = kc b hd d sl /\
          Kernel.VCache st2 b hd d sl = vc b hd d sl)).
Proof.
  intros Hw Hinj.
  destruct (wrapper_returns_inv pad c out kc vc Hw) as [Hc [msl Hm]].
  destruct (wrapper_returns_mem pad c msl out kc vc Hc Hm Hw)
    as (st1 & -> & -> & -> & Hrd1).
  assert (Hany : forall us,
            (forall u, In u us <-> In u (grid_units (grid c msl))) ->
            exists st2,
              launch (kernel_args c pad) us
                (initial_mem (with_caches c (Kernel.KCache st1)
                                (Kernel.VCache st1))) = (true, st2) /\
              forall x, read st2 x = read st1 x).
  { intros us Hus.
    destruct (launch_effect (kernel_args c pad) us
                (kernel_args_static_asserts pad c) (contract_block_size c Hc)
                (initial_mem (with_caches c (Kernel.KCache st1)
                                (Kernel.VCache st1))))
      as (st2 & Hl2 & Hrd2).
    exists st2. split; [exact Hl2|].
    intros x. rewrite Hrd2, Hrd1.
    destruct (last_writer (kernel_args c pad) us x) as [u|] eqn:E.
    - apply last_writer_some in E. destruct E as [Hin Hwu].
      symmetry. apply last_writer_owner.
      + now apply Hus.
      + exact Hwu.
      + intros u' _ Hw'. now apply writers_agree.
    - rewrite last_writer_none in E.
      assert (E' : last_writer (kernel_args c pad)
                     (grid_units (grid c msl)) x = None).
      { apply last_writer_none. intros u Hu. apply E. now apply Hus. }
      rewrite E'.
      destruct x as [tk hd d|b hd d sl|b hd d sl]; simpl.
      + reflexivity.
      + pose proof (Hrd1 (KCell b hd d sl)) as H. rewrite E' in H. exact H.
      + pose proof (Hrd1 (VCell b hd d sl)) as H. rewrite E' in H. exact H. }
  split.
  - destruct (Hany (grid_units (grid c msl))) as (st2 & Hl2 & Hcell).
    { intros u. reflexivity. }
    destruct (wrapper_accepts pad (with_caches c (Kernel.KCache st1)
                                     (Kernel.VCache st1)) msl
                (with_caches_contract c _ _ Hc) Hm)
      as (st2' & Hl2' & Hw2 & _).
    change (kernel_args (with_caches c (Kernel.KCache st1)
                           (Kernel.VCache st1)) pad)
      with (kernel_args c pad) in Hl2'.
    change (grid (with_caches c (Kernel.KCache st1) (Kernel.VCache st1)) msl)
      with (grid c msl) in Hl2'.
    rewrite Hl2 in Hl2'. injection Hl2' as <-.
    exists (Kernel.Out st2), (Kernel.KCache st2), (Kernel.VCache st2).
    split; [exact Hw2|]. split.
    + intros tk hd d. exact (Hcell (OutCell tk hd d)).
    + intros b hd d sl. split.
      * exact (Hcell (KCell b hd d sl)).
      * exact (Hcell (VCell b hd d sl)).
  - intros msl' us Hm' Hus.
    assert (msl' = msl) by congruence. subst msl'.
    destruct (Hany us Hus) as (st2 & Hl2 & Hcell).
    exists st2. split; [exact Hl2|]. split.
    + intros tk hd d. exact (Hcell (OutCell tk hd d)).
    + intros b hd d sl. split.
      * exact (Hcell (KCell b hd d sl)).
      * exact (Hcell (VCell b hd d sl)).
Qed.

Lemma rerun_changes_nothing_witness :
  exists out kc vc,
    context_attention_unpadded pad0 sample_call = (inr out, (kc, vc)) /\
    (exists out' kc' vc',
       context_attention_unpadded pad0 (with_caches sample_call kc vc)
         = (inr out', (kc', vc')) /\
       (forall tk hd d, out' tk hd d = out tk hd d) /\
       (forall b hd d sl,
          kc' b hd d sl = kc b hd d sl /\ vc' b hd d sl = vc b hd d sl)) /\
    (forall msl us,
       max_seq_len sample_call = Some msl ->
       (forall u, In u us <-> In u (grid_units (grid sample_call msl))) ->
       exists st2,
         launch (kernel_args sample_call pad0) us
           (initial_mem (with_caches sample_call kc vc)) = (true, st2) /\
         (forall tk hd d, Kernel.Out st2 tk hd d = out tk hd d) /\
         (forall b hd d sl,
            Kernel.KCache st2 b hd d sl = kc b hd d sl /\
            Kernel.VCache st2 b hd d sl = vc b hd d sl)).
Proof.
  destruct (wrapper_accepts pad0 sample_call 20 sample_contract eq_refl)
    as (st' & _ & Hw & _).
  exists (Kernel.Out st'), (Kernel.KCache st'), (Kernel.VCache st').
  split; [exact Hw|].
  exact (rerun_changes_nothing pad0 sample_call _ _ _ Hw
           sample_block_table_injective).
Defined.

(** X9: the attention output never depends on what the caches held: a
    call on other cache contents returns the same output tensor. *)
Theorem output_ignores_cache_contents (pad : nat -> nat -> R) (c : call)
    (kc0 vc0 : tensor4) (out : tensor3) (kc vc : tensor4) :
  context_attention_unpadded pad c = (inr out, (kc, vc)) ->
  exists out' kc' vc',
    context_attention_unpadded pad (with_caches c kc0 vc0)
      = (inr out', (kc', vc')) /\
    forall tk hd d, out' tk hd d = out tk hd d.
Proof.
  intros Hw.
  destruct (wrapper_returns_inv pad c out kc vc Hw) as [Hc [msl Hm]].
  destruct (wrapper_returns_mem pad c msl out kc vc Hc Hm Hw)
    as (st1 & -> & -> & -> & Hrd1).
  destruct (wrapper_accepts pad (with_caches c kc0 vc0) msl
              (with_caches_contract c _ _ Hc) Hm)
    as (st2 & _ & Hw2 & Hrd2).
  exists (Kernel.Out st2), (Kernel.KCache st2), (Kernel.VCache st2).
  split; [exact Hw2|]. intros tk hd d.
  rewrite (out_total_value pad (with_caches c kc0 vc0) msl
             (with_caches_contract c _ _ Hc) st2 tk hd d Hrd2).
  rewrite (out_total_value pad c msl Hc st1 tk hd d Hrd1).
  reflexivity.
Qed.

Lemma output_ignores_cache_contents_witness :
  exists out kc vc,
    context_attention_unpadded pad0 sample_call = (inr out, (kc, vc)) /\
    exists out' kc' vc',
      context_attention_unpadded pad0
        (with_caches sample_call (fun _ _ _ _ => 3%R) (fun _ _ _ _ => 4%R))
        = (inr out', (kc', vc')) /\
      forall tk hd d, out' tk hd d = out tk hd d.
Proof.
  destruct (wrapper_accepts pad0 sample_call 20 sample_contract eq_refl)
    as (st' & _ & Hw & _).
  exists (Kernel.Out st'), (Kernel.KCache st'), (Kernel.VCache st').
  split; [exact Hw|].
  exact (output_ignores_cache_contents pad0 sample_call
           (fun _ _ _ _ => 3%R) (fun _ _ _ _ => 4%R) _ _ _ Hw).
Defined.

(** ** Errors *)

Lemma shape_asserts_checks (c : call) :
  shape_asserts c <->
  ((Lq c =? Lk c) && (Lk c =? Lv c) = true /\
   in_set (Lk c) [32; 64; 128; 256] = true /\
   (fst (fst (q_shape c)) =? fst (fst (k_shape c)))
   && (fst (fst (k_shape c)) =? fst (fst (v_shape c))) = true /\
   shape4_eqb (k_cache_shape c) (v_cache_shape c) = true /\
   (length (context_lengths c) =? fst (block_tables_shape c)) = true /\
   (0 <? num_kv_heads c) && (num_heads c mod num_kv_heads c =? 0) = true).
Proof.
  unfold shape_asserts.
  rewrite !andb_true_iff, !Nat.eqb_eq, !in_set_spec, shape4_eqb_spec,
    Nat.ltb_lt.
  tauto.
Qed.

(** X11: the error of [context_lengths.max()] on an empty tensor is
    raised exactly when the six shape assertions pass, no hint is given
    and [context_lengths] is empty, whatever the block size: the
    block-size assertion comes after it. *)
Theorem wrapper_errors (pad : nat -> nat -> R) (c : call) :
  fst (context_attention_unpadded pad c) = inl RuntimeError <->
  shape_asserts c /\
  context_lengths c = [] /\ max_seq_len_in_b c = None.
Proof.
  rewrite <- max_seq_len_none, shape_asserts_checks.
  unfold context_attention_unpadded.
  destruct (max_seq_len c) as [msl|] eqn:Em.
  all: repeat match goal with
  | |- context [if negb ?b then _ else _] =>
      destruct b eqn:?;
      [change (negb true) with false | change (negb false) with true];
      cbv iota
  end.
  all: try (cbv beta iota delta [fst];
            split; [discriminate | intros [_ H]; discriminate]).
  all: try (cbv beta iota delta [fst]; split;
            [discriminate
            | intros [H _]; decompose [and] H; discriminate]).
  - destruct (launch (kernel_args c pad) (grid_units (grid c msl)) _)
      as [[|] st']; cbv beta iota delta [fst];
      (split; [discriminate | intros [_ H]; discriminate]).
  - cbv beta iota delta [fst]. split; [|reflexivity].
    intros _. repeat split; reflexivity.
Qed.

(** ** Degenerate grids *)

Lemma writes_live (a : Kernel.args) (s h t : nat) (x : cell) :
  writes a s h t x = true -> live a s t = true.
Proof.
  destruct x as [tk hd d|b hd d sl|b hd d sl]; simpl;
    unfold writes_out, writes_cache, cache_writer;
    rewrite !andb_true_iff; tauto.
Qed.



(** ** The sequence locator *)

(** X13: the start offsets the kernel accumulates over the context
    lengths split the packed token axis into consecutive disjoint spans:
    every token below the total of the first [n] lengths lies in the span
    of exactly one of the first [n] sequences. *)
Theorem sequence_spans_partition (a : Kernel.args) (n tk : nat) :
  tk < Kernel.seq_len_sum a n ->
  exists s,
    s < n /\
    Kernel.prev_seq_len_sum a s <= tk <
      Kernel.prev_seq_len_sum a s + Kernel.cur_seq_len a s /\
    forall s',
      Kernel.prev_seq_len_sum a s' <= tk <
        Kernel.prev_seq_len_sum a s' + Kernel.cur_seq_len a s' ->
      s' = s.
Proof.
  intros Htk.
  assert (Hex : exists s, s < n /\
            Kernel.prev_seq_len_sum a s <= tk <
              Kernel.prev_seq_len_sum a s + Kernel.cur_seq_len a s).
  { induction n as [|n IH]; [simpl in Htk; lia|].
    simpl in Htk.
    destruct (Nat.lt_ge_cases tk (Kernel.seq_len_sum a n)) as [L|L].
    - destruct (IH L) as (s & Hs & Hspan). exists s. split; [lia|exact Hspan].
    - exists n. split; [lia|].
      unfold Kernel.prev_seq_len_sum, Kernel.cur_seq_len. lia. }
  destruct Hex as (s & Hs & Hspan). exists s.
  split; [exact Hs|]. split; [exact Hspan|].
  intros s' Hspan'. now apply (seq_span_unique a s' s tk).
Qed.

Lemma sequence_spans_partition_witness :
  exists s,
    s < 2 /\
    Kernel.prev_seq_len_sum sample_args s <= 10 <
      Kernel.prev_seq_len_sum sample_args s
      + Kernel.cur_seq_len sample_args s /\
    forall s',
      Kernel.prev_seq_len_sum sample_args s' <= 10 <
        Kernel.prev_seq_len_sum sample_args s'
        + Kernel.cur_seq_len sample_args s' ->
      s' = s.
Proof.
  apply (sequence_spans_partition sample_args 2 10).
  apply Nat.ltb_lt. reflexivity.
Defined.

(** ** Schedules *)

Lemma schedule_irrelevant_witness :
  exists st1 st2,
    launch sample_args (grid_units (2, 2, 2)) (initial_mem sample_call)
      = (true, st1) /\
    launch sample_args (rev (grid_units (2, 2, 2))) (initial_mem sample_call)
      = (true, st2) /\
    forall x, read st1 x = read st2 x.
Proof.
  apply (schedule_irrelevant sample_args (grid_units (2, 2, 2))
           (rev (grid_units (2, 2, 2))) (initial_mem sample_call)).
  - reflexivity.
  - apply Nat.ltb_lt. reflexivity.
  - exact sample_block_table_injective.
  - intros u. apply in_rev.
Defined.

(** ** The hint only sizes the grid *)

Lemma expected_out_hint (c : call) (hint : option nat) (m1 m2 : nat) :
  0 < block_size c ->
  (forall x, In x (context_lengths c) -> x <= m1) ->
  (forall x, In x (context_lengths c) -> x <= m2) ->
  forall tk hd d,
    expected_out (with_hint c hint) m2 tk hd d = expected_out c m1 tk hd d.
Proof.
  intros Hbs H1 H2 tk hd d. unfold expected_out.
  change (context_lengths (with_hint c hint)) with (context_lengths c).
  change (num_heads (with_hint c hint)) with (num_heads c).
  change (Lq (with_hint c hint)) with (Lq c).
  change (block_size (with_hint c hint)) with (block_size c).
  destruct (locate (context_lengths c) tk) as [[s p]|] eqn:E;
    [|reflexivity].
  apply locate_some in E. destruct E as (Hs & Hp & _).
  assert (Hin : In (nth s (context_lengths c) 0) (context_lengths c))
    by now apply nth_In.
  assert (Hd : forall m, nth s (context_lengths c) 0 <= m ->
             (p / block_size c <? cdiv m (block_size c)) = true).
  { intros m Hm. apply Nat.ltb_lt. apply cdiv_lt; [assumption|].
    pose proof (Nat.div_mod_eq p (block_size c)). nia. }
  rewrite (Hd m1 (H1 _ Hin)), (Hd m2 (H2 _ Hin)). reflexivity.
Qed.

Lemma live_unit_in_grid (pad : nat -> nat -> R) (c : call) (m s h t : nat) :
  contract c ->
  (forall x, In x (context_lengths c) -> x <= m) ->
  h < num_heads c -> live (kernel_args c pad) s t = true ->
  In (s, h, t) (grid_units (grid c m)).
Proof.
  intros Hc Hm Hh Hl.
  pose proof (contract_block_size c Hc) as Hbs.
  apply (live_iff pad c) in Hl. destruct Hl as [Hs Ht].
  assert (Hlen : length (context_lengths c) = num_seqs c).
  { destruct Hc as (_ & _ & _ & _ & H & _). exact H. }
  apply (unit_in_grid c m); try assumption.
  apply cdiv_lt; [assumption|].
  assert (seq_length c s <= m).
  { apply Hm. unfold seq_length. apply nth_In. lia. }
  lia.
Qed.

(** X14: a hint that is at least every context length changes nothing:
    the call returns the output tensor it returns without a hint, and,
    the block table giving distinct blocks to distinct (sequence, tile)
    pairs, leaves the same caches. *)
Theorem sufficient_hint_changes_nothing (pad : nat -> nat -> R) (c : call)
    (n : nat) (out : tensor3) (kc vc : tensor4) :
  max_seq_len_in_b c = None ->
  context_attention_unpadded pad c = (inr out, (kc, vc)) ->
  (forall x, In x (context_lengths c) -> x <= n) ->
  exists out' kc' vc',
    context_attention_unpadded pad (with_hint c (Some n))
      = (inr out', (kc', vc')) /\
    (forall tk hd d, out' tk hd d = out tk hd d) /\
    (block_table_injective (kernel_args c pad) ->
     forall b hd d sl,
       kc' b hd d sl = kc b hd d sl /\ vc' b hd d sl = vc b hd d sl).
Proof.
  intros Hhint Hw Hn.
  destruct (wrapper_returns_inv pad c out kc vc Hw) as [Hc [msl Hm]].
  pose proof (contract_block_size c Hc) as Hbs.
  pose proof (max_seq_len_covers c msl Hm) as Hcov.
  rewrite Hhint in Hcov. destruct Hcov as [_ Hmax].
  destruct (wrapper_returns_mem pad c msl out kc vc Hc Hm Hw)
    as (st1 & -> & -> & -> & Hrd1).
  assert (Hc2 : contract (with_hint c (Some n))) by exact Hc.
  destruct (wrapper_accepts pad (with_hint c (Some n)) n Hc2 eq_refl)
    as (st2 & _ & Hw2 & Hrd2).
  exists (Kernel.Out st2), (Kernel.KCache st2), (Kernel.VCache st2).
  split; [exact Hw2|]. split.
  - intros tk hd d.
    rewrite (out_total_value pad (with_hint c (Some n)) n Hc2 st2 tk hd d
               Hrd2).
    rewrite (out_total_value pad c msl Hc st1 tk hd d Hrd1).
    now apply expected_out_hint.
  - intros Hinj.
    assert (Hcell : forall x,
              (exists b hd d sl, x = KCell b hd d sl \/ x = VCell b hd d sl) ->
              read st2 x = read st1 x).
    { intros x Hx. rewrite Hrd2, Hrd1.
      change (kernel_args (with_hint c (Some n)) pad)
        with (kernel_args c pad).
      change (grid (with_hint c (Some n)) n) with (grid c n).
      change (read (initial_mem (with_hint c (Some n))) x)
        with (read (initial_mem c) x).
      destruct (last_writer (kernel_args c pad) (grid_units (grid c n)) x)
        as [[[s h] t]|] eqn:E2.
      - apply last_writer_some in E2. destruct E2 as [Hin2 Hw2'].
        symmetry. apply last_writer_owner.
        + apply (live_unit_in_grid pad c msl s h t Hc Hmax).
          * now apply (grid_unit_inv c n) in Hin2.
          * simpl in Hw2'. now apply writes_live in Hw2'.
        + exact Hw2'.
        + intros u' _ Hw'. now apply writers_agree.
      - rewrite last_writer_none in E2.
        assert (E1 : last_writer (kernel_args c pad)
                       (grid_units (grid c msl)) x = None).
        { apply last_writer_none. intros [[s h] t] Hin1.
          destruct (writes_u (kernel_args c pad) (s, h, t) x) eqn:E;
            [|reflexivity].
          rewrite <- E. apply E2.
          apply (live_unit_in_grid pad c n s h t Hc Hn).
          - now apply (grid_unit_inv c msl) in Hin1.
          - simpl in E. now apply writes_live in E. }
        now rewrite E1. }
    intros b hd d sl. split.
    + apply (Hcell (KCell b hd d sl)). exists b, hd, d, sl. now left.
    + apply (Hcell (VCell b hd d sl)). exists b, hd, d, sl. now right.
Qed.

Lemma sufficient_hint_changes_nothing_witness :
  exists out kc vc,
    context_attention_unpadded pad0 sample_call = (inr out, (kc, vc)) /\
    exists out' kc' vc',
      context_attention_unpadded pad0 (with_hint sample_call (Some 100))
        = (inr out', (kc', vc')) /\
      (forall tk hd d, out' tk hd d = out tk hd d) /\
      (forall b hd d sl,
         kc' b hd d sl = kc b hd d sl /\ vc' b hd d sl = vc b hd d sl).
Proof.
  destruct (wrapper_accepts pad0 sample_call 20 sample_contract eq_refl)
    as (st' & _ & Hw & _).
  exists (Kernel.Out st'), (Kernel.KCache st'), (Kernel.VCache st').
  split; [exact Hw|].
  destruct (sufficient_hint_changes_nothing pad0 sample_call 100 _ _ _
              eq_refl Hw)
    as (out' & kc' & vc' & Hw' & Ho & Hk).
  - intros x Hx. simpl in Hx. intuition lia.
  - exists out', kc', vc'. split; [exact Hw'|]. split; [exact Ho|].
    apply Hk. exact sample_block_table_injective.
Defined.

(** ** A query that scores every key alike *)

Lemma tl_sum_const_1 (n : nat) : tl_sum n (fun _ => 1%R) = INR n.
Proof.
  induction n as [|n IH]; [reflexivity|].
  rewrite S_INR. simpl. now rewrite IH.
Qed.

Lemma max_upto_zero (f : nat -> R) (n : nat) :
  (forall j, j <= n -> f j = 0%R) -> max_upto f n = 0%R.
Proof.
  induction n as [|n IH]; intros H; simpl.
  - apply H. lia.
  - rewrite IH by (intros; apply H; lia). rewrite (H (S n)) by lia.
    apply Rmax_left. lra.
Qed.

Lemma dense_zero_query (c : call) (s h p d : nat) :
  (forall e, e < Lq c -> q c (seq_start c s + p)%nat h e = 0%R) ->
  dense_attention c s h p d =
  (tl_sum (S p) (fun j => v c (seq_start c s + j)%nat (kv_head c h) d)
   / INR (S p))%R.
Proof.
  intros Hq.
  assert (Hs : forall j, dense_score c s h p j = 0%R).
  { intros j. unfold dense_score. rewrite tl_sum_zero; [lra|].
    intros e He. rewrite Hq by assumption. lra. }
  assert (Hm : dense_max c s h p = 0%R).
  { unfold dense_max. apply max_upto_zero. intros j _. apply Hs. }
  assert (Hw : forall j, dense_weight c s h p j = 1%R).
  { intros j. unfold dense_weight. rewrite Hs, Hm.
    replace (0 - 0)%R with 0%R by lra. apply exp_0. }
  unfold dense_attention, dense_num, dense_den. f_equal.
  - apply tl_sum_ext. intros j _. rewrite Hw. lra.
  - rewrite (tl_sum_ext (S p) _ (fun _ => 1%R)) by (intros; apply Hw).
    apply tl_sum_const_1.
Qed.

(** X15: a query vector of zeros scores every key alike, so its output
    row is the plain average of the value vectors of the tokens [0 .. p]
    of its sequence. *)
Theorem zero_query_averages_values (pad : nat -> nat -> R) (c : call)
    (msl s h p d : nat) :
  contract c -> max_seq_len c = Some msl ->
  s < num_seqs c -> h < num_heads c ->
  p < seq_length c s -> p < msl -> d < Lq c ->
  (forall e, e < Lq c -> q c (seq_start c s + p)%nat h e = 0%R) ->
  exists out kc vc,
    context_attention_unpadded pad c = (inr out, (kc, vc)) /\
    out (seq_start c s + p) h d =
    (tl_sum (S p) (fun j => v c (seq_start c s + j)%nat (kv_head c h) d)
     / INR (S p))%R.
Proof.
  intros Hc Hm Hs Hh Hp Hpm Hd Hq.
  pose proof (contract_block_size c Hc) as Hbs.
  destruct (wrapper_accepts pad c msl Hc Hm) as (st' & _ & Hw & Hrd).
  exists (Kernel.Out st'), (Kernel.KCache st'), (Kernel.VCache st').
  split; [exact Hw|].
  rewrite (out_cell_value pad c msl Hc st' s p h d Hrd Hs Hp).
  assert (Hdisp : p / block_size c < cdiv msl (block_size c)).
  { apply cdiv_lt; [assumption|].
    pose proof (Nat.div_mod_eq p (block_size c)). nia. }
  apply Nat.ltb_lt in Hh, Hd, Hdisp. rewrite Hh, Hd, Hdisp. simpl andb.
  cbv iota. now apply dense_zero_query.
Qed.

Lemma zero_query_averages_values_witness :
  exists out kc vc,
    context_attention_unpadded pad0 zero_query_call = (inr out, (kc, vc)) /\
    out (seq_start zero_query_call 1 + 17) 1 5 =
    (tl_sum 18 (fun j =>
       v zero_query_call (seq_start zero_query_call 1 + j)%nat
         (kv_head zero_query_call 1) 5%nat)
     / INR 18)%R.
Proof.
  apply (zero_query_averages_values pad0 zero_query_call 20 1 1 17 5).
  - unfold contract. simpl. repeat split; auto.
  - reflexivity.
  - apply Nat.ltb_lt. reflexivity.
  - apply Nat.ltb_lt. reflexivity.
  - apply Nat.ltb_lt. reflexivity.
  - apply Nat.ltb_lt. reflexivity.
  - apply Nat.ltb_lt. reflexivity.
  - intros e _. reflexivity.
Defined.
